(** * aquifer-git: the deploy-git command of [aquifer-git.js]

    A shallow embedding of [AquiferGit.run] and of the helpers it is
    built from, followed by the properties of the deployment pipeline.

    The JavaScript module talks to five collaborators: [lodash]
    ([_.assign] with a customizer), Node's [path], [mktemp], [fs-extra]
    and the [Aquifer] object (console, [api.run], [api.build],
    [projectDir]).  The promise chain is sequential, so it is embedded
    as a small error/state/trace monad: a rejected promise is a value
    [inl err], [.then] is the monadic bind and [.catch] is a handler.
    [Aquifer.console.log] and [callback] only leave an entry in the
    trace; [mktemp], [run.invoke], [build.create] and the two calls of
    [fs-extra] are collaborators supplied by the environment.  What
    [fs.removeSync] does to a path depends on glob expansion, on what
    the path crosses and on the operating system, and what
    [fs.copySync] writes depends on what it finds; only what is certain
    of them is fixed here: [fs.removeSync] throws on a missing path and
    deletes a plain name of the current directory with all it contains,
    and [fs.copySync] throws when its source does not exist.  The wording
    of the [TypeError]s of the JavaScript runtime and of [path] differs
    between versions of Node and is supplied by the environment too. *)

From Stdlib Require Import Ascii String.
From stdpp Require Import base option list strings gmap.

Open Scope string_scope.
Open Scope list_scope.

(** ** JavaScript values *)

(** The values an option may hold.  Numbers are left out: neither the
    command line parser nor the pipeline produces them. *)
#[warnings="-register-all"]
Inductive jsval : Type :=
  | JUndef
  | JNull
  | JBool (b : bool)
  | JStr (s : string)
  | JArr (xs : list jsval)
  | JObj (fields : list (string * jsval)).

(** JavaScript truthiness, as used by [nextValue ? ... : ...],
    [!options[name]], [options.email && ...] and [if (options.folder)]. *)
Definition truthy (v : jsval) : bool :=
  match v with
  | JUndef | JNull => false
  | JBool b => b
  | JStr s => negb (String.eqb s EmptyString)
  | JArr _ | JObj _ => true
  end.

(** [ToString], the conversion the [+] operator applies to a value that
    is concatenated with a string. *)
Fixpoint to_string (v : jsval) : string :=
  match v with
  | JUndef => "undefined"
  | JNull => "null"
  | JBool true => "true"
  | JBool false => "false"
  | JStr s => s
  | JArr xs =>
      (fix join (l : list jsval) : string :=
         match l with
         | [] => EmptyString
         | x :: r =>
             let sx := match x with
                       | JUndef | JNull => EmptyString
                       | _ => to_string x
                       end in
             match r with
             | [] => sx
             | _ :: _ => sx +:+ "," +:+ join r
             end
         end) xs
  | JObj _ => "[object Object]"
  end.

(** [a || b] *)
Definition js_or (a b : jsval) : jsval := if truthy a then a else b.

(** A JavaScript object used as a dictionary of options. *)
Abbreviation object := (gmap string jsval).

(** [o[name]]: reading an absent property yields [undefined]. *)
Definition get (o : object) (name : string) : jsval :=
  default JUndef (o !! name).

(** [link.src] on an arbitrary value: reading a property of [undefined]
    or [null] throws, every other value without that property answers
    [undefined]. *)
Definition field (name : string) (fields : list (string * jsval)) : jsval :=
  match find (fun kv => String.eqb (fst kv) name) fields with
  | Some kv => snd kv
  | None => JUndef
  end.

(** ** Errors *)

(** What a promise of the chain can be rejected with. *)
Inductive error : Type :=
  | ExtError (diagnostic : string)   (* reason supplied by a collaborator *)
  | TypeError (msg : string)         (* thrown by the JavaScript runtime or by [path] *)
  | ENOENT (p : string)              (* [fs.copySync] on a missing source *)
  | ENOTDIR (p : string)             (* [fs.copySync] on a source below a file *)
  | MissingPath.                     (* [fs.removeSync] called without a path *)

(** What makes the runtime throw a [TypeError] in [run]; the environment
    words the message. *)
Inductive fault : Type :=
  | NotAString (v : jsval)                   (* [path.join] given [v] *)
  | NoProperty (v : jsval) (name : string)   (* [v.name] with [v] undefined or null *)
  | NotAFunction (v : jsval) (name : string). (* [v.name(...)] where [v.name] is undefined *)

(** ** Option merging (lines 78-93) *)

(** The customizer handed to [_.assign]. *)
Definition customizer (lastValue nextValue : jsval) : jsval :=
  if truthy nextValue then nextValue else lastValue.

(** One source of lodash 3's [_.assign(object, source, customizer)]:
    every own key of [source] is visited and [object[key]] becomes
    [customizer(object[key], source[key])]; keys absent from [source]
    are left alone.  The keys are independent of each other, so the loop
    is a pointwise merge. *)
Definition assign_with (f : jsval -> jsval -> jsval) (obj src : object) : object :=
  merge (fun o s =>
           match s with
           | None => o
           | Some next => Some (f (default JUndef o) next)
           end) obj src.

(** The built-in defaults of [options]. *)
Definition default_options : object :=
  <["deploymentFiles" := JArr []]>
  (<["excludeLinks" := JArr [JStr "sites/default/files"]]>
  (<["addLinks" := JArr []]>
  (<["delPatterns" := JArr [JStr "*"; JStr "!.git"]]> ∅))).

(** [_.assign(options, AquiferGitConfig, commandOptions, customizer)] *)
Definition merge_options (config commandOptions : object) : object :=
  assign_with customizer (assign_with customizer default_options config) commandOptions.

(** ** Node's [path] module (POSIX flavour) *)

Definition slash : ascii := "/"%char.

(** [s.split('/')] *)
Fixpoint split_slash (s : string) : list string :=
  match s with
  | EmptyString => [EmptyString]
  | String a r =>
      if Ascii.eqb a slash then EmptyString :: split_slash r
      else match split_slash r with
           | [] => [String a EmptyString]
           | h :: t => String a h :: t
           end
  end.

(** [parts.join('/')] *)
Fixpoint join_slash (parts : list string) : string :=
  match parts with
  | [] => EmptyString
  | [p] => p
  | p :: r => p +:+ "/" +:+ join_slash r
  end.

(** [normalizeArray]: the result stack [res] is kept reversed. *)
Fixpoint normalizeArray_go (allowAboveRoot : bool) (res parts : list string)
  : list string :=
  match parts with
  | [] => rev res
  | p :: parts' =>
      if String.eqb p EmptyString || String.eqb p "." then
        normalizeArray_go allowAboveRoot res parts'
      else if String.eqb p ".." then
        match res with
        | top :: res' =>
            if String.eqb top ".." then
              normalizeArray_go allowAboveRoot
                (if allowAboveRoot then ".." :: res else res) parts'
            else normalizeArray_go allowAboveRoot res' parts'
        | [] =>
            normalizeArray_go allowAboveRoot
              (if allowAboveRoot then [".."] else []) parts'
        end
      else normalizeArray_go allowAboveRoot (p :: res) parts'
  end.

Definition normalizeArray (parts : list string) (allowAboveRoot : bool) : list string :=
  normalizeArray_go allowAboveRoot [] parts.

Definition isAbsolute (p : string) : bool :=
  match p with
  | String a _ => Ascii.eqb a slash
  | EmptyString => false
  end.

Fixpoint ends_with_slash (p : string) : bool :=
  match p with
  | EmptyString => false
  | String a EmptyString => Ascii.eqb a slash
  | String _ r => ends_with_slash r
  end.

(** [path.normalize] *)
Definition normalize (p : string) : string :=
  let abs := isAbsolute p in
  let trailingSlash := ends_with_slash p in
  let body := join_slash (normalizeArray (split_slash p) (negb abs)) in
  let body := if String.eqb body EmptyString && negb abs then "." else body in
  let body := if negb (String.eqb body EmptyString) && trailingSlash
              then body +:+ "/" else body in
  (if abs then "/" else EmptyString) +:+ body.

(** The loop of [path.join]: non-empty segments are glued with a slash;
    a segment that is not a string makes [path.join] throw a [TypeError],
    worded by [text]. *)
Fixpoint join_args (text : fault -> string) (acc : string) (args : list jsval)
  : error + string :=
  match args with
  | [] => inr acc
  | JStr seg :: args' =>
      if String.eqb seg EmptyString then join_args text acc args'
      else if String.eqb acc EmptyString then join_args text seg args'
      else join_args text (acc +:+ "/" +:+ seg) args'
  | v :: _ => inl (TypeError (text (NotAString v)))
  end.

(** [path.join(...args)] *)
Definition path_join (text : fault -> string) (args : list jsval) : error + string :=
  match join_args text EmptyString args with
  | inl e => inl e
  | inr p => inr (normalize p)
  end.

(** ** The file system *)

(** A location is the list of its segments below the root. *)
Abbreviation location := (list string).

Inductive entry : Type :=
  | File (content : string)
  | Dir.

(** The file system maps a location to what is stored there.  Only the
    entries the pipeline can observe are modelled: a directory and
    everything below it are the locations it is a prefix of. *)
Definition FS : Type := location -> option entry.

(** How the operating system resolves a path string against the current
    working directory. *)
Definition resolve (cwd : location) (p : string) : location :=
  if isAbsolute p then normalizeArray (split_slash p) false
  else normalizeArray (cwd ++ split_slash p) false.

(** [strip_prefix d q = Some r] exactly when [q = d ++ r]. *)
Fixpoint strip_prefix (d q : location) : option location :=
  match d, q with
  | [], _ => Some q
  | _ :: _, [] => None
  | x :: d', y :: q' => if String.eqb x y then strip_prefix d' q' else None
  end.

Definition below (d q : location) : bool :=
  match strip_prefix d q with Some _ => true | None => false end.

(** A file system from which the location [d] and all it contains are
    gone. *)
Definition fs_remove (d : location) (m : FS) : FS :=
  fun q => if below d q then None else m q.

(** A file system in which every entry at or below [s] is also written
    at the same place below [d], replacing what was there. *)
Definition fs_copy (s d : location) (m : FS) : FS :=
  fun q =>
    match strip_prefix d q with
    | Some r => match m (s ++ r) with
                | Some e => Some e
                | None => m q
                end
    | None => m q
    end.

(** Some directory the location has to be reached through is a file. *)
Definition crosses_file (m : FS) (l : location) : bool :=
  existsb (fun k => match m (take k l) with
                    | Some (File _) => true
                    | _ => false
                    end) (seq 0 (length l)).

(** A letter, a digit, [-], [_] or [.]: a character that neither
    separates path segments nor means anything to a glob pattern. *)
Definition ordinary (c : ascii) : bool :=
  let n := nat_of_ascii c in
  ((48 <=? n) && (n <=? 57) || (65 <=? n) && (n <=? 90) || (97 <=? n) && (n <=? 122)
   || (n =? 45) || (n =? 95) || (n =? 46))%nat.

Fixpoint all_ordinary (s : string) : bool :=
  match s with
  | EmptyString => true
  | String c r => ordinary c && all_ordinary r
  end.

(** A plain name: one path segment made of ordinary characters, other
    than [.] and [..].  As a path it names an entry of the current
    directory. *)
Definition plain (p : string) : bool :=
  all_ordinary p
  && negb (String.eqb p EmptyString || String.eqb p "." || String.eqb p "..").

(** The effect of a successful [mktemp.createDir]. *)
Definition fs_mkdir (d : location) (m : FS) : FS :=
  fun q => if decide (q = d) then Some Dir else m q.

(** ** [mktemp] *)

Definition letter_X : ascii := "X"%char.

Fixpoint all_X (s : string) : bool :=
  match s with
  | EmptyString => true
  | String a r => Ascii.eqb a letter_X && all_X r
  end.

(** The template without the run of [X] that ends it. *)
Fixpoint stem (template : string) : string :=
  match template with
  | EmptyString => EmptyString
  | String a r =>
      if Ascii.eqb a letter_X && all_X r then EmptyString
      else String a (stem r)
  end.

(** The characters [mktemp] draws from: the digits and the letters. *)
Definition table : list ascii :=
  list_ascii_of_string "0123456789ABCDEFGHIJKLMNOPQRSTUVWXYZabcdefghijklmnopqrstuvwxyz".

Definition table_char (n : nat) : ascii := nth (n mod 62) table "0"%char.

(** [n] characters of the table, one for each number drawn (a missing
    number counts as 0). *)
Fixpoint random_string (n : nat) (draws : list nat) : string :=
  match n with
  | 0 => EmptyString
  | S n' => String (table_char (hd 0 draws)) (random_string n' (tl draws))
  end.

(** The name [mktemp] generates: each [X] of the run that ends the
    template is replaced by a character of the table. *)
Definition fill (template : string) (draws : list nat) : string :=
  stem template
  +:+ random_string (String.length template - String.length (stem template)) draws.

(** ** Collaborators and observable events *)

(** [buildOptions] (lines 139-144) *)
Record build_options : Type := {
  symlink : bool;
  delPatterns : jsval;
  excludeLinks : jsval;
  addLinks : jsval
}.

(** Everything [AquiferGit.run] gets from outside.  The fallible
    collaborators are opaque: [createDir] answers with the numbers
    [mktemp] draws for the template or with a rejection reason; [invoke]
    ([run.invoke]) and [build_create] ([build.create]) answer with a
    rejection reason or with success, and may change the file system;
    so do [removeSync] and [copySync], which stand for [fs.removeSync]
    and [fs.copySync] where their behaviour is not certain.  [wording]
    is the text of the [TypeError]s of the runtime. *)
Record Env : Type := {
  projectDir : string;
  cwd : location;
  AquiferGitConfig : object;
  createDir : string -> FS -> error + list nat;
  invoke : string -> FS -> option error * FS;
  build_create : jsval -> build_options -> FS -> option error * FS;
  removeSync : string -> FS -> option error * FS;
  copySync : string -> string -> FS -> option error * FS;
  wording : fault -> string
}.

(** The place in the source a collaborator is called from. *)
Inductive step : Type :=
  | SCreate     (* line 114: mktemp.createDir *)
  | SClone      (* line 120 *)
  | SCheckout   (* line 125 *)
  | SBranch     (* line 131: checkout -b *)
  | SBuild      (* line 156 *)
  | SCopy       (* lines 165-166 *)
  | SIndex      (* line 173 *)
  | SStage      (* line 179 *)
  | SCommit     (* line 194 *)
  | SPush       (* line 200 *)
  | SCleanup    (* line 207 *)
  | SCatch.     (* line 219 *)

Inductive action : Type :=
  | ACreateDir (template : string)
  | AInvoke (commandLine : string)
  | ABuild (buildPath : jsval) (buildOptions : build_options)
  | ARemove (p : jsval)
  | ACopy (src dest : string).

(** What [callback] is called with: a message built by [run] itself, or
    the reason of a rejection, passed on as it is. *)
Inductive reported : Type :=
  | Message (text : string)
  | Raised (err : error).

(** An entry of the trace of a run.  A collaborator call is recorded
    with its outcome: [None] when it returned or resolved, [Some err]
    when it threw or rejected. *)
Inductive event : Type :=
  | ELog (message level : string)      (* Aquifer.console.log *)
  | ECallback (arg : reported)
  | EAct (s : step) (a : action) (r : option error).

(** The mutable state a run works on: the file system, and the variable
    [destPath] of line 87, [undefined] until line 119 assigns it. *)
Record state : Type := {
  fs : FS;
  destPath : jsval
}.

(** ** The promise chain as a monad *)

Record outcome (A : Type) : Type := {
  events : list event;
  result : error + A;
  final : state
}.
Arguments events {A} _.
Arguments result {A} _.
Arguments final {A} _.

Definition M (A : Type) : Type := state -> outcome A.

Definition ret {A} (a : A) : M A :=
  fun s => {| events := []; result := inr a; final := s |}.

Definition throw {A} (e : error) : M A :=
  fun s => {| events := []; result := inl e; final := s |}.

(** [.then]: the continuation runs only if the promise resolved. *)
Definition bind {A B} (m : M A) (k : A -> M B) : M B :=
  fun s =>
    let o := m s in
    match result o with
    | inl e => {| events := events o; result := inl e; final := final o |}
    | inr a =>
        let o' := k a (final o) in
        {| events := events o ++ events o'; result := result o'; final := final o' |}
    end.

(** [.catch]: the handler runs only if the promise was rejected. *)
Definition catch {A} (m : M A) (h : error -> M A) : M A :=
  fun s =>
    let o := m s in
    match result o with
    | inl e =>
        let o' := h e (final o) in
        {| events := events o ++ events o'; result := result o'; final := final o' |}
    | inr _ => o
    end.

#[global] Instance M_ret : MRet M := @ret.
#[global] Instance M_bind : MBind M := fun A B k m => bind m k.

Definition emit (e : event) : M unit :=
  fun s => {| events := [e]; result := inr tt; final := s |}.

(** A synchronous computation that may throw. *)
Definition eval {A} (r : error + A) : M A :=
  match r with
  | inl e => throw e
  | inr a => ret a
  end.

Definition read_destPath : M jsval :=
  fun s => {| events := []; result := inr (destPath s); final := s |}.

Definition write_destPath (v : jsval) : M unit :=
  fun s => {| events := []; result := inr tt;
              final := {| fs := fs s; destPath := v |} |}.

Definition dquote : string := String (ascii_of_nat 34) EmptyString.

(** [v.name] for a value [v] held in an array of the options: reading a
    property of [undefined] or [null] throws a [TypeError], worded by
    [text]. *)
Definition prop (text : fault -> string) (v : jsval) (name : string) : error + jsval :=
  match v with
  | JUndef | JNull => inl (TypeError (text (NoProperty v name)))
  | JObj fields => inr (field name fields)
  | JBool _ | JStr _ | JArr _ => inr JUndef
  end.

(** [xs.forEach(f)], stopped by the first exception. *)
Fixpoint forEach (f : jsval -> M unit) (xs : list jsval) : M unit :=
  match xs with
  | [] => ret tt
  | x :: xs' => f x ;; forEach f xs'
  end.

Section Run.

Context (E : Env).

(** *** Calls to the collaborators *)

Definition log (message level : string) : M unit := emit (ELog message level).

Definition callback (arg : reported) : M unit := emit (ECallback arg).

(** [mktemp.createDir(template)] *)
Definition mktemp_createDir (template : string) : M string :=
  fun s =>
    match createDir E template (fs s) with
    | inl e =>
        {| events := [EAct SCreate (ACreateDir template) (Some e)];
           result := inl e; final := s |}
    | inr draws =>
        let name := fill template draws in
        {| events := [EAct SCreate (ACreateDir template) None];
           result := inr name;
           final := {| fs := fs_mkdir (resolve (cwd E) name) (fs s);
                       destPath := destPath s |} |}
    end.

(** [run.invoke(commandLine)] *)
Definition run_invoke (st : step) (commandLine : string) : M unit :=
  fun s =>
    let r := invoke E commandLine (fs s) in
    {| events := [EAct st (AInvoke commandLine) (fst r)];
       result := match fst r with Some e => inl e | None => inr tt end;
       final := {| fs := snd r; destPath := destPath s |} |}.

(** [build.create(buildPath, buildOptions)] *)
Definition build_create_at (buildPath : jsval) (buildOptions : build_options) : M unit :=
  fun s =>
    let r := build_create E buildPath buildOptions (fs s) in
    {| events := [EAct SBuild (ABuild buildPath buildOptions) (fst r)];
       result := match fst r with Some e => inl e | None => inr tt end;
       final := {| fs := snd r; destPath := destPath s |} |}.

(** What [fs.removeSync(path)] answers and leaves on a non-empty path.
    A plain name is deleted with all it contains, and deleting what is
    absent is not an error.  Any other path is left to the environment:
    it may be expanded as a glob pattern, end in [.] or [..], or cross a
    file, and the call may throw. *)
Definition remove_outcome (path : string) (m : FS) : option error * FS :=
  if plain path then (None, fs_remove (resolve (cwd E) path) m)
  else removeSync E path m.

(** What [fs.copySync(src, dest, {clobber: true})] answers and leaves.
    It first looks at the source and throws when there is none; what it
    writes otherwise is left to the environment. *)
Definition copy_outcome (src dest : string) (m : FS) : option error * FS :=
  match m (resolve (cwd E) src) with
  | None =>
      (Some (if crosses_file m (resolve (cwd E) src) then ENOTDIR src else ENOENT src), m)
  | Some _ => copySync E src dest m
  end.

(** [fs.removeSync(p)].  fs-extra hands the argument to rimraf, which
    asserts that it is a non-empty string before touching the disk. *)
Definition fs_removeSync (st : step) (p : jsval) : M unit :=
  fun s =>
    match p with
    | JStr path =>
        if String.eqb path EmptyString then
          {| events := [EAct st (ARemove p) (Some MissingPath)];
             result := inl MissingPath; final := s |}
        else
          let r := remove_outcome path (fs s) in
          {| events := [EAct st (ARemove p) (fst r)];
             result := match fst r with Some e => inl e | None => inr tt end;
             final := {| fs := snd r; destPath := destPath s |} |}
    | _ =>
        {| events := [EAct st (ARemove p) (Some MissingPath)];
           result := inl MissingPath; final := s |}
    end.

(** [fs.copySync(src, dest, {clobber: true})] *)
Definition fs_copySync (st : step) (src dest : string) : M unit :=
  fun s =>
    let r := copy_outcome src dest (fs s) in
    {| events := [EAct st (ACopy src dest) (fst r)];
       result := match fst r with Some e => inl e | None => inr tt end;
       final := {| fs := snd r; destPath := destPath s |} |}.

(** *** The steps of the chain (lines 114-214) *)

Section Chain.

Context (options : object).

(** ['git -C ' + path.join(Aquifer.projectDir, destPath)] *)
Definition git_C : M string :=
  d ← read_destPath;
  wd ← eval (path_join (wording E) [JStr (projectDir E); d]);
  mret ("git -C " +:+ wd).

(** Lines 117-121. *)
Definition clone_step (destPath_ : string) : M unit :=
  log ("Cloning the repository into " +:+ destPath_ +:+ "...") "status";;
  write_destPath (JStr destPath_);;
  d ← read_destPath;
  run_invoke SClone
    ("git clone " +:+ to_string (get options "remote") +:+ " " +:+ to_string d).

(** Lines 124-133. *)
Definition checkout_step : M unit :=
  git ← git_C;
  catch
    (run_invoke SCheckout (git +:+ " checkout " +:+ to_string (get options "branch"));;
     log ("Checking out branch: " +:+ to_string (get options "branch") +:+ "...") "status")
    (fun _ =>
       log ("Creating new branch: " +:+ to_string (get options "branch") +:+ "...") "status";;
       git' ← git_C;
       run_invoke SBranch (git' +:+ " checkout -b " +:+ to_string (get options "branch"))).

(** Lines 136-157. *)
Definition build_step : M unit :=
  log "Building the site..." "status";;
  let buildOptions :=
    {| symlink := false;
       delPatterns := get options "delPatterns";
       excludeLinks := get options "excludeLinks";
       addLinks := get options "addLinks" |} in
  d ← read_destPath;
  buildPath ←
    (if truthy (get options "folder")
     then p ← eval (path_join (wording E) [d; get options "folder"]); mret (JStr p)
     else mret d);
  build_create_at buildPath buildOptions.

(** The body of the loop of lines 162-167. *)
Definition copy_link (link : jsval) : M unit :=
  link_src ← eval (prop (wording E) link "src");
  src ← eval (path_join (wording E) [JStr (projectDir E); link_src]);
  d ← read_destPath;
  link_dest ← eval (prop (wording E) link "dest");
  dest ← eval (path_join (wording E) [d; link_dest]);
  fs_removeSync SCopy (JStr dest);;
  fs_copySync SCopy src dest.

(** [options.deploymentFiles.forEach(...)] *)
Definition copy_files : M unit :=
  match get options "deploymentFiles" with
  | JArr links => forEach copy_link links
  | (JUndef | JNull) as v => throw (TypeError (wording E (NoProperty v "forEach")))
  | v => throw (TypeError (wording E (NotAFunction v "forEach")))
  end.

(** Lines 160-168. *)
Definition copy_step : M unit :=
  log "Copying deployment files..." "status";;
  copy_files.

(** Lines 171-174. *)
Definition index_step : M unit :=
  log "Clearing the index..." "status";;
  d ← read_destPath;
  p ← eval (path_join (wording E) [JStr (projectDir E); d; JStr ".git/index"]);
  fs_removeSync SIndex (JStr p).

(** Lines 177-180. *)
Definition stage_step : M unit :=
  log "Adding all files to the index..." "status";;
  git ← git_C;
  run_invoke SStage (git +:+ " add -A").

(** The text appended to the commit command for the signature
    (lines 189-192); [options.email || ''] is written back to
    [options], which nothing reads afterwards. *)
Definition author_flag : string :=
  if truthy (get options "name") then
    " --author " +:+ dquote +:+ to_string (get options "name") +:+ " <" +:+
    to_string (js_or (get options "email") (JStr EmptyString)) +:+ ">" +:+ dquote
  else EmptyString.

(** The command line of line 186 followed by the signature. *)
Definition commit_command (git : string) : string :=
  git +:+ " commit -m " +:+ dquote +:+ to_string (get options "message") +:+ dquote
    +:+ author_flag.

(** Lines 183-195. *)
Definition commit_step : M unit :=
  log "Committing changes..." "status";;
  git ← git_C;
  run_invoke SCommit (commit_command git).

(** Lines 198-201. *)
Definition push_step : M unit :=
  log ("Pushing branch: " +:+ to_string (get options "branch") +:+ "...") "status";;
  git ← git_C;
  run_invoke SPush (git +:+ " push origin " +:+ to_string (get options "branch")).

(** Lines 204-209. *)
Definition cleanup_step : M unit :=
  if negb (truthy (get options "debug")) then
    d ← read_destPath;
    log ("Removing the " +:+ to_string d +:+ " directory...") "status";;
    fs_removeSync SCleanup d
  else mret tt.

(** Lines 212-214. *)
Definition success_step : M unit :=
  log "The site has been successfully deployed!" "success".

(** The chain of lines 114-214, before the final [.catch]. *)
Definition chain : M unit :=
  destPath_ ← mktemp_createDir "aquifer-git-XXXXXXX";
  clone_step destPath_;;
  checkout_step;;
  build_step;;
  copy_step;;
  index_step;;
  stage_step;;
  commit_step;;
  push_step;;
  cleanup_step;;
  success_step.

(** The handler of lines 217-222. *)
Definition on_error (err : error) : M unit :=
  (if negb (truthy (get options "debug")) then
     d ← read_destPath;
     fs_removeSync SCatch d
   else mret tt);;
  callback (Raised err).

Definition pipeline : M unit := catch chain on_error.

End Chain.

(** *** Validation (lines 73-111) *)

Definition requiredOptions : list string := ["remote"; "branch"; "message"].

Definition missing_message (name : string) : string :=
  dquote +:+ name +:+ dquote +:+ " option is missing. Cannot deploy.".

(** The loop of lines 95-100; the result is [optionsMissing]. *)
Fixpoint check_required (options : object) (names : list string)
         (optionsMissing : bool) : M bool :=
  match names with
  | [] => mret optionsMissing
  | name :: names' =>
      if negb (truthy (get options name)) then
        callback (Message (missing_message name));;
        check_required options names' true
      else check_required options names' optionsMissing
  end.

Definition signature_message : string :=
  "Name is required for a custom commit signature if the email is provided.".

(** [AquiferGit.run(command, commandOptions, callback)].  Building the
    runner object of line 88 has no effect of its own and is left out. *)
Definition run (command : string) (commandOptions : object) : M unit :=
  if negb (String.eqb command "deploy-git") then
    callback (Message "Invalid command.")
  else
    let options := merge_options (AquiferGitConfig E) commandOptions in
    optionsMissing ← check_required options requiredOptions false;
    if (optionsMissing : bool) then mret tt
    else if truthy (get options "email") && negb (truthy (get options "name")) then
      callback (Message signature_message)
    else pipeline options.

(** The deploy-git command on a file system [m]. *)
Definition deploy (commandOptions : object) (m : FS) : outcome unit :=
  run "deploy-git" commandOptions {| fs := m; destPath := JUndef |}.

End Run.

(** * Vocabulary of the properties *)

(** [path.join] applied to strings only: the loop of [join_args] without
    the type test. *)
Definition join_strings (acc : string) (segs : list string) : string :=
  fold_left (fun acc seg =>
               if String.eqb seg EmptyString then acc
               else if String.eqb acc EmptyString then seg
               else acc +:+ "/" +:+ seg) segs acc.

Definition path_join_strings (segs : list string) : string :=
  normalize (join_strings EmptyString segs).

(** A state property that a computation never breaks, whatever its outcome. *)
Definition preserves {A} (I : state -> Prop) (m : M A) : Prop :=
  forall s, I s -> I (final (m s)).

(** The required options that are missing, in the order of the loop. *)
Definition missing (options : object) : list string :=
  List.filter (fun name => negb (truthy (get options name))) requiredOptions.

Definition missing_report (name : string) : event :=
  ECallback (Message (missing_message name)).

Definition is_callback (e : event) : Prop := exists arg, e = ECallback arg.

(** The arguments [callback] was called with, in order. *)
Definition callbacks (T : list event) : list reported :=
  omap (fun e => match e with ECallback arg => Some arg | _ => None end) T.

(** The state [run] starts from. *)
Definition initial (m : FS) : state := {| fs := m; destPath := JUndef |}.

(** * Sample inputs *)

Module Sample.

Definition empty_fs : FS := fun _ => None.

(** A wording of the runtime's messages. *)
Definition messages (f : fault) : string :=
  match f with
  | NotAString _ => "path must be a string"
  | NoProperty _ name => "cannot read property " +:+ name
  | NotAFunction _ name => name +:+ " is not a function"
  end.

(** File operations that take every path literally and never fail, in a
    process whose current directory is [/p]. *)
Definition literal_remove (path : string) (m : FS) : option error * FS :=
  (None, fs_remove (resolve ["p"] path) m).

Definition literal_copy (src dest : string) (m : FS) : option error * FS :=
  (None, fs_copy (resolve ["p"] src) (resolve ["p"] dest) m).

(** A project at [/p], entered at its root, in which every
    collaborator succeeds. *)
Definition all_ok : Env := {|
  projectDir := "/p";
  cwd := ["p"];
  AquiferGitConfig := ∅;
  createDir := fun _ _ => inr [36; 37; 38; 1; 2; 3; 4];
  invoke := fun _ m => (None, m);
  build_create := fun _ _ m => (None, m);
  removeSync := literal_remove;
  copySync := literal_copy;
  wording := messages
|}.

(** [{remote: 'repo.git', branch: 'gh-pages', message: 'deploy'}] *)
Definition basic : object :=
  <["remote" := JStr "repo.git"]>
  (<["branch" := JStr "gh-pages"]>
  (<["message" := JStr "deploy"]> ∅)).

(** Only the branch is given. *)
Definition branch_only : object := <["branch" := JStr "gh-pages"]> ∅.

(** An email without a name, and no remote. *)
Definition email_no_remote : object :=
  <["email" := JStr "ann@example.org"]>
  (<["branch" := JStr "gh-pages"]>
  (<["message" := JStr "deploy"]> ∅)).

(** An email without a name, all required options present. *)
Definition email_only : object := <["email" := JStr "ann@example.org"]> basic.

(** [mktemp] cannot create the directory. *)
Definition no_tmp : Env := {|
  projectDir := "/p";
  cwd := ["p"];
  AquiferGitConfig := ∅;
  createDir := fun _ _ => inl (ExtError "EACCES: permission denied, mkdir");
  invoke := fun _ m => (None, m);
  build_create := fun _ _ m => (None, m);
  removeSync := literal_remove;
  copySync := literal_copy;
  wording := messages
|}.

(** The target branch does not exist and cannot be created. *)
Definition no_branch : Env := {|
  projectDir := "/p";
  cwd := ["p"];
  AquiferGitConfig := ∅;
  createDir := fun _ _ => inr [36; 37; 38; 1; 2; 3; 4];
  invoke := fun commandLine m =>
    if String.eqb commandLine "git -C /p/aquifer-git-abc1234 checkout gh-pages"
    then (Some (ExtError "error: pathspec 'gh-pages' did not match"), m)
    else if String.eqb commandLine "git -C /p/aquifer-git-abc1234 checkout -b gh-pages"
    then (Some (ExtError "fatal: cannot lock ref"), m)
    else (None, m);
  build_create := fun _ _ m => (None, m);
  removeSync := literal_remove;
  copySync := literal_copy;
  wording := messages
|}.

(** A name for the signature, no email. *)
Definition named : object := <["name" := JStr "Ann"]> basic.

(** A name and an email for the signature. *)
Definition signed : object := <["email" := JStr "ann@example.org"]> named.

(** [debug] set. *)
Definition debugging : object := <["debug" := JBool true]> basic.

(** [debug] set, and one deployment file whose destination is the
    workspace itself and whose source does not exist. *)
Definition wipe : object :=
  <["deploymentFiles" := JArr [JObj [("src", JStr "missing"); ("dest", JStr ".")]]]>
  debugging.

(** Two deployment files, the destination of the second being the
    source of the first: [b] goes to [c], then [a] goes to [b]. *)
Definition chained : object :=
  <["deploymentFiles" :=
      JArr [JObj [("src", JStr "b"); ("dest", JStr "../c")];
            JObj [("src", JStr "a"); ("dest", JStr "../b")]]]>
  basic.

(** A project that holds the files [a] and [b] next to the workspace. *)
Definition two_files : FS := fun q =>
  if decide (q = ["p"; "a"]) then Some (File "A")
  else if decide (q = ["p"; "b"]) then Some (File "B")
  else if decide (q = ["p"; "aquifer-git-abc1234"]) then Some Dir
  else None.

(** A project at [/p] that holds the files [a] and [b] and the
    workspace. *)
Definition project : FS := fun q =>
  if decide (q = []) then Some Dir
  else if decide (q = ["p"]) then Some Dir
  else if decide (q = ["p"; "a"]) then Some (File "A")
  else if decide (q = ["p"; "b"]) then Some (File "B")
  else if decide (q = ["p"; "aquifer-git-abc1234"]) then Some Dir
  else None.

(** Two deployment files copied from the project into the workspace. *)
Definition two_links : object :=
  <["deploymentFiles" :=
      JArr [JObj [("src", JStr "a"); ("dest", JStr "a")];
            JObj [("src", JStr "b"); ("dest", JStr "docs")]]]>
  basic.

(** One deployment file copied from the project into the workspace. *)
Definition one_file : object :=
  <["deploymentFiles" := JArr [JObj [("src", JStr "a"); ("dest", JStr "a")]]]> basic.

(** [debug] set, and that deployment file. *)
Definition debugging_one_file : object := <["debug" := JBool true]> one_file.

(** A static configuration that sets the commit message and [debug]. *)
Definition configured : Env := {|
  projectDir := "/p";
  cwd := ["p"];
  AquiferGitConfig :=
    <["message" := JStr "Release"]> (<["debug" := JBool true]> ∅);
  createDir := fun _ _ => inr [36; 37; 38; 1; 2; 3; 4];
  invoke := fun _ m => (None, m);
  build_create := fun _ _ m => (None, m);
  removeSync := literal_remove;
  copySync := literal_copy;
  wording := messages
|}.

(** What the command line holds when only the remote and the branch are
    given: every other option has its declared default. *)
Definition flags_defaulted : object :=
  <["remote" := JStr "repo.git"]>
  (<["branch" := JStr "gh-pages"]>
  (<["message" := JStr "Deployment from source repository."]>
  (<["folder" := JBool false]>
  (<["name" := JBool false]>
  (<["email" := JBool false]>
  (<["debug" := JBool false]> ∅)))))).

(** The build goes to the subfolder [docs]. *)
Definition in_folder : object := <["folder" := JStr "docs"]> basic.

(** A folder that is not a string. *)
Definition bad_folder : object := <["folder" := JBool true]> basic.

End Sample.


(** * The trace grammar of the chain *)

(** The two paths the loop body computes for a link (lines 163-164), or
    the exception raised while computing them. *)
Definition link_strings (E : Env) (d : string) (link : jsval) : error + (string * string) :=
  match prop (wording E) link "src" with
  | inl e => inl e
  | inr link_src =>
      match path_join (wording E) [JStr (projectDir E); link_src] with
      | inl e => inl e
      | inr src =>
          match prop (wording E) link "dest" with
          | inl e => inl e
          | inr link_dest =>
              match path_join (wording E) [JStr d; link_dest] with
              | inl e => inl e
              | inr dest => inr (src, dest)
              end
          end
      end
  end.

(** The links the copy step goes through. *)
Definition deployment_links (options : object) : list jsval :=
  match get options "deploymentFiles" with
  | JArr links => links
  | _ => []
  end.


(** The outcome of a step as recorded in the trace. *)
Definition failure {A} (r : error + A) : option error :=
  match r with
  | inl e => Some e
  | inr _ => None
  end.

(** A stage is described by the trace segments it can emit, each with
    the outcome it then has ([None]: the chain goes on). *)
Definition segment : Type := list event -> option error -> Prop.

(** The trace and result of stages run in order until one fails. *)
Inductive seq_shape : list segment -> list event -> error + unit -> Prop :=
  | seq_done : seq_shape [] [] (inr tt)
  | seq_fail seg segs t e :
      seg t (Some e) -> seq_shape (seg :: segs) t (inl e)
  | seq_next seg segs t T res :
      seg t None -> seq_shape segs T res -> seq_shape (seg :: segs) (t ++ T) res.

Definition stage_sat (I : state -> Prop) (m : M unit) (seg : segment) : Prop :=
  forall s, I s -> seg (events (m s)) (failure (result (m s))) /\ I (final (m s)).

Definition seq_sat (I : state -> Prop) (m : M unit) (segs : list segment) : Prop :=
  forall s, I s -> seq_shape segs (events (m s)) (result (m s)) /\ I (final (m s)).

Section Segments.

Context (E : Env) (options : object) (d : string).

Definition status (message : string) : event := ELog message "status".

(** [path.join(Aquifer.projectDir, destPath)] once [destPath] is [d]. *)
Definition workdir : string := path_join_strings [projectDir E; d].

Definition git : string := "git -C " +:+ workdir.

Definition branch : string := to_string (get options "branch").

Definition clone_command : string :=
  "git clone " +:+ to_string (get options "remote") +:+ " " +:+ d.
Definition checkout_command : string := git +:+ " checkout " +:+ branch.
Definition branch_command : string := git +:+ " checkout -b " +:+ branch.
Definition stage_command : string := git +:+ " add -A".
Definition push_command : string := git +:+ " push origin " +:+ branch.
Definition index_path : string := path_join_strings [projectDir E; d; ".git/index"].

Definition cloning_message : string := "Cloning the repository into " +:+ d +:+ "...".
Definition checking_out_message : string := "Checking out branch: " +:+ branch +:+ "...".
Definition creating_message : string := "Creating new branch: " +:+ branch +:+ "...".
Definition pushing_message : string := "Pushing branch: " +:+ branch +:+ "...".
Definition removing_message : string := "Removing the " +:+ d +:+ " directory...".
Definition success_message : string := "The site has been successfully deployed!".

Definition the_build_options : build_options :=
  {| symlink := false;
     delPatterns := get options "delPatterns";
     excludeLinks := get options "excludeLinks";
     addLinks := get options "addLinks" |}.

(** [buildPath] of lines 147-152. *)
Definition build_path : error + jsval :=
  if truthy (get options "folder") then
    match path_join (wording E) [JStr d; get options "folder"] with
    | inl e => inl e
    | inr p => inr (JStr p)
    end
  else inr (JStr d).

(** A call of the loop of lines 162-167: for one of the links, the
    removal of its destination or the copy of its source to its
    destination. *)
Definition is_copy_action (e : event) : Prop :=
  exists a r, e = EAct SCopy a r /\
    exists link src dest,
      In link (deployment_links options)
      /\ link_strings E d link = inr (src, dest)
      /\ (a = ARemove (JStr dest) \/ a = ACopy src dest).

Definition clone_seg : segment := fun t r =>
  t = [status cloning_message; EAct SClone (AInvoke clone_command) r].

Definition checkout_seg : segment := fun t r =>
  (r = None /\
   t = [EAct SCheckout (AInvoke checkout_command) None; status checking_out_message])
  \/ (exists e1,
       t = [EAct SCheckout (AInvoke checkout_command) (Some e1);
            status creating_message;
            EAct SBranch (AInvoke branch_command) r]).

Definition build_seg : segment := fun t r =>
  (exists bp, build_path = inr bp /\
     t = [status "Building the site..."; EAct SBuild (ABuild bp the_build_options) r])
  \/ (exists e, build_path = inl e /\ r = Some e /\ t = [status "Building the site..."]).

Definition copy_seg : segment := fun t r =>
  exists t', t = status "Copying deployment files..." :: t' /\ Forall is_copy_action t'.

Definition index_seg : segment := fun t r =>
  t = [status "Clearing the index..."; EAct SIndex (ARemove (JStr index_path)) r].

Definition stage_seg : segment := fun t r =>
  t = [status "Adding all files to the index..."; EAct SStage (AInvoke stage_command) r].

Definition commit_seg : segment := fun t r =>
  t = [status "Committing changes...";
       EAct SCommit (AInvoke (commit_command options git)) r].

Definition push_seg : segment := fun t r =>
  t = [status pushing_message; EAct SPush (AInvoke push_command) r].

Definition cleanup_seg : segment := fun t r =>
  r = None /\
  t = if truthy (get options "debug") then []
      else [status removing_message; EAct SCleanup (ARemove (JStr d)) None].

Definition success_seg : segment := fun t r =>
  r = None /\ t = [ELog success_message "success"].

(** The stages that follow the creation of the workspace. *)
Definition stages : list segment :=
  [clone_seg; checkout_seg; build_seg; copy_seg; index_seg; stage_seg;
   commit_seg; push_seg; cleanup_seg; success_seg].

(** The steps that follow the clone, as one computation. *)
Definition after_clone : M unit :=
  checkout_step E options;;
  build_step E options;;
  copy_step E options;;
  index_step E;;
  stage_step E;;
  commit_step E options;;
  push_step E options;;
  cleanup_step E options;;
  success_step.

(** The state invariant of the chain once line 119 has run. *)
Definition at_workspace (s : state) : Prop := destPath s = JStr d.

End Segments.




(** The outcome of a step that emits [pre] and then runs one command
    line, in a state whose [destPath] is [d]. *)
Definition invoked (E : Env) (d : string) (st : step) (commandLine : string)
           (pre : list event) (m : FS) : outcome unit :=
  let r := invoke E commandLine m in
  {| events := pre ++ [EAct st (AInvoke commandLine) (fst r)];
     result := match fst r with Some e => inl e | None => inr tt end;
     final := {| fs := snd r; destPath := JStr d |} |}.

(** The template of line 114. *)
Definition template : string := "aquifer-git-XXXXXXX".

(** The name of the workspace of a run started on the file system [m]
    (the empty string when [mktemp] rejects and there is none). *)
Definition workspace_name (E : Env) (m : FS) : string :=
  match createDir E template m with
  | inr draws => fill template draws
  | inl _ => EmptyString
  end.

(** Where the workspace is on the file system. *)
Definition workspace (E : Env) (m : FS) : location :=
  resolve (cwd E) (workspace_name E m).

(** What the handler of lines 217-222 adds to the trace when the chain
    was rejected with [err] and [destPath] holds [v]: [undefined], or
    the plain name of the workspace. *)
Definition handler_events (options : object) (v : jsval) (err : error) : list event :=
  if truthy (get options "debug") then [ECallback (Raised err)]
  else match v with
       | JStr p =>
           if String.eqb p EmptyString
           then [EAct SCatch (ARemove v) (Some MissingPath)]
           else [EAct SCatch (ARemove v) None; ECallback (Raised err)]
       | _ => [EAct SCatch (ARemove v) (Some MissingPath)]
       end.

Definition step_eqb (a b : step) : bool :=
  match a, b with
  | SCreate, SCreate | SClone, SClone | SCheckout, SCheckout | SBranch, SBranch
  | SBuild, SBuild | SCopy, SCopy | SIndex, SIndex | SStage, SStage
  | SCommit, SCommit | SPush, SPush | SCleanup, SCleanup | SCatch, SCatch => true
  | _, _ => false
  end.

(** How many times the collaborator call of step [st] was made. *)
Fixpoint count_step (st : step) (T : list event) : nat :=
  match T with
  | [] => 0
  | EAct s _ _ :: T' => (if step_eqb s st then 1 else 0) + count_step st T'
  | _ :: T' => count_step st T'
  end.

Definition not_callback (e : event) : Prop :=
  match e with
  | ECallback _ => False
  | _ => True
  end.

(** Neither the checkout nor the creation of the branch. *)
Definition past_checkout (e : event) : Prop :=
  match e with
  | EAct SCheckout _ _ | EAct SBranch _ _ => False
  | _ => True
  end.


(** * Vocabulary of the ordering properties *)

(** The status message that announces a step ([None] for the two calls
    that have none: the creation of the workspace and the removal made
    by the handler). *)
Definition step_status (options : object) (d : string) (s : step) : option string :=
  match s with
  | SCreate | SCatch => None
  | SClone => Some (cloning_message d)
  | SCheckout => Some (checking_out_message options)
  | SBranch => Some (creating_message options)
  | SBuild => Some "Building the site..."
  | SCopy => Some "Copying deployment files..."
  | SIndex => Some "Clearing the index..."
  | SStage => Some "Adding all files to the index..."
  | SCommit => Some "Committing changes..."
  | SPush => Some (pushing_message options)
  | SCleanup => Some (removing_message d)
  end.

Definition except_checkout (st : step -> option string) (s : step) : option string :=
  match s with
  | SCheckout => None
  | _ => st s
  end.

(** Whenever an event [e] occurs, every event of [wants e] has occurred
    before it. *)
Definition preceded_by (wants : event -> list event) (T : list event) : Prop :=
  forall T1 e T2 e',
    T = T1 ++ e :: T2 -> In e' (wants e) -> In e' T1.

(** The collaborator call of a step needs the status message of the step. *)
Definition wants_status (st : step -> option string) (e : event) : list event :=
  match e with
  | EAct s _ _ => match st s with Some msg => [status msg] | None => [] end
  | _ => []
  end.

(** Every collaborator call comes after the status message of its step. *)
Definition announced_before (st : step -> option string) (T : list event) : Prop :=
  preceded_by (wants_status st) T.

(** [preceded_by] as a scan of the trace from the left; [seen] holds the
    events passed so far, the latest first. *)
Fixpoint scan (wants : event -> list event) (seen T : list event) : Prop :=
  match T with
  | [] => True
  | e :: T' => (forall e', In e' (wants e) -> In e' seen) /\ scan wants (e :: seen) T'
  end.

(** The only thing a commit action may be. *)
Definition commits_with (commandLine : string) (e : event) : Prop :=
  match e with
  | EAct SCommit a _ => a = AInvoke commandLine
  | _ => True
  end.

(** Not a removal made for cleanup (line 207 or line 219). *)
Definition not_cleanup (e : event) : Prop :=
  match e with
  | EAct SCleanup _ _ | EAct SCatch _ _ => False
  | _ => True
  end.


(** A trace that satisfies [scan] whatever was seen before it. *)
Definition self_contained (wants : event -> list event) (t : list event) : Prop :=
  forall seen, scan wants seen t.


(** Not the status message of the checkout. *)
Definition other_than_checking_out (options : object) (e : event) : Prop :=
  e <> status (checking_out_message options).

(** Not the success message. *)
Definition not_success (e : event) : Prop :=
  match e with
  | ELog _ level => if String.eqb level "success" then False else True
  | _ => True
  end.

(** The stages before the success message. *)
Definition stages_before_success (E : Env) (options : object) (d : string) : list segment :=
  [clone_seg options d; checkout_seg E options d; build_seg E options d; copy_seg E options d;
   index_seg E d; stage_seg E d; commit_seg E options d; push_seg E options d;
   cleanup_seg options d].


(** * Vocabulary of the cleanup properties *)

(** What holds of the final state whenever the computation succeeds. *)
Definition ensures {A} (I : state -> Prop) (m : M A) (Q : state -> Prop) : Prop :=
  forall s, I s -> forall a, result (m s) = inr a -> Q (final (m s)).

(** Something is stored at a location. *)
Definition present (m : FS) (l : location) : Prop := m l <> None.

(** The external commands and the builder never delete what is at [ws]. *)
Definition env_keeps (E : Env) (ws : location) : Prop :=
  (forall commandLine m, present m ws -> present (snd (invoke E commandLine m)) ws)
  /\ (forall buildPath buildOptions m,
        present m ws -> present (snd (build_create E buildPath buildOptions m)) ws).

(** The file operations of the run never delete what is at [ws]: neither
    the removal of the index file, nor the removal of the destination
    of a deployment file, nor the copy of a deployment file. *)
Definition files_keep (E : Env) (options : object) (d : string) (ws : location) : Prop :=
  (forall m, present m ws -> present (snd (remove_outcome E (index_path E d) m)) ws)
  /\ forall link src dest,
       In link (deployment_links options) ->
       link_strings E d link = inr (src, dest) ->
       (forall m, present m ws -> present (snd (remove_outcome E dest m)) ws)
       /\ (forall m, present m ws -> present (snd (copy_outcome E src dest m)) ws).


(** * Vocabulary of the copy step *)

(** The two locations a link stands for, when its paths can be computed. *)
Definition link_locations (E : Env) (d : string) (link : jsval)
  : option (location * location) :=
  match link_strings E d link with
  | inr (src, dest) => Some (resolve (cwd E) src, resolve (cwd E) dest)
  | inl _ => None
  end.

(** Neither location is the other or lies below it. *)
Definition apart (a b : location) : Prop := below a b = false /\ below b a = false.

(** The source of every link of [srcs] is apart from the destination of
    every link of [ops]. *)
Definition sources_apart (E : Env) (d : string) (srcs ops : list jsval) : Prop :=
  forall l1 l2 S1 T1 S2 T2,
    In l1 srcs -> In l2 ops ->
    link_locations E d l1 = Some (S1, T1) ->
    link_locations E d l2 = Some (S2, T2) ->
    apart S1 T2.

(** Two file systems hold the same at the source of every link, below
    it and above it. *)
Definition same_sources (E : Env) (d : string) (links : list jsval) (m m' : FS) : Prop :=
  forall l S T q, In l links -> link_locations E d l = Some (S, T) ->
                  below S q = true \/ below q S = true ->
                  m q = m' q.

(** Every directory the location [T] is reached through exists. *)
Definition ready (m : FS) (T : location) : Prop :=
  forall k, k < length T -> m (take k T) = Some Dir.

(** Nothing is stored at or below [T]. *)
Definition cleared (m : FS) (T : location) : Prop := forall r, m (T ++ r) = None.

(** [fs-extra] takes the paths of the link literally: where the
    directories above the destination exist, [removeSync] deletes the
    destination and nothing else, and [copySync], which then finds no
    destination, writes a replica of the source there and nothing else. *)
Definition literal (E : Env) (d : string) (link : jsval) : Prop :=
  forall src dest,
    link_strings E d link = inr (src, dest) ->
    let S := resolve (cwd E) src in
    let T := resolve (cwd E) dest in
    (forall m, ready m T -> remove_outcome E dest m = (None, fs_remove T m))
    /\ (forall m, ready m T -> cleared m T -> m S <> None ->
          copy_outcome E src dest m = (None, fs_copy S T m)).

(** No destination lies strictly inside another. *)
Definition unnested (E : Env) (d : string) (links : list jsval) : Prop :=
  forall l1 l2 S1 T1 S2 T2,
    In l1 links -> In l2 links ->
    link_locations E d l1 = Some (S1, T1) ->
    link_locations E d l2 = Some (S2, T2) ->
    below T1 T2 = true -> T1 = T2.

(** The directories above every destination exist. *)
Definition destinations_ready (E : Env) (d : string) (links : list jsval) (m : FS) : Prop :=
  forall l S T, In l links -> link_locations E d l = Some (S, T) -> ready m T.

(** The state of the chain at the copy step. *)
Definition at_step (d : string) (m : FS) : state := {| fs := m; destPath := JStr d |}.




(** * The command metadata (lines 22-63) *)

(** One entry of [options] in the object [AquiferGit.commands] returns:
    the flag declaration, the default when one is declared, and the
    description. *)
Record option_spec : Type := {
  flag : string;
  default_value : option jsval;
  description : string
}.

Record command_spec : Type := {
  command_description : string;
  command_options : list (string * option_spec)
}.

(** [AquiferGit.commands()] *)
Definition commands : list (string * command_spec) :=
  [("deploy-git",
    {| command_description := "Deploys the site to a remote Git repository.";
       command_options :=
         [("remote",
           {| flag := "-r, --remote <remote>";
              default_value := None;
              description := "The repository to deploy to." |});
          ("branch",
           {| flag := "-b, --branch <branch>";
              default_value := None;
              description := "The branch to deploy to." |});
          ("message",
           {| flag := "-m, --message <message>";
              default_value := Some (JStr "Deployment from source repository.");
              description := "The message to use with the deployment commit." |});
          ("folder",
           {| flag := "-f, --folder <folder_name>";
              default_value := Some (JBool false);
              description := "Subfolder in remote repository that should hold the build." |});
          ("name",
           {| flag := "-n, --name <name>";
              default_value := Some (JBool false);
              description := "Name to use for the deployment commit signature." |});
          ("email",
           {| flag := "-a, --email <email>";
              default_value := Some (JBool false);
              description := "Email to use for the deployment commit signature." |});
          ("debug",
           {| flag := "-d, --debug";
              default_value := Some (JBool false);
              description := "Don't delete the temporary aquifer-git-* directory." |})] |})].

(** [commands()[command].options[name].default], [undefined] when the
    command, the option or the default is not declared. *)
Definition declared_default (command name : string) : jsval :=
  match find (fun kv => String.eqb (fst kv) command) commands with
  | Some (_, spec) =>
      match find (fun kv => String.eqb (fst kv) name) (command_options spec) with
      | Some (_, o) => default (JUndef) (default_value o)
      | None => JUndef
      end
  | None => JUndef
  end.

(** The names of the commands [commands()] declares. *)
Definition declared_commands : list string := fst <$> commands.

(** The names of the options [commands()] declares for a command. *)
Definition declared_options (command : string) : list string :=
  match find (fun kv => String.eqb (fst kv) command) commands with
  | Some (_, spec) => fst <$> command_options spec
  | None => []
  end.


(** Not a callback call with a message of [run]'s own. *)
Definition not_message (e : event) : Prop :=
  match e with
  | ECallback (Message _) => False
  | _ => True
  end.


(** * Vocabulary of the further properties *)

(** What a build action of a run is: the builder is called on the build
    path of lines 147-152 with the build options of lines 139-144. *)
Definition builds_as (E : Env) (options : object) (d : string) (e : event) : Prop :=
  match e with
  | EAct SBuild a _ =>
      exists bp, build_path E options d = inr bp /\ a = ABuild bp (the_build_options options)
  | _ => True
  end.

(** An event of a run that stops before the build: no call from the
    build on, and no success message. *)
Definition before_build (e : event) : Prop :=
  match e with
  | EAct s _ _ =>
      match s with
      | SCreate | SClone | SCheckout | SBranch | SCatch => True
      | _ => False
      end
  | ELog _ level => if String.eqb level "success" then False else True
  | ECallback _ => True
  end.

(** The command line of each step that calls [run.invoke] (lines 120,
    125, 131, 179, 186-194 and 200); no other step calls it. *)
Definition command_line (E : Env) (options : object) (d : string) (s : step)
  : option string :=
  match s with
  | SClone => Some (clone_command options d)
  | SCheckout => Some (checkout_command E options d)
  | SBranch => Some (branch_command E options d)
  | SStage => Some (stage_command E d)
  | SCommit => Some (commit_command options (git E d))
  | SPush => Some (push_command E options d)
  | _ => None
  end.

(** A call of [run.invoke] is made with the command line of its step. *)
Definition invokes_as (E : Env) (options : object) (d : string) (e : event) : Prop :=
  match e with
  | EAct s (AInvoke commandLine) _ => command_line E options d s = Some commandLine
  | _ => True
  end.


(** * Vocabulary of the loop over the deployment files *)

(** A call of the loop is made for a deployment file with a string
    [src] and a string [dest], on the paths the loop computes for it. *)
Definition copies_as (E : Env) (options : object) (d : string) (e : event) : Prop :=
  match e with
  | EAct SCopy a _ =>
      exists fields s t,
        In (JObj fields) (deployment_links options)
        /\ field "src" fields = JStr s
        /\ field "dest" fields = JStr t
        /\ (a = ARemove (JStr (path_join_strings [d; t]))
            \/ a = ACopy (path_join_strings [projectDir E; s]) (path_join_strings [d; t]))
  | _ => True
  end.

(** A link the loop body can compute both paths for: an object whose
    [src] and [dest] are strings. *)
Definition well_formed_link (link : jsval) : Prop :=
  exists fields s t,
    link = JObj fields /\ field "src" fields = JStr s /\ field "dest" fields = JStr t.


(** * Vocabulary of the successful run *)

(** Every external command and every build succeeds. *)
Definition cooperative (E : Env) : Prop :=
  (forall commandLine m, fst (invoke E commandLine m) = None)
  /\ (forall buildPath buildOptions m,
        fst (build_create E buildPath buildOptions m) = None).

(** The removal of the index file never throws. *)
Definition index_removable (E : Env) (d : string) : Prop :=
  forall m, fst (remove_outcome E (index_path E d) m) = None.

(** Started at the workspace [d], on any file system, the step emits
    [t], resolves and is still at the workspace. *)
Definition emits (d : string) (m : M unit) (t : list event) : Prop :=
  forall m0, exists m1,
    m (at_step d m0) = {| events := t; result := inr tt; final := at_step d m1 |}.

(** What a run does, in order, when nothing fails and no deployment file
    is configured; [bp] is the build path. *)
Definition success_trace (E : Env) (options : object) (d : string) (bp : jsval)
  : list event :=
  [EAct SCreate (ACreateDir template) None;
   status (cloning_message d);
   EAct SClone (AInvoke (clone_command options d)) None;
   EAct SCheckout (AInvoke (checkout_command E options d)) None;
   status (checking_out_message options);
   status "Building the site...";
   EAct SBuild (ABuild bp (the_build_options options)) None;
   status "Copying deployment files...";
   status "Clearing the index...";
   EAct SIndex (ARemove (JStr (index_path E d))) None;
   status "Adding all files to the index...";
   EAct SStage (AInvoke (stage_command E d)) None;
   status "Committing changes...";
   EAct SCommit (AInvoke (commit_command options (git E d))) None;
   status (pushing_message options);
   EAct SPush (AInvoke (push_command E options d)) None]
  ++ (if truthy (get options "debug") then []
      else [status (removing_message d); EAct SCleanup (ARemove (JStr d)) None])
  ++ [ELog success_message "success"].


(** * Vocabulary of failures *)

(** A collaborator call that threw or was rejected. *)
Definition failed (x : event) : Prop := exists s a e, x = EAct s a (Some e).

(** The first attempt to check out the branch (line 125), the one call
    whose rejection the chain recovers from. *)
Definition is_checkout (x : event) : Prop := exists a r, x = EAct SCheckout a r.

(** An event after which the chain may go on. *)
Definition harmless (x : event) : Prop := failed x -> is_checkout x.

(** What the handler of lines 217-222 can add to the trace. *)
Definition handler_event (x : event) : Prop :=
  is_callback x \/ exists p r, x = EAct SCatch (ARemove p) r.

(** A failed call, the first checkout apart, is the last thing the
    computation does, and the computation is then rejected. *)
Definition halts {A} (m : M A) : Prop :=
  forall s, exists T t,
    events (m s) = T ++ t
    /\ Forall harmless T
    /\ match result (m s) with
       | inr _ => t = []
       | inl _ => length t <= 1
       end.


(** * Vocabulary of the frame of a run *)

(** The external commands and the builder leave what is at [q] as it is. *)
Definition env_leaves (E : Env) (q : location) : Prop :=
  (forall commandLine m, snd (invoke E commandLine m) q = m q)
  /\ (forall buildPath buildOptions m,
        snd (build_create E buildPath buildOptions m) q = m q).

(** The file operations of the run leave what is at [q] as it is: the
    removal of the index file, and the removal and the copy made for
    each deployment file. *)
Definition files_leave (E : Env) (options : object) (d : string) (q : location) : Prop :=
  (forall m, snd (remove_outcome E (index_path E d) m) q = m q)
  /\ forall link src dest,
       In link (deployment_links options) ->
       link_strings E d link = inr (src, dest) ->
       (forall m, snd (remove_outcome E dest m) q = m q)
       /\ (forall m, snd (copy_outcome E src dest m) q = m q).


(** * Properties *)

(** ** Strings and paths *)

Lemma append_nonempty (a b : string) :
  String.eqb a EmptyString = false -> String.eqb (a +:+ b) EmptyString = false.
Proof. destruct a; simpl; [discriminate | reflexivity]. Qed.

Lemma append_empty_r (a : string) : a +:+ EmptyString = a.
Proof.
  induction a as [|c a IH]; [reflexivity |].
  change (String c (a +:+ EmptyString) = String c a). now f_equal.
Qed.

Lemma normalize_nonempty (p : string) : String.eqb (normalize p) EmptyString = false.
Proof.
  unfold normalize. destruct (isAbsolute p); [reflexivity |].
  cbn [negb]. rewrite andb_true_r.
  destruct (String.eqb (join_slash (normalizeArray (split_slash p) true)) EmptyString) eqn:Hb.
  - destruct (ends_with_slash p); reflexivity.
  - change (EmptyString +:+ ?x) with x. rewrite Hb. cbn [negb andb].
    destruct (ends_with_slash p); [now apply append_nonempty | exact Hb].
Qed.

Lemma path_join_nonempty text (args : list jsval) (p : string) :
  path_join text args = inr p -> String.eqb p EmptyString = false.
Proof.
  unfold path_join. destruct (join_args text EmptyString args); [discriminate |].
  intros [= <-]. apply normalize_nonempty.
Qed.

Lemma join_args_strings text (segs : list string) (acc : string) :
  join_args text acc (JStr <$> segs) = inr (join_strings acc segs).
Proof.
  revert acc. induction segs as [|seg segs IH]; intros acc; simpl; [reflexivity |].
  destruct (String.eqb seg EmptyString); [apply IH |].
  destruct (String.eqb acc EmptyString); apply IH.
Qed.

Lemma path_join_strings_eq text (segs : list string) :
  path_join text (JStr <$> segs) = inr (path_join_strings segs).
Proof. unfold path_join. now rewrite join_args_strings. Qed.

Lemma path_join_strings_nonempty (segs : list string) :
  String.eqb (path_join_strings segs) EmptyString = false.
Proof. apply normalize_nonempty. Qed.

Lemma path_join_2 text (a b : string) :
  path_join text [JStr a; JStr b] = inr (path_join_strings [a; b]).
Proof. exact (path_join_strings_eq text [a; b]). Qed.

Lemma path_join_3 text (a b c : string) :
  path_join text [JStr a; JStr b; JStr c] = inr (path_join_strings [a; b; c]).
Proof. exact (path_join_strings_eq text [a; b; c]). Qed.

(** A segment that is not a string makes [path.join] throw. *)
Lemma path_join_not_a_string text (a : string) (v : jsval) :
  (forall f, v <> JStr f) ->
  path_join text [JStr a; v] = inl (TypeError (text (NotAString v))).
Proof.
  intros Hns.
  destruct v as [| |b|f|xs|fields];
    try (unfold path_join; cbn; destruct (String.eqb a EmptyString); reflexivity).
  now destruct (Hns f).
Qed.

(** ** Plain names *)

Lemma plain_nonempty (p : string) : plain p = true -> String.eqb p EmptyString = false.
Proof.
  unfold plain. intros H. apply andb_true_iff in H as [_ H].
  apply negb_true_iff, orb_false_iff in H as [H _].
  apply orb_false_iff in H as [H _]. exact H.
Qed.

Lemma table_char_ordinary (n : nat) : ordinary (table_char n) = true.
Proof.
  unfold table_char.
  assert (Hall : forall c, In c table -> ordinary c = true).
  { apply (proj1 (forallb_forall ordinary table)). reflexivity. }
  destruct (nth_in_or_default (n mod 62) table "0"%char) as [Hin| ->];
    [exact (Hall _ Hin) | reflexivity].
Qed.

Lemma random_string_ordinary (n : nat) (draws : list nat) :
  all_ordinary (random_string n draws) = true.
Proof.
  revert draws. induction n as [|n IH]; intros draws; [reflexivity |].
  cbn [random_string all_ordinary]. now rewrite table_char_ordinary, IH.
Qed.

(** The name [mktemp] makes from the template of line 114 is a plain
    name. *)
Lemma fill_template_plain (draws : list nat) : plain (fill template draws) = true.
Proof.
  unfold fill.
  change (stem template) with "aquifer-git-".
  change (String.length template - String.length "aquifer-git-") with 7.
  pose proof (random_string_ordinary 7 draws) as Hr. unfold plain.
  change (all_ordinary ("aquifer-git-" +:+ random_string 7 draws))
    with (all_ordinary (random_string 7 draws)).
  rewrite Hr. reflexivity.
Qed.

Lemma fill_template_nonempty (draws : list nat) :
  String.eqb (fill template draws) EmptyString = false.
Proof. apply plain_nonempty, fill_template_plain. Qed.

(** ** Locations *)

Lemma strip_prefix_app (d r : location) : strip_prefix d (d ++ r) = Some r.
Proof.
  induction d as [|x d IH]; simpl; [reflexivity |].
  now rewrite String.eqb_refl.
Qed.

Lemma strip_prefix_Some (d q r : location) : strip_prefix d q = Some r -> q = d ++ r.
Proof.
  revert q. induction d as [|x d IH]; intros q; simpl.
  - now intros [= ->].
  - destruct q as [|y q]; [discriminate |].
    destruct (String.eqb x y) eqn:Hxy; [| discriminate].
    apply String.eqb_eq in Hxy. subst y. intros H. f_equal. now apply IH.
Qed.

Lemma below_refl (d : location) : below d d = true.
Proof. unfold below. rewrite <- (app_nil_r d) at 2. now rewrite strip_prefix_app. Qed.

Lemma below_app (d r : location) : below d (d ++ r) = true.
Proof. unfold below. now rewrite strip_prefix_app. Qed.

Lemma below_true (d q : location) : below d q = true -> exists r, q = d ++ r.
Proof.
  unfold below. destruct (strip_prefix d q) as [r|] eqn:H; [| discriminate].
  intros _. exists r. now apply strip_prefix_Some.
Qed.

(** Two prefixes of one location are comparable. *)
Lemma below_comparable (a b q : location) :
  below a q = true -> below b q = true -> below a b = true \/ below b a = true.
Proof.
  intros [ra ->]%below_true [rb Hb]%below_true.
  revert b rb Hb. induction a as [|x a IH]; intros b rb Hb.
  - left. reflexivity.
  - destruct b as [|y b]; [right; reflexivity |].
    simpl in Hb. injection Hb as -> Hb.
    destruct (IH b rb Hb) as [H|H]; [left | right];
      unfold below in *; simpl; now rewrite String.eqb_refl.
Qed.

(** ** The monad *)

Lemma bind_resolved {A B} (m : M A) (k : A -> M B) s t a s' :
  m s = {| events := t; result := inr a; final := s' |} ->
  bind m k s =
    {| events := t ++ events (k a s');
       result := result (k a s');
       final := final (k a s') |}.
Proof. intros H. unfold bind. now rewrite H. Qed.

Lemma bind_rejected {A B} (m : M A) (k : A -> M B) s t e s' :
  m s = {| events := t; result := inl e; final := s' |} ->
  bind m k s = {| events := t; result := inl e; final := s' |}.
Proof. intros H. unfold bind. now rewrite H. Qed.

Lemma catch_resolved {A} (m : M A) (h : error -> M A) s t a s' :
  m s = {| events := t; result := inr a; final := s' |} ->
  catch m h s = {| events := t; result := inr a; final := s' |}.
Proof. intros H. unfold catch. now rewrite H. Qed.

Lemma catch_rejected {A} (m : M A) (h : error -> M A) s t e s' :
  m s = {| events := t; result := inl e; final := s' |} ->
  catch m h s =
    {| events := t ++ events (h e s');
       result := result (h e s');
       final := final (h e s') |}.
Proof. intros H. unfold catch. now rewrite H. Qed.

Lemma preserves_bind {A B} I (m : M A) (k : A -> M B) :
  preserves I m -> (forall a, preserves I (k a)) -> preserves I (bind m k).
Proof.
  intros Hm Hk s Hs. unfold bind.
  destruct (result (m s)) as [e|a] eqn:Hr; simpl; [now apply Hm |].
  apply Hk. now apply Hm.
Qed.

Lemma preserves_catch {A} I (m : M A) (h : error -> M A) :
  preserves I m -> (forall e, preserves I (h e)) -> preserves I (catch m h).
Proof.
  intros Hm Hh s Hs. unfold catch.
  destruct (result (m s)) as [e|a] eqn:Hr; simpl; [| now apply Hm].
  apply Hh. now apply Hm.
Qed.

Lemma preserves_ret {A} I (a : A) : preserves I (ret a).
Proof. intros s Hs. exact Hs. Qed.

Lemma preserves_throw {A} I (e : error) : preserves I (@throw A e).
Proof. intros s Hs. exact Hs. Qed.

Lemma preserves_eval {A} I (r : error + A) : preserves I (eval r).
Proof. destruct r; [apply preserves_throw | apply preserves_ret]. Qed.

Lemma preserves_emit I (e : event) : preserves I (emit e).
Proof. intros s Hs. exact Hs. Qed.

Lemma preserves_read I : preserves I read_destPath.
Proof. intros s Hs. exact Hs. Qed.

Lemma preserves_forEach I (f : jsval -> M unit) (xs : list jsval) :
  (forall x, In x xs -> preserves I (f x)) -> preserves I (forEach f xs).
Proof.
  induction xs as [|x xs IH]; intros Hf; simpl; [apply preserves_ret |].
  apply preserves_bind; [apply Hf; now left |].
  intros _. apply IH. intros y Hy. apply Hf. now right.
Qed.

(** ** Option merging *)

(** Reading a property after one source has been assigned. *)
Lemma get_assign_with f obj src name :
  get (assign_with f obj src) name =
  match src !! name with
  | None => get obj name
  | Some next => f (get obj name) next
  end.
Proof.
  unfold get, assign_with. rewrite lookup_merge.
  destruct (obj !! name), (src !! name); reflexivity.
Qed.

Lemma get_merge_options (config commandOptions : object) (name : string) :
  get (merge_options config commandOptions) name =
    if truthy (get commandOptions name) then get commandOptions name
    else if truthy (get config name) then get config name
    else get default_options name.
Proof.
  unfold merge_options. rewrite !get_assign_with. unfold customizer, get.
  destruct (commandOptions !! name) as [c|], (config !! name) as [g|]; simpl;
    repeat match goal with |- context [truthy ?v] => destruct (truthy v) end;
    reflexivity.
Qed.

(** C10: merging is governed by truthiness.  The merged value of every
    option is the command-line value when that is truthy, otherwise the
    value of the static configuration when that is truthy, otherwise the
    built-in default; so a falsy value never replaces an earlier one, the
    four built-in defaults survive unless a truthy value replaces them,
    and a falsy command-line flag leaves a flag of the static
    configuration switched on. *)
Theorem merge_is_truthiness_based (config commandOptions : object) (name : string) :
  get (merge_options config commandOptions) name =
    (if truthy (get commandOptions name) then get commandOptions name
     else if truthy (get config name) then get config name
     else get default_options name)
  /\ get default_options "deploymentFiles" = JArr []
  /\ get default_options "excludeLinks" = JArr [JStr "sites/default/files"]
  /\ get default_options "addLinks" = JArr []
  /\ get default_options "delPatterns" = JArr [JStr "*"; JStr "!.git"]
  /\ (if truthy (get commandOptions name) then True
      else if truthy (get config name)
           then get (merge_options config commandOptions) name = get config name
           else get (merge_options config commandOptions) name = get default_options name).
Proof.
  split; [apply get_merge_options |].
  repeat (split; [reflexivity |]).
  rewrite !get_merge_options.
  destruct (truthy (get commandOptions name)); [exact I |].
  destruct (truthy (get config name)); reflexivity.
Qed.

(** ** Validation *)

Section Validation.

Context (E : Env).

Lemma check_required_outcome (options : object) (names : list string)
      (flag : bool) (s : state) :
  check_required options names flag s =
    {| events := missing_report <$>
                   List.filter (fun name => negb (truthy (get options name))) names;
       result := inr (flag || existsb (fun name => negb (truthy (get options name))) names);
       final := s |}.
Proof.
  revert flag. induction names as [|name names IH]; intros flag; simpl.
  - now rewrite orb_false_r.
  - destruct (negb (truthy (get options name))); simpl.
    + unfold mbind, M_bind, bind; simpl. rewrite IH; simpl.
      now rewrite orb_true_r.
    + apply IH.
Qed.

Lemma existsb_missing (options : object) :
  existsb (fun name => negb (truthy (get options name))) requiredOptions =
    match missing options with [] => false | _ :: _ => true end.
Proof.
  unfold missing. induction requiredOptions as [|n ns IH]; simpl; [reflexivity |].
  destruct (negb (truthy (get options n))); simpl; [reflexivity | exact IH].
Qed.

(** What [run] does when a required option is missing. *)
Lemma deploy_missing (commandOptions : object) (m : FS) :
  let options := merge_options (AquiferGitConfig E) commandOptions in
  missing options <> [] ->
  deploy E commandOptions m =
    {| events := missing_report <$> missing options;
       result := inr tt;
       final := initial m |}.
Proof.
  intros options Hm. unfold deploy, run.
  rewrite String.eqb_refl. cbn [negb]. fold options.
  unfold mbind, M_bind, bind. rewrite check_required_outcome.
  cbn [result events final orb]. rewrite existsb_missing. fold (missing options).
  destruct (missing options) eqn:Hmiss; [contradiction |].
  cbn [mret M_ret ret events result final]. now rewrite app_nil_r.
Qed.

(** What [run] does when the required options are there but an email
    comes without a name. *)
Lemma deploy_bad_signature (commandOptions : object) (m : FS) :
  let options := merge_options (AquiferGitConfig E) commandOptions in
  missing options = [] ->
  truthy (get options "email") = true ->
  truthy (get options "name") = false ->
  deploy E commandOptions m =
    {| events := [ECallback (Message signature_message)];
       result := inr tt;
       final := initial m |}.
Proof.
  intros options Hm He Hn. unfold deploy, run.
  rewrite String.eqb_refl. cbn [negb]. fold options.
  unfold mbind, M_bind, bind. rewrite check_required_outcome.
  cbn [result events final orb]. rewrite existsb_missing. fold (missing options).
  rewrite Hm, He, Hn. reflexivity.
Qed.

(** What [run] does when validation passes. *)
Lemma deploy_valid (commandOptions : object) (m : FS) :
  let options := merge_options (AquiferGitConfig E) commandOptions in
  missing options = [] ->
  truthy (get options "email") && negb (truthy (get options "name")) = false ->
  deploy E commandOptions m = pipeline E options (initial m).
Proof.
  intros options Hm Hs. unfold deploy, run.
  rewrite String.eqb_refl. cbn [negb]. fold options.
  unfold mbind, M_bind, bind. rewrite check_required_outcome.
  cbn [result events final orb]. rewrite existsb_missing. fold (missing options).
  rewrite Hm, Hs. cbn [fmap list_fmap app]. fold (initial m).
  destruct (pipeline E options (initial m)); reflexivity.
Qed.

Lemma missing_report_In (options : object) (name : string) :
  In name requiredOptions -> truthy (get options name) = false ->
  In (missing_report name) (missing_report <$> missing options).
Proof.
  intros Hin Hf. apply in_map. unfold missing. apply filter_In.
  split; [exact Hin | now rewrite Hf].
Qed.

Lemma missing_nonempty (options : object) (name : string) :
  In name requiredOptions -> truthy (get options name) = false ->
  missing options <> [].
Proof.
  intros Hin Hf Hnil. pose proof (missing_report_In options name Hin Hf) as H.
  now rewrite Hnil in H.
Qed.

Lemma Forall_missing_report (names : list string) :
  Forall is_callback (missing_report <$> names).
Proof.
  induction names as [|n ns IH]; constructor; [now eexists | exact IH].
Qed.

(** C4: when [remote], [branch] or [message] is falsy after merging,
    [deploy] reports each missing option through the callback and
    returns: the trace holds callback calls only (no temporary
    directory, no git command, no file operation) and the state is the
    one the run started from. *)
Theorem missing_option_no_side_effect (commandOptions : object) (m : FS) (name : string) :
  let options := merge_options (AquiferGitConfig E) commandOptions in
  let o := deploy E commandOptions m in
  In name requiredOptions ->
  truthy (get options name) = false ->
  In (ECallback (Message (missing_message name))) (events o)
  /\ Forall is_callback (events o)
  /\ result o = inr tt
  /\ final o = initial m.
Proof.
  intros options o Hin Hf. subst o options.
  rewrite deploy_missing by (now apply (missing_nonempty _ name)).
  cbn [events result final].
  split; [now apply missing_report_In |].
  split; [apply Forall_missing_report |]. split; reflexivity.
Qed.

(** C9: when more than one required option is missing, the callback is
    called once for each of them, in the order remote, branch, message,
    and nothing else happens before [run] returns. *)
Theorem one_callback_per_missing_option (commandOptions : object) (m : FS) :
  let options := merge_options (AquiferGitConfig E) commandOptions in
  let o := deploy E commandOptions m in
  1 < length (missing options) ->
  events o = missing_report <$> missing options
  /\ length (callbacks (events o)) = length (missing options)
  /\ result o = inr tt.
Proof.
  intros options o Hlen. subst o options.
  rewrite deploy_missing by (intros Hnil; rewrite Hnil in Hlen; simpl in Hlen; lia).
  cbn [events result]. split; [reflexivity |]. split; [| reflexivity].
  clear Hlen.
  induction (missing (merge_options (AquiferGitConfig E) commandOptions))
    as [|n ns IH]; [reflexivity |].
  cbn. now rewrite <- IH.
Qed.

(** C5, as the code has it: an email without a name makes [deploy]
    return before the workspace is created and before any other I/O
    (callback calls only, state untouched); the callback receives the
    signature message when the required options are all present, and
    the missing-option messages alone when one of them is missing. *)
Theorem email_without_name (commandOptions : object) (m : FS) :
  let options := merge_options (AquiferGitConfig E) commandOptions in
  let o := deploy E commandOptions m in
  truthy (get options "email") = true ->
  truthy (get options "name") = false ->
  Forall is_callback (events o)
  /\ events o <> []
  /\ result o = inr tt
  /\ final o = initial m
  /\ (missing options = [] -> events o = [ECallback (Message signature_message)])
  /\ (missing options <> [] -> events o = missing_report <$> missing options).
Proof.
  intros options o He Hn. subst o options.
  destruct (missing (merge_options (AquiferGitConfig E) commandOptions))
    as [|n ns] eqn:Hm.
  - rewrite deploy_bad_signature by assumption. cbn [events result final].
    split; [repeat constructor; now eexists |].
    split; [discriminate |]. repeat split; congruence.
  - rewrite deploy_missing by congruence. cbn [events result final].
    rewrite Hm.
    split; [apply Forall_missing_report |].
    split; [discriminate |]. repeat split; congruence.
Qed.

End Validation.

Lemma missing_option_no_side_effect_witness :
  let o := deploy Sample.all_ok Sample.branch_only Sample.empty_fs in
  In (ECallback (Message (missing_message "remote"))) (events o)
  /\ Forall is_callback (events o)
  /\ result o = inr tt
  /\ final o = initial Sample.empty_fs.
Proof.
  apply (missing_option_no_side_effect Sample.all_ok Sample.branch_only
           Sample.empty_fs "remote").
  - simpl. tauto.
  - vm_compute. reflexivity.
Defined.

Lemma one_callback_per_missing_option_witness :
  let o := deploy Sample.all_ok Sample.branch_only Sample.empty_fs in
  events o = [missing_report "remote"; missing_report "message"]
  /\ length (callbacks (events o)) = 2
  /\ result o = inr tt.
Proof.
  apply (one_callback_per_missing_option Sample.all_ok Sample.branch_only
           Sample.empty_fs).
  vm_compute. lia.
Defined.

Lemma email_without_name_witness :
  let o := deploy Sample.all_ok Sample.email_only Sample.empty_fs in
  Forall is_callback (events o)
  /\ events o <> []
  /\ result o = inr tt
  /\ final o = initial Sample.empty_fs
  /\ (missing (merge_options ∅ Sample.email_only) = [] ->
      events o = [ECallback (Message signature_message)])
  /\ (missing (merge_options ∅ Sample.email_only) <> [] ->
      events o = missing_report <$> missing (merge_options ∅ Sample.email_only)).
Proof.
  apply (email_without_name Sample.all_ok Sample.email_only Sample.empty_fs);
    vm_compute; reflexivity.
Defined.

(** C5 as stated fails: with an email, no name and no remote, the
    callback is called with the missing-option message only; the
    signature message is never reported. *)
Lemma email_without_name_counterexample :
  let options := merge_options (AquiferGitConfig Sample.all_ok) Sample.email_no_remote in
  let o := deploy Sample.all_ok Sample.email_no_remote Sample.empty_fs in
  truthy (get options "email") = true
  /\ truthy (get options "name") = false
  /\ callbacks (events o) = [Message (missing_message "remote")]
  /\ ~ In (ECallback (Message signature_message)) (events o).
Proof.
  vm_compute. repeat split; try reflexivity.
  intros [H|[]]. discriminate H.
Qed.

(** ** The steps, one by one *)

Arguments get : simpl never.
Arguments path_join : simpl never.
Arguments resolve : simpl never.
Arguments fs_remove : simpl never.
Arguments fs_copy : simpl never.
Arguments fs_mkdir : simpl never.
Arguments prop : simpl never.
Arguments invoked : simpl never.
Arguments remove_outcome : simpl never.
Arguments copy_outcome : simpl never.
Arguments plain : simpl never.

Ltac run_step :=
  unfold mbind, M_bind, mret, M_ret, bind, catch; cbn;
  rewrite ?path_join_2, ?path_join_3; cbn.

Section Steps.

Context (E : Env) (options : object) (d : string).

Let at_d (m : FS) : state := {| fs := m; destPath := JStr d |}.

Lemma git_C_outcome (m : FS) :
  git_C E (at_d m) = {| events := []; result := inr (git E d); final := at_d m |}.
Proof. unfold git_C. run_step. reflexivity. Qed.

Lemma clone_step_outcome (m : FS) (v : jsval) :
  clone_step E options d {| fs := m; destPath := v |} =
    invoked E d SClone (clone_command options d) [status (cloning_message d)] m.
Proof. unfold clone_step. run_step. reflexivity. Qed.

Lemma checkout_step_outcome (m : FS) :
  checkout_step E options (at_d m) =
    let r := invoke E (checkout_command E options d) m in
    match fst r with
    | None =>
        {| events := [EAct SCheckout (AInvoke (checkout_command E options d)) None;
                      status (checking_out_message options)];
           result := inr tt;
           final := at_d (snd r) |}
    | Some e1 =>
        invoked E d SBranch (branch_command E options d)
          [EAct SCheckout (AInvoke (checkout_command E options d)) (Some e1);
           status (creating_message options)] (snd r)
    end.
Proof.
  unfold checkout_step, mbind, M_bind.
  rewrite (bind_resolved _ _ _ _ _ _ (git_C_outcome m)).
  change (git E d +:+ " checkout " +:+ to_string (get options "branch"))
    with (checkout_command E options d).
  cbv zeta.
  destruct (invoke E (checkout_command E options d) m) as [[e1|] m1] eqn:Hco;
    cbn [fst snd].
  - erewrite catch_rejected
      by (apply bind_rejected; unfold run_invoke, at_d; cbn [fs destPath]; rewrite Hco; reflexivity).
    rewrite (bind_resolved (log _ _) _ _ _ _ _ eq_refl).
    rewrite (bind_resolved _ _ _ _ _ _ (git_C_outcome m1)).
    reflexivity.
  - erewrite catch_resolved
      by (erewrite bind_resolved by (unfold run_invoke, at_d; cbn [fs destPath]; rewrite Hco; reflexivity);
          reflexivity).
    reflexivity.
Qed.

Lemma build_step_outcome (m : FS) :
  build_step E options (at_d m) =
    match build_path E options d with
    | inl e =>
        {| events := [status "Building the site..."]; result := inl e; final := at_d m |}
    | inr bp =>
        let r := build_create E bp (the_build_options options) m in
        {| events := [status "Building the site...";
                      EAct SBuild (ABuild bp (the_build_options options)) (fst r)];
           result := match fst r with Some e => inl e | None => inr tt end;
           final := at_d (snd r) |}
    end.
Proof.
  unfold build_step, build_path. run_step.
  destruct (truthy (get options "folder")); cbn; [| reflexivity].
  destruct (path_join (wording E) [JStr d; get options "folder"]); reflexivity.
Qed.

Lemma copy_link_outcome (link : jsval) (m : FS) :
  copy_link E link (at_d m) =
    match link_strings E d link with
    | inl e => {| events := []; result := inl e; final := at_d m |}
    | inr (src, dest) =>
        let r1 := remove_outcome E dest m in
        match fst r1 with
        | Some e =>
            {| events := [EAct SCopy (ARemove (JStr dest)) (Some e)];
               result := inl e;
               final := at_d (snd r1) |}
        | None =>
            let r2 := copy_outcome E src dest (snd r1) in
            {| events := [EAct SCopy (ARemove (JStr dest)) None;
                          EAct SCopy (ACopy src dest) (fst r2)];
               result := match fst r2 with Some e => inl e | None => inr tt end;
               final := at_d (snd r2) |}
        end
    end.
Proof.
  unfold copy_link, link_strings, mbind, M_bind.
  destruct (prop (wording E) link "src") as [e|link_src]; [reflexivity |].
  rewrite (bind_resolved (eval (inr link_src)) _ (at_d m) [] link_src (at_d m) eq_refl).
  cbv beta.
  destruct (path_join (wording E) [JStr (projectDir E); link_src]) as [e|src];
    [reflexivity |].
  rewrite (bind_resolved (eval (inr src)) _ (at_d m) [] src (at_d m) eq_refl).
  rewrite (bind_resolved read_destPath _ (at_d m) [] (JStr d) (at_d m) eq_refl).
  cbv beta.
  destruct (prop (wording E) link "dest") as [e|link_dest]; [reflexivity |].
  rewrite (bind_resolved (eval (inr link_dest)) _ (at_d m) [] link_dest (at_d m) eq_refl).
  cbv beta.
  destruct (path_join (wording E) [JStr d; link_dest]) as [e|dest] eqn:Hdest;
    [reflexivity |].
  rewrite (bind_resolved (eval (inr dest)) _ (at_d m) [] dest (at_d m) eq_refl).
  cbv beta. cbn [app].
  pose proof (path_join_nonempty _ _ _ Hdest) as Hne.
  cbv zeta. unfold bind, fs_removeSync, fs_copySync, at_d.
  cbn [result final events fs destPath app]. rewrite Hne.
  destruct (remove_outcome E dest m) as [[e|] m1]; cbn [fst snd result events final fs destPath app];
    [reflexivity |].
  destruct (copy_outcome E src dest m1) as [[e|] m2]; reflexivity.
Qed.

Lemma index_step_outcome (m : FS) :
  index_step E (at_d m) =
    let r := remove_outcome E (index_path E d) m in
    {| events := [status "Clearing the index...";
                  EAct SIndex (ARemove (JStr (index_path E d))) (fst r)];
       result := match fst r with Some e => inl e | None => inr tt end;
       final := at_d (snd r) |}.
Proof.
  unfold index_step. run_step. unfold fs_removeSync.
  rewrite path_join_strings_nonempty. fold (index_path E d). cbv zeta.
  destruct (remove_outcome E (index_path E d) m) as [[e|] m1]; reflexivity.
Qed.

Lemma stage_step_outcome (m : FS) :
  stage_step E (at_d m) =
    invoked E d SStage (stage_command E d) [status "Adding all files to the index..."] m.
Proof. unfold stage_step, git_C. run_step. reflexivity. Qed.

Lemma commit_step_outcome (m : FS) :
  commit_step E options (at_d m) =
    invoked E d SCommit (commit_command options (git E d)) [status "Committing changes..."] m.
Proof. unfold commit_step, git_C. run_step. reflexivity. Qed.

Lemma push_step_outcome (m : FS) :
  push_step E options (at_d m) =
    invoked E d SPush (push_command E options d) [status (pushing_message options)] m.
Proof. unfold push_step, git_C. run_step. reflexivity. Qed.

Lemma cleanup_step_outcome (m : FS) :
  plain d = true ->
  cleanup_step E options (at_d m) =
    if truthy (get options "debug") then
      {| events := []; result := inr tt; final := at_d m |}
    else
      {| events := [status (removing_message d);
                    EAct SCleanup (ARemove (JStr d)) None];
         result := inr tt;
         final := at_d (fs_remove (resolve (cwd E) d) m) |}.
Proof.
  intros Hd. unfold cleanup_step.
  destruct (truthy (get options "debug")); cbn; [reflexivity |].
  run_step. unfold fs_removeSync, remove_outcome.
  rewrite (plain_nonempty d Hd), Hd. reflexivity.
Qed.

Lemma success_step_outcome (s : state) :
  success_step s =
    {| events := [ELog success_message "success"]; result := inr tt; final := s |}.
Proof. reflexivity. Qed.

(** With [debug] set the handler only calls back. *)
Lemma on_error_debugging (err : error) (s : state) :
  truthy (get options "debug") = true ->
  on_error E options err s =
    {| events := [ECallback (Raised err)]; result := inr tt; final := s |}.
Proof. intros Hdbg. unfold on_error. rewrite Hdbg. reflexivity. Qed.

(** The handler of the final [.catch]: when [debug] is falsy it first
    removes [destPath], and calls back only if that did not throw.
    [destPath] is still [undefined], or it is the plain name [mktemp]
    made. *)
Lemma on_error_outcome (err : error) (s : state) :
  (forall p, destPath s = JStr p -> plain p = true) ->
  on_error E options err s =
    if truthy (get options "debug") then
      {| events := [ECallback (Raised err)]; result := inr tt; final := s |}
    else
      match destPath s with
      | JStr p =>
          {| events := [EAct SCatch (ARemove (JStr p)) None; ECallback (Raised err)];
             result := inr tt;
             final := {| fs := fs_remove (resolve (cwd E) p) (fs s);
                         destPath := JStr p |} |}
      | v =>
          {| events := [EAct SCatch (ARemove v) (Some MissingPath)];
             result := inl MissingPath; final := s |}
      end.
Proof.
  intros Hplain. unfold on_error. destruct s as [m v]. cbn [destPath] in Hplain.
  destruct (truthy (get options "debug")); cbn; [reflexivity |].
  run_step. unfold fs_removeSync.
  destruct v as [| |b|p|xs|fields]; cbn; try reflexivity.
  unfold remove_outcome.
  rewrite (plain_nonempty p (Hplain p eq_refl)), (Hplain p eq_refl). reflexivity.
Qed.

End Steps.

(** ** The chain as a sequence of stages *)

Lemma seq_sat_cons (I : state -> Prop) (m k : M unit) (seg : segment) (segs : list segment) :
  stage_sat I m seg -> seq_sat I k segs -> seq_sat I (m;; k) (seg :: segs).
Proof.
  intros Hm Hk s Hs. destruct (Hm s Hs) as [Hseg HI].
  unfold mbind, M_bind, bind.
  destruct (result (m s)) as [e|[]] eqn:Hr; cbn in *.
  - split; [now apply seq_fail | exact HI].
  - destruct (Hk _ HI) as [Hshape HI']. split; [now apply seq_next | exact HI'].
Qed.

Lemma seq_sat_last (I : state -> Prop) (m : M unit) (seg : segment) :
  stage_sat I m seg -> seq_sat I m [seg].
Proof.
  intros Hm s Hs. destruct (Hm s Hs) as [Hseg HI]. split; [| exact HI].
  destruct (result (m s)) as [e|[]] eqn:Hr; cbn in *.
  - now apply seq_fail.
  - rewrite <- (app_nil_r (events (m s))). apply seq_next; [exact Hseg | constructor].
Qed.

Section Stages.

Context (E : Env) (options : object) (d : string).
Hypothesis Hd : plain d = true.

Ltac enter :=
  let s := fresh "s" in
  let Hs := fresh "Hs" in
  let m := fresh "m" in
  let v := fresh "v" in
  intros s Hs; destruct s as [m v]; unfold at_workspace in Hs; cbn in Hs; subst v.

Lemma invoked_sat (st : step) (commandLine : string) (pre : list event) (m : FS)
      (seg : segment) :
  (forall r, seg (pre ++ [EAct st (AInvoke commandLine) r]) r) ->
  seg (events (invoked E d st commandLine pre m))
      (failure (result (invoked E d st commandLine pre m)))
  /\ at_workspace d (final (invoked E d st commandLine pre m)).
Proof.
  intros Hseg. unfold invoked. cbn. split; [| reflexivity].
  destruct (invoke E commandLine m) as [[e|] m']; cbn; apply Hseg.
Qed.

Lemma checkout_step_sat :
  stage_sat (at_workspace d) (checkout_step E options) (checkout_seg E options d).
Proof.
  enter. rewrite checkout_step_outcome. cbn.
  destruct (invoke E (checkout_command E options d) m) as [[e1|] m1]; cbn.
  - apply invoked_sat. intros r. right. now exists e1.
  - split; [| reflexivity]. left. split; reflexivity.
Qed.

Lemma build_step_sat :
  stage_sat (at_workspace d) (build_step E options) (build_seg E options d).
Proof.
  enter. rewrite build_step_outcome.
  destruct (build_path E options d) as [e|bp] eqn:Hbp; cbn.
  - split; [| reflexivity]. right. now exists e.
  - split; [| reflexivity]. left. exists bp. split; [exact Hbp |].
    destruct (build_create E bp (the_build_options options) m) as [[e|] m']; reflexivity.
Qed.

Lemma copy_link_final (link : jsval) (s : state) :
  at_workspace d s -> at_workspace d (final (copy_link E link s)).
Proof.
  revert s. enter. rewrite copy_link_outcome.
  destruct (link_strings E d link) as [e|[src dest]]; [reflexivity |].
  cbv zeta. destruct (fst (remove_outcome E dest m)); reflexivity.
Qed.

Lemma copy_loop_final (links : list jsval) (s : state) :
  at_workspace d s -> at_workspace d (final (forEach (copy_link E) links s)).
Proof.
  revert s. induction links as [|link links IH]; intros s Hs; cbn; [exact Hs |].
  pose proof (copy_link_final link s Hs) as HI.
  unfold mbind, M_bind, bind.
  destruct (result (copy_link E link s)) as [e|[]]; cbn; [exact HI | now apply IH].
Qed.

Lemma copy_link_sat (link : jsval) (s : state) :
  In link (deployment_links options) ->
  at_workspace d s ->
  Forall (is_copy_action E options d) (events (copy_link E link s)).
Proof.
  intros Hin. revert s. enter. rewrite copy_link_outcome.
  destruct (link_strings E d link) as [e|[src dest]] eqn:Hl; [constructor |].
  assert (Hrm : forall r, is_copy_action E options d (EAct SCopy (ARemove (JStr dest)) r)).
  { intros r. eexists _, _. split; [reflexivity |].
    exists link, src, dest. split; [exact Hin |]. split; [exact Hl | now left]. }
  assert (Hcp : forall r, is_copy_action E options d (EAct SCopy (ACopy src dest) r)).
  { intros r. eexists _, _. split; [reflexivity |].
    exists link, src, dest. split; [exact Hin |]. split; [exact Hl | now right]. }
  cbv zeta. destruct (fst (remove_outcome E dest m)); cbn [events];
    repeat constructor; first [apply Hrm | apply Hcp].
Qed.

Lemma copy_loop_sat (links : list jsval) (s : state) :
  (forall link, In link links -> In link (deployment_links options)) ->
  at_workspace d s ->
  Forall (is_copy_action E options d) (events (forEach (copy_link E) links s)).
Proof.
  revert s. induction links as [|link links IH]; intros s Hin Hs; cbn; [constructor |].
  pose proof (copy_link_sat link s (Hin link (or_introl eq_refl)) Hs) as Hev.
  pose proof (copy_link_final link s Hs) as HI.
  unfold mbind, M_bind, bind.
  destruct (result (copy_link E link s)) as [e|[]]; cbn; [exact Hev |].
  apply Forall_app. split; [exact Hev |].
  apply IH; [| exact HI]. intros l Hl. apply Hin. now right.
Qed.

Lemma copy_files_sat (s : state) :
  at_workspace d s ->
  Forall (is_copy_action E options d) (events (copy_files E options s))
  /\ at_workspace d (final (copy_files E options s)).
Proof.
  intros Hs. pose proof (copy_loop_sat (deployment_links options) s) as Hloop.
  unfold copy_files, deployment_links in *.
  destruct (get options "deploymentFiles");
    try (cbn; split; [constructor | exact Hs]).
  split; [apply Hloop; [intros link Hl; exact Hl | exact Hs] | now apply copy_loop_final].
Qed.

Lemma copy_step_events (s : state) :
  events (copy_step E options s) =
    status "Copying deployment files..." :: events (copy_files E options s).
Proof.
  unfold copy_step, mbind, M_bind, bind. cbn.
  destruct (result (copy_files E options s)); reflexivity.
Qed.

Lemma copy_step_final (s : state) :
  final (copy_step E options s) = final (copy_files E options s).
Proof.
  unfold copy_step, mbind, M_bind, bind. cbn.
  destruct (result (copy_files E options s)); reflexivity.
Qed.

Lemma copy_step_result (s : state) :
  result (copy_step E options s) = result (copy_files E options s).
Proof.
  unfold copy_step, mbind, M_bind, bind. cbn.
  destruct (result (copy_files E options s)); reflexivity.
Qed.

Lemma copy_step_sat :
  stage_sat (at_workspace d) (copy_step E options) (copy_seg E options d).
Proof.
  intros s Hs. destruct (copy_files_sat s Hs) as [Hev HI].
  rewrite copy_step_events, copy_step_final. split; [| exact HI].
  eexists. split; [reflexivity | exact Hev].
Qed.

Lemma index_step_sat : stage_sat (at_workspace d) (index_step E) (index_seg E d).
Proof.
  enter. rewrite index_step_outcome. cbv zeta. unfold index_seg.
  destruct (remove_outcome E (index_path E d) m) as [[e|] m1]; cbn; now split.
Qed.

Lemma stage_step_sat : stage_sat (at_workspace d) (stage_step E) (stage_seg E d).
Proof. enter. rewrite stage_step_outcome. apply invoked_sat. reflexivity. Qed.

Lemma commit_step_sat :
  stage_sat (at_workspace d) (commit_step E options) (commit_seg E options d).
Proof. enter. rewrite commit_step_outcome. apply invoked_sat. reflexivity. Qed.

Lemma push_step_sat :
  stage_sat (at_workspace d) (push_step E options) (push_seg E options d).
Proof. enter. rewrite push_step_outcome. apply invoked_sat. reflexivity. Qed.

Lemma cleanup_step_sat :
  stage_sat (at_workspace d) (cleanup_step E options) (cleanup_seg options d).
Proof.
  enter. rewrite cleanup_step_outcome by exact Hd. unfold cleanup_seg.
  destruct (truthy (get options "debug")); cbn; now repeat split.
Qed.

Lemma success_step_sat : stage_sat (at_workspace d) success_step success_seg.
Proof. intros s Hs. cbn. now repeat split. Qed.

Lemma after_clone_sat :
  seq_sat (at_workspace d) (after_clone E options)
    [checkout_seg E options d; build_seg E options d; copy_seg E options d; index_seg E d;
     stage_seg E d; commit_seg E options d; push_seg E options d;
     cleanup_seg options d; success_seg].
Proof.
  unfold after_clone.
  repeat (apply seq_sat_cons;
          [first [ apply checkout_step_sat | apply build_step_sat | apply copy_step_sat
                 | apply index_step_sat | apply stage_step_sat | apply commit_step_sat
                 | apply push_step_sat | apply cleanup_step_sat ] |]).
  apply seq_sat_last, success_step_sat.
Qed.

(** The steps from the clone on, started in any state. *)
Lemma from_clone_sat (m : FS) (v : jsval) :
  let o := (clone_step E options d;; after_clone E options)
             {| fs := m; destPath := v |} in
  seq_shape (stages E options d) (events o) (result o)
  /\ at_workspace d (final o).
Proof.
  cbn zeta. unfold mbind, M_bind, bind. rewrite clone_step_outcome.
  unfold invoked. cbn.
  destruct (invoke E (clone_command options d) m) as [[e|] m1]; cbn.
  - split; [| reflexivity]. apply seq_fail. reflexivity.
  - destruct (after_clone_sat {| fs := m1; destPath := JStr d |} eq_refl) as [Hshape HI].
    split; [| exact HI].
    apply (seq_next (clone_seg options d) _
             [status (cloning_message d); EAct SClone (AInvoke (clone_command options d)) None]);
      [reflexivity | exact Hshape].
Qed.

End Stages.

Section Chain.

Context (E : Env) (options : object).

Lemma chain_unfold :
  chain E options =
    (mktemp_createDir E template ≫=
       fun destPath_ => clone_step E options destPath_;; after_clone E options).
Proof. reflexivity. Qed.

(** The chain when [mktemp] rejects: nothing else runs and [destPath]
    keeps the value it had. *)
Lemma chain_create_failed (s : state) (e : error) :
  createDir E template (fs s) = inl e ->
  chain E options s =
    {| events := [EAct SCreate (ACreateDir template) (Some e)];
       result := inl e;
       final := s |}.
Proof.
  intros Hc. unfold chain, mbind, M_bind. apply bind_rejected.
  unfold mktemp_createDir. unfold template in Hc. rewrite Hc. reflexivity.
Qed.

(** The chain when [mktemp] resolves: the steps from the clone on run
    in the state where the workspace has been created. *)
Lemma chain_resolved (s : state) (draws : list nat) :
  createDir E template (fs s) = inr draws ->
  let d := fill template draws in
  let o := (clone_step E options d;; after_clone E options)
             {| fs := fs_mkdir (resolve (cwd E) d) (fs s); destPath := destPath s |} in
  chain E options s =
    {| events := EAct SCreate (ACreateDir template) None :: events o;
       result := result o;
       final := final o |}.
Proof.
  intros Hc d o. subst o. rewrite chain_unfold. unfold mbind, M_bind.
  erewrite bind_resolved by (unfold mktemp_createDir; rewrite Hc; reflexivity).
  reflexivity.
Qed.

(** The chain when [mktemp] resolves with the name [d]. *)
Lemma chain_created (s : state) (draws : list nat) :
  createDir E template (fs s) = inr draws ->
  let d := fill template draws in
  let o := chain E options s in
  exists T,
    events o = EAct SCreate (ACreateDir template) None :: T
    /\ seq_shape (stages E options d) T (result o)
    /\ at_workspace d (final o).
Proof.
  intros Hc d o. subst o.
  destruct (from_clone_sat E options d (fill_template_plain draws)
              (fs_mkdir (resolve (cwd E) d) (fs s)) (destPath s)) as [Hshape HI].
  cbv zeta in Hshape, HI.
  rewrite chain_unfold. unfold mbind, M_bind in *.
  erewrite bind_resolved by (unfold mktemp_createDir; rewrite Hc; reflexivity).
  fold d. cbn beta. cbn [events result final app].
  eexists. split; [reflexivity |]. split; [exact Hshape | exact HI].
Qed.

End Chain.

(** ** The whole run *)

Section Whole.

Context (E : Env) (options : object).

Lemma on_error_events (err : error) (s : state) :
  (forall p, destPath s = JStr p -> plain p = true) ->
  events (on_error E options err s) = handler_events options (destPath s) err.
Proof.
  intros Hplain. rewrite on_error_outcome by exact Hplain. unfold handler_events.
  destruct (truthy (get options "debug")); [reflexivity |].
  destruct (destPath s) as [| |b|p|xs|fields]; try reflexivity.
  now rewrite (plain_nonempty p (Hplain p eq_refl)).
Qed.

Lemma on_error_destPath (err : error) (s : state) :
  (forall p, destPath s = JStr p -> plain p = true) ->
  destPath (final (on_error E options err s)) = destPath s.
Proof.
  intros Hplain. rewrite on_error_outcome by exact Hplain.
  destruct (truthy (get options "debug")); [reflexivity |].
  destruct (destPath s) as [| |b|p|xs|fields] eqn:Hp; try (cbn; exact Hp).
  reflexivity.
Qed.

(** When [debug] is falsy and [destPath] names the workspace, the handler
    leaves nothing at the workspace and hands the error to the callback. *)
Lemma on_error_cleans (err : error) (s : state) (d : string) :
  truthy (get options "debug") = false ->
  destPath s = JStr d ->
  plain d = true ->
  fs (final (on_error E options err s)) (resolve (cwd E) d) = None
  /\ result (on_error E options err s) = inr tt.
Proof.
  intros Hdbg Hs Hd.
  rewrite on_error_outcome by (intros p Hp; rewrite Hs in Hp; now injection Hp as <-).
  rewrite Hdbg, Hs. cbn. unfold fs_remove. now rewrite below_refl.
Qed.

Lemma pipeline_no_workspace (m : FS) (e : error) :
  createDir E template m = inl e ->
  let o := pipeline E options (initial m) in
  events o = EAct SCreate (ACreateDir template) (Some e) :: handler_events options JUndef e
  /\ final o = initial m
  /\ result o = if truthy (get options "debug") then inr tt else inl MissingPath.
Proof.
  intros Hc. cbn zeta. unfold pipeline, catch.
  rewrite (chain_create_failed E options (initial m) e Hc). cbn [result events final].
  rewrite on_error_events, on_error_outcome by discriminate. cbn.
  destruct (truthy (get options "debug")); repeat split; reflexivity.
Qed.

Lemma pipeline_workspace (m : FS) (draws : list nat) :
  createDir E template m = inr draws ->
  let d := fill template draws in
  let o := pipeline E options (initial m) in
  exists T res,
    seq_shape (stages E options d) T res
    /\ destPath (final o) = JStr d
    /\ result o = inr tt
    /\ match res with
       | inr _ => events o = EAct SCreate (ACreateDir template) None :: T
       | inl e =>
           events o =
             EAct SCreate (ACreateDir template) None :: T ++ handler_events options (JStr d) e
           /\ (truthy (get options "debug") = false ->
               fs (final o) (resolve (cwd E) d) = None)
       end.
Proof.
  intros Hc d o. subst o.
  destruct (chain_created E options (initial m) draws Hc) as (T & Hev & Hshape & HI).
  fold d in Hshape, HI. unfold at_workspace in HI.
  exists T, (result (chain E options (initial m))). split; [exact Hshape |].
  unfold pipeline, catch.
  assert (Hplain : forall p, destPath (final (chain E options (initial m))) = JStr p ->
                             plain p = true).
  { intros p Hp. rewrite HI in Hp. injection Hp as <-. apply fill_template_plain. }
  destruct (result (chain E options (initial m))) as [e|[]] eqn:Hres; cbn [result events final].
  - rewrite on_error_destPath, on_error_events, Hev, HI by exact Hplain.
    split; [reflexivity |]. split.
    + rewrite on_error_outcome, HI by exact Hplain.
      destruct (truthy (get options "debug")); reflexivity.
    + split; [reflexivity |]. intros Hdbg.
      now apply on_error_cleans; [| | apply fill_template_plain].
  - split; [exact HI |]. split; [exact Hres | exact Hev].
Qed.

End Whole.

(** ** Facts about traces *)

Lemma seq_shape_Forall (P : event -> Prop) (segs : list segment) T res :
  Forall (fun seg : segment => forall t r, seg t r -> Forall P t) segs ->
  seq_shape segs T res -> Forall P T.
Proof.
  intros Hsegs Hshape. induction Hshape as [|seg segs t e Hseg|seg segs t T res Hseg Hrest IH].
  - constructor.
  - apply Forall_cons_1 in Hsegs as [H _]. exact (H _ _ Hseg).
  - apply Forall_cons_1 in Hsegs as [H Hsegs]. apply Forall_app. split.
    + exact (H _ _ Hseg).
    + exact (IH Hsegs).
Qed.

Lemma seq_shape_inv (seg : segment) (segs : list segment) T res :
  seq_shape (seg :: segs) T res ->
  (exists e, res = inl e /\ seg T (Some e))
  \/ (exists t T', T = t ++ T' /\ seg t None /\ seq_shape segs T' res).
Proof.
  inversion 1; subst; [left | right]; eauto 6.
Qed.

Lemma copy_actions_Forall (E : Env) (options : object) (d : string)
      (P : event -> Prop) (t : list event) :
  (forall a r, P (EAct SCopy a r)) -> Forall (is_copy_action E options d) t -> Forall P t.
Proof.
  intros HP. induction 1 as [|e t (a & r & -> & _) _ IH]; constructor;
    [apply HP | exact IH].
Qed.

(** Unfolds a segment hypothesis into the list it stands for. *)
Ltac open_segment H :=
  unfold clone_seg, checkout_seg, build_seg, copy_seg, index_seg, stage_seg,
    commit_seg, push_seg, cleanup_seg, success_seg in H;
  repeat match type of H with
         | _ \/ _ => destruct H as [H|H]
         | _ /\ _ => let H' := fresh H in destruct H as [H' H]
         | exists _, _ => let x := fresh "x" in destruct H as [x H]
         | context [truthy ?v] => destruct (truthy v)
         end;
  subst.

(** Proves that every segment of a list of stages satisfies a property
    that holds of every log entry and of the actions of those stages. *)
Ltac segments_Forall :=
  repeat match goal with
         | |- Forall _ (_ :: _) => constructor
         | |- Forall _ [] => constructor
         end;
  let t := fresh "t" in
  let r := fresh "r" in
  let H := fresh "H" in
  intros t r H;
  first [ destruct H as (? & -> & H); constructor; [exact I |];
          revert H; apply copy_actions_Forall; intros; exact I
        | open_segment H; repeat constructor ].

Section TraceFacts.

Context (E : Env) (options : object) (d : string).

Lemma stages_not_callback T res :
  seq_shape (stages E options d) T res -> Forall not_callback T.
Proof. apply seq_shape_Forall. unfold stages. segments_Forall. Qed.

Lemma later_stages_past_checkout T res :
  seq_shape [build_seg E options d; copy_seg E options d; index_seg E d; stage_seg E d;
             commit_seg E options d; push_seg E options d;
             cleanup_seg options d; success_seg] T res ->
  Forall past_checkout T.
Proof. apply seq_shape_Forall. segments_Forall. Qed.

End TraceFacts.

Lemma callbacks_app (A B : list event) : callbacks (A ++ B) = callbacks A ++ callbacks B.
Proof. unfold callbacks. apply omap_app. Qed.

Lemma callbacks_act s a r (T : list event) : callbacks (EAct s a r :: T) = callbacks T.
Proof. reflexivity. Qed.

Lemma callbacks_quiet (T : list event) : Forall not_callback T -> callbacks T = [].
Proof.
  induction 1 as [|e T He _ IH]; [reflexivity |].
  destruct e; cbn in *; [exact IH | contradiction | exact IH].
Qed.

Lemma count_step_app (st : step) (A B : list event) :
  count_step st (A ++ B) = count_step st A + count_step st B.
Proof.
  induction A as [|e A IH]; [reflexivity |].
  destruct e; cbn; rewrite IH; lia.
Qed.

Lemma count_past_checkout (T : list event) :
  Forall past_checkout T -> count_step SCheckout T = 0 /\ count_step SBranch T = 0.
Proof.
  induction 1 as [|e T He _ [IH1 IH2]]; [split; reflexivity |].
  destruct e as [| |s a r]; cbn; try (split; assumption).
  destruct s; cbn in *; try contradiction; split; assumption.
Qed.

Lemma In_past_checkout (T : list event) s a r :
  Forall past_checkout T -> In (EAct s a r) T -> s <> SCheckout /\ s <> SBranch.
Proof.
  intros HT Hin. rewrite Forall_forall in HT.
  apply list_elem_of_In in Hin. specialize (HT _ Hin).
  destruct s; cbn in HT; try contradiction; split; discriminate.
Qed.

Lemma handler_events_past_checkout (options : object) (v : jsval) (err : error) :
  Forall past_checkout (handler_events options v err).
Proof.
  unfold handler_events. destruct (truthy (get options "debug")); [repeat constructor |].
  destruct v; repeat constructor.
  destruct (String.eqb s EmptyString); repeat constructor.
Qed.

(** ** Outcomes of [deploy] *)

(** Either validation stops the run, which then only calls back, or the
    run is the pipeline on the merged options. *)
Lemma deploy_cases (E : Env) (commandOptions : object) (m : FS) :
  let options := merge_options (AquiferGitConfig E) commandOptions in
  let o := deploy E commandOptions m in
  (Forall is_callback (events o) /\ final o = initial m /\ result o = inr tt)
  \/ o = pipeline E options (initial m).
Proof.
  intros options o. subst o.
  destruct (missing options) as [|n ns] eqn:Hm.
  - destruct (truthy (get options "email") && negb (truthy (get options "name"))) eqn:Hsig.
    + left. apply andb_true_iff in Hsig as [He Hn]. apply negb_true_iff in Hn.
      subst options. rewrite deploy_bad_signature by assumption. cbn.
      repeat split. repeat constructor. now eexists.
    + right. now apply deploy_valid.
  - left. subst options. rewrite deploy_missing by congruence. cbn.
    repeat split. apply Forall_missing_report.
Qed.

Lemma not_action_of_callbacks (T : list event) s a r :
  Forall is_callback T -> ~ In (EAct s a r) T.
Proof.
  intros HT Hin. rewrite Forall_forall in HT.
  apply list_elem_of_In in Hin. destruct (HT _ Hin) as [arg Harg]. discriminate.
Qed.

(** Once the workspace exists, or when [debug] is set, a failure of the
    chain reaches the callback as the very value the chain was rejected
    with, once; a chain that succeeds never calls back. *)
Lemma failure_reported_after_creation (E : Env) (options : object) (m : FS) :
  let o := pipeline E options (initial m) in
  let c := chain E options (initial m) in
  match result c with
  | inr _ => callbacks (events o) = []
  | inl err =>
      (truthy (get options "debug") = true \/ exists d, destPath (final c) = JStr d) ->
      callbacks (events o) = [Raised err]
  end.
Proof.
  cbn zeta. destruct (createDir E template m) as [e|draws] eqn:Hc.
  - rewrite (chain_create_failed E options (initial m) e Hc). cbn [result final].
    intros [Hdbg|[d Hd]]; [| discriminate].
    destruct (pipeline_no_workspace E options m e Hc) as (Hev & _).
    rewrite Hev. unfold handler_events. now rewrite Hdbg.
  - destruct (chain_created E options (initial m) draws Hc) as (T & Hev & Hshape & HI).
    pose proof (callbacks_quiet _ (stages_not_callback _ _ _ _ _ Hshape)) as Hq.
    unfold pipeline, catch.
    destruct (result (chain E options (initial m))) as [err|[]];
      cbn [events result final].
    + intros _. unfold at_workspace in HI.
      rewrite Hev, on_error_events, HI
        by (intros p Hp; rewrite HI in Hp; injection Hp as <-; apply fill_template_plain).
      rewrite callbacks_app, callbacks_act, Hq. unfold handler_events.
      rewrite fill_template_nonempty.
      destruct (truthy (get options "debug")); reflexivity.
    + rewrite Hev, callbacks_act. exact Hq.
Qed.

(** When [mktemp] rejects, the callback gets the rejection only if
    [debug] is set: otherwise the handler throws on the undefined
    [destPath] before it reaches [callback]. *)
Lemma creation_failure_callbacks (E : Env) (options : object) (m : FS) (e : error) :
  createDir E template m = inl e ->
  callbacks (events (pipeline E options (initial m))) =
    if truthy (get options "debug") then [Raised e] else [].
Proof.
  intros Hc. destruct (pipeline_no_workspace E options m e Hc) as (Hev & _).
  rewrite Hev, callbacks_act. unfold handler_events.
  destruct (truthy (get options "debug")); reflexivity.
Qed.

(** C1, at the input where it fails: [mktemp] rejects and [debug] is
    off.  The handler calls [fs.removeSync] on the still undefined
    [destPath], that call throws, and [callback] is never reached: the
    rejection of [mktemp] is not reported and the run ends on the
    exception of the handler instead. *)
Theorem creation_failure_not_reported :
  let o := deploy Sample.no_tmp Sample.basic Sample.empty_fs in
  events o =
    [EAct SCreate (ACreateDir template)
       (Some (ExtError "EACCES: permission denied, mkdir"));
     EAct SCatch (ARemove JUndef) (Some MissingPath)]
  /\ callbacks (events o) = []
  /\ result o = inl MissingPath.
Proof. vm_compute. repeat split. Qed.

(** ** The checkout fallback *)



(** A property of traces that holds of the empty trace and of the
    concatenation of two traces that have it, holds of the trace of a
    sequence of stages as soon as it holds of every segment. *)
Lemma seq_shape_closed (Q : list event -> Prop) (segs : list segment) T res :
  Q [] ->
  (forall A B, Q A -> Q B -> Q (A ++ B)) ->
  Forall (fun seg : segment => forall t r, seg t r -> Q t) segs ->
  seq_shape segs T res -> Q T.
Proof.
  intros Hnil Happ Hsegs Hshape.
  induction Hshape as [|seg segs t e Hseg|seg segs t T res Hseg Hrest IH].
  - exact Hnil.
  - apply Forall_cons_1 in Hsegs as [H _]. exact (H _ _ Hseg).
  - apply Forall_cons_1 in Hsegs as [H Hsegs]. apply Happ.
    + exact (H _ _ Hseg).
    + exact (IH Hsegs).
Qed.

(** Such a property holds of the whole trace of [deploy] when it also
    holds of a callback call, of the creation of the workspace and of
    what the handler emits. *)
Lemma deploy_trace_closed (Q : list event -> Prop) (E : Env) (commandOptions : object)
      (m : FS) :
  let options := merge_options (AquiferGitConfig E) commandOptions in
  let d := workspace_name E m in
  Q [] ->
  (forall A B, Q A -> Q B -> Q (A ++ B)) ->
  (forall arg, Q [ECallback arg]) ->
  (forall r, Q [EAct SCreate (ACreateDir template) r]) ->
  (forall v err, Q (handler_events options v err)) ->
  Forall (fun seg : segment => forall t r, seg t r -> Q t) (stages E options d) ->
  Q (events (deploy E commandOptions m)).
Proof.
  intros options d Hnil Happ Hcb Hcreate Hhandler Hsegs.
  destruct (deploy_cases E commandOptions m) as [(Hall & _)|Heq].
  { revert Hall. induction 1 as [|e T [arg ->] _ IH]; [exact Hnil |].
    apply (Happ [ECallback arg] T); [apply Hcb | exact IH]. }
  fold options in Heq. rewrite Heq. clear Heq.
  subst d. unfold workspace_name in Hsegs.
  destruct (createDir E template m) as [e|draws] eqn:Hc.
  - destruct (pipeline_no_workspace E options m e Hc) as (Hev & _).
    rewrite Hev. apply (Happ [_]); [apply Hcreate | apply Hhandler].
  - destruct (pipeline_workspace E options m draws Hc) as (T & res & Hshape & _ & _ & Hev).
    pose proof (seq_shape_closed Q _ _ _ Hnil Happ Hsegs Hshape) as HT.
    destruct res as [e|[]].
    + destruct Hev as [Hev _]. rewrite Hev. apply (Happ [_]); [apply Hcreate |].
      apply Happ; [exact HT | apply Hhandler].
    + rewrite Hev. apply (Happ [_]); [apply Hcreate | exact HT].
Qed.

(** The same for a property of single events. *)
Lemma deploy_events_Forall (P : event -> Prop) (E : Env) (commandOptions : object) (m : FS) :
  let options := merge_options (AquiferGitConfig E) commandOptions in
  let d := workspace_name E m in
  (forall arg, P (ECallback arg)) ->
  (forall r, P (EAct SCreate (ACreateDir template) r)) ->
  (forall v err, Forall P (handler_events options v err)) ->
  Forall (fun seg : segment => forall t r, seg t r -> Forall P t) (stages E options d) ->
  Forall P (events (deploy E commandOptions m)).
Proof.
  intros options d Hcb Hcreate Hhandler Hsegs.
  apply (deploy_trace_closed (Forall P)); try assumption.
  - constructor.
  - intros A B HA HB. apply Forall_app. now split.
  - intros arg. repeat constructor. apply Hcb.
  - intros r. repeat constructor. apply Hcreate.
Qed.

(** ** The commit command *)

Lemma handler_events_commits (options : object) (commandLine : string) v err :
  Forall (commits_with commandLine) (handler_events options v err).
Proof.
  unfold handler_events. destruct (truthy (get options "debug")); [repeat constructor |].
  destruct v; repeat constructor.
  destruct (String.eqb s EmptyString); repeat constructor.
Qed.

(** C6: the commit step always runs one command, [git -C <workspace>
    commit -m "<message>"]; nothing follows the message when [name] is
    falsy, and [--author "<name> <<email>>"] follows it when [name] is
    truthy, with nothing between the angle brackets when [email] is
    falsy.  Every commit action of a run of [deploy] is that command. *)
Theorem commit_message_and_signature (E : Env) (commandOptions : object) (m : FS) :
  let options := merge_options (AquiferGitConfig E) commandOptions in
  let d := workspace_name E m in
  let message := to_string (get options "message") in
  let name := get options "name" in
  let email := get options "email" in
  let git := "git -C " +:+ workdir E d in
  let expected :=
    if truthy name then
      git +:+ " commit -m " +:+ dquote +:+ message +:+ dquote +:+
      " --author " +:+ dquote +:+ to_string name +:+ " <" +:+
      (if truthy email then to_string email else EmptyString) +:+ ">" +:+ dquote
    else git +:+ " commit -m " +:+ dquote +:+ message +:+ dquote in
  (forall m', exists r,
      events (commit_step E options {| fs := m'; destPath := JStr d |}) =
        [status "Committing changes..."; EAct SCommit (AInvoke expected) r])
  /\ Forall (commits_with expected) (events (deploy E commandOptions m)).
Proof.
  intros options d message name email git0 expected.
  assert (Hcmd : commit_command options (git E d) = expected).
  { subst expected. unfold commit_command, author_flag, js_or.
    fold name email message. change (git E d) with git0.
    destruct (truthy name); [| now rewrite append_empty_r].
    destruct (truthy email); reflexivity. }
  rewrite <- Hcmd. split.
  - intros m'. rewrite commit_step_outcome. unfold invoked. cbn [events app].
    eexists. reflexivity.
  - apply deploy_events_Forall.
    + intros arg. exact I.
    + intros r. exact I.
    + intros v err. apply handler_events_commits.
    + fold options. fold d. unfold stages. segments_Forall.
Qed.

(** ** The order of messages and steps *)

Lemma scan_sound (wants : event -> list event) (T seen : list event) :
  scan wants seen T ->
  forall T1 e T2 e',
    T = T1 ++ e :: T2 -> In e' (wants e) -> In e' T1 \/ In e' seen.
Proof.
  revert seen. induction T as [|x T IH]; intros seen Hscan T1 e T2 e' Heq Hin.
  - now destruct T1.
  - destruct Hscan as [Hx Hrest]. destruct T1 as [|y T1]; cbn in Heq.
    + injection Heq as -> ->. right. now apply Hx.
    + injection Heq as -> ->.
      destruct (IH _ Hrest T1 e T2 e' eq_refl Hin) as [H|[H|H]].
      * left. now right.
      * left. now left.
      * now right.
Qed.

Lemma scan_preceded (wants : event -> list event) (T : list event) :
  scan wants [] T -> preceded_by wants T.
Proof.
  intros Hscan T1 e T2 e' Heq Hin.
  destruct (scan_sound wants T [] Hscan T1 e T2 e' Heq Hin) as [H|[]]. exact H.
Qed.

Lemma scan_app (wants : event -> list event) (A B seen : list event) :
  scan wants seen A -> scan wants (rev A ++ seen) B -> scan wants seen (A ++ B).
Proof.
  revert seen. induction A as [|x A IH]; intros seen HA HB; [exact HB |].
  destruct HA as [Hx HA]. split; [exact Hx |].
  apply IH; [exact HA |]. cbn in HB. now rewrite <- app_assoc in HB.
Qed.

Lemma self_contained_app (wants : event -> list event) (A B : list event) :
  self_contained wants A -> self_contained wants B -> self_contained wants (A ++ B).
Proof. intros HA HB seen. apply scan_app; [apply HA | apply HB]. Qed.

Section Announced.

Context (E : Env) (options : object) (d : string).

Let wants : event -> list event :=
  wants_status (except_checkout (step_status options d)).

Lemma copy_actions_announced (t : list event) (seen : list event) :
  In (status "Copying deployment files...") seen ->
  Forall (is_copy_action E options d) t -> scan wants seen t.
Proof.
  intros Hseen Ht. revert seen Hseen.
  induction Ht as [|e t (a & r & -> & _) _ IH]; intros seen Hseen; [exact I |].
  split.
  - intros e' [<-|[]]. exact Hseen.
  - apply IH. now right.
Qed.

(** Solves [scan] on a trace written out. *)
Ltac scan_written :=
  cbn [scan wants wants_status except_checkout step_status status];
  repeat split;
  let e' := fresh "e'" in
  let H := fresh "H" in
  intros e' H; cbn in H;
  repeat match type of H with
         | _ \/ _ => destruct H as [H|H]
         | False => destruct H
         end;
  subst; cbn; tauto.

Lemma stages_self_contained :
  Forall (fun seg : segment => forall t r, seg t r -> self_contained wants t)
         (stages E options d).
Proof.
  unfold stages.
  repeat match goal with
         | |- Forall _ (_ :: _) => constructor
         | |- Forall _ [] => constructor
         end;
    intros t r H seen.
  4: { destruct H as (t' & -> & H). split; [intros e' [] |].
       apply copy_actions_announced; [now left | exact H]. }
  all: open_segment H; scan_written.
Qed.

Lemma handler_self_contained (v : jsval) (err : error) :
  self_contained wants (handler_events options v err).
Proof.
  intros seen. unfold handler_events.
  destruct (truthy (get options "debug")); [scan_written |].
  destruct v; try scan_written.
  destruct (String.eqb s EmptyString); scan_written.
Qed.

End Announced.

Lemma seq_shape_nil T res : seq_shape [] T res -> T = [] /\ res = inr tt.
Proof. inversion 1. now split. Qed.

(** A sequence of stages seen from its last stage. *)
Lemma seq_shape_snoc (segs : list segment) (last : segment) T res :
  seq_shape (segs ++ [last]) T res ->
  (exists e, res = inl e /\ seq_shape segs T (inl e))
  \/ (exists T' t, T = T' ++ t /\ seq_shape segs T' (inr tt) /\ last t (failure res)).
Proof.
  revert T. induction segs as [|seg segs IH]; intros T Hshape; cbn [app] in Hshape.
  - right. apply seq_shape_inv in Hshape as [(e & -> & Hlast)|(t & T' & -> & Hlast & Hnil)].
    + exists [], T. repeat split; [constructor | exact Hlast].
    + apply seq_shape_nil in Hnil as [-> ->].
      exists [], t. rewrite app_nil_r. repeat split; [constructor | exact Hlast].
  - apply seq_shape_inv in Hshape as [(e & -> & Hseg)|(t & T' & -> & Hseg & Hrest)].
    + left. exists e. split; [reflexivity | now apply seq_fail].
    + destruct (IH _ Hrest) as [(e & -> & Hfail)|(T'' & t' & -> & Hok & Hlast)].
      * left. exists e. split; [reflexivity | now apply seq_next].
      * right. exists (t ++ T''), t'. rewrite app_assoc.
        repeat split; [now apply seq_next | exact Hlast].
Qed.

Lemma Forall_not_In {A} (P : A -> Prop) (l : list A) (x : A) :
  Forall P l -> ~ P x -> ~ In x l.
Proof.
  intros Hl Hx Hin. rewrite Forall_forall in Hl.
  apply Hx, Hl. now apply list_elem_of_In.
Qed.

Lemma handler_events_not_success (options : object) v err :
  Forall not_success (handler_events options v err).
Proof.
  unfold handler_events. destruct (truthy (get options "debug")); [repeat constructor |].
  destruct v; repeat constructor.
  destruct (String.eqb s EmptyString); repeat constructor.
Qed.

Section Ordering.

Context (E : Env) (options : object) (d : string).

Lemma before_success_quiet T res :
  seq_shape (stages_before_success E options d) T res -> Forall not_success T.
Proof. apply seq_shape_Forall. unfold stages_before_success. segments_Forall. Qed.

(** The success message ends the trace of a chain that succeeds, after
    the push and the cleanup, and is absent from one that fails. *)
Lemma success_is_last T res :
  seq_shape (stages E options d) T res ->
  match res with
  | inl _ => Forall not_success T
  | inr _ =>
      exists T1,
        T = T1 ++ [ELog success_message "success"]
        /\ Forall not_success T1
        /\ In (EAct SPush (AInvoke (push_command E options d)) None) T1
        /\ (truthy (get options "debug") = false ->
            In (EAct SCleanup (ARemove (JStr d)) None) T1)
  end.
Proof.
  intros Hshape.
  change (stages E options d)
    with (stages_before_success E options d ++ [success_seg]) in Hshape.
  apply seq_shape_snoc in Hshape as [(e & -> & Hfail)|(T1 & t & -> & Hok & Hlast)].
  { now apply before_success_quiet in Hfail. }
  destruct Hlast as [Hres ->]. destruct res as [e|[]]; [discriminate |].
  exists T1. split; [reflexivity |]. split; [now apply before_success_quiet in Hok |].
  change (stages_before_success E options d)
    with ([clone_seg options d; checkout_seg E options d; build_seg E options d; copy_seg E options d;
           index_seg E d; stage_seg E d; commit_seg E options d; push_seg E options d]
            ++ [cleanup_seg options d]) in Hok.
  apply seq_shape_snoc in Hok as [(e & [=] & _)|(T2 & t9 & -> & Hok & Hclean)].
  change [clone_seg options d; checkout_seg E options d; build_seg E options d; copy_seg E options d;
          index_seg E d; stage_seg E d; commit_seg E options d; push_seg E options d]
    with ([clone_seg options d; checkout_seg E options d; build_seg E options d; copy_seg E options d;
           index_seg E d; stage_seg E d; commit_seg E options d]
            ++ [push_seg E options d]) in Hok.
  apply seq_shape_snoc in Hok as [(e & [=] & _)|(T3 & t8 & -> & _ & Hpush)].
  cbn [failure] in Hclean, Hpush. unfold push_seg in Hpush. subst t8.
  split.
  - apply in_or_app. left. apply in_or_app. right. right. now left.
  - intros Hdbg. destruct Hclean as [_ ->]. rewrite Hdbg.
    apply in_or_app. right. right. now left.
Qed.

Lemma later_stages_other_message T res :
  seq_shape [build_seg E options d; copy_seg E options d; index_seg E d; stage_seg E d;
             commit_seg E options d; push_seg E options d;
             cleanup_seg options d; success_seg] T res ->
  Forall (other_than_checking_out options) T.
Proof.
  apply seq_shape_Forall.
  repeat match goal with
         | |- Forall _ (_ :: _) => constructor
         | |- Forall _ [] => constructor
         end;
    intros t r H.
  2: { destruct H as (t' & -> & H). constructor; [discriminate |].
       revert H. apply copy_actions_Forall. discriminate. }
  all: open_segment H; repeat constructor; discriminate.
Qed.

Lemma handler_events_other_message v err :
  Forall (other_than_checking_out options) (handler_events options v err).
Proof.
  unfold handler_events.
  destruct (truthy (get options "debug")); [repeat constructor; discriminate |].
  destruct v; try (repeat constructor; discriminate).
  destruct (String.eqb s EmptyString); repeat constructor; discriminate.
Qed.

(** Where the checkout command stands in the trace of the stages: right
    after the clone; its own message follows it when it succeeds and is
    never emitted when it fails. *)
Lemma checkout_in_stages T res a r :
  seq_shape (stages E options d) T res ->
  In (EAct SCheckout a r) T ->
  exists T2,
    T = [status (cloning_message d); EAct SClone (AInvoke (clone_command options d)) None]
          ++ EAct SCheckout a r :: T2
    /\ match r with
       | None => exists T3, T2 = status (checking_out_message options) :: T3
       | Some _ => Forall (other_than_checking_out options) T2
       end.
Proof.
  intros Hshape Hin. unfold stages in Hshape.
  apply seq_shape_inv in Hshape as [(e & -> & Hclone)|(t0 & T' & -> & Hclone & Hrest)].
  { open_segment Hclone. destruct Hin as [Hin|[Hin|[]]]; discriminate. }
  open_segment Hclone.
  apply seq_shape_inv in Hrest as [(e & -> & Hco)|(t & T'' & -> & Hco & Hlater)].
  - open_segment Hco; [discriminate |].
    destruct Hin as [Hin|[Hin|[Hin|[Hin|[Hin|[]]]]]]; try discriminate.
    injection Hin as <- <-. eexists. split; [reflexivity |].
    repeat constructor; discriminate.
  - pose proof (later_stages_past_checkout _ _ _ _ _ Hlater) as Hpast.
    pose proof (later_stages_other_message _ _ Hlater) as Hother.
    open_segment Hco; cbn [app] in *.
    + destruct Hin as [Hin|[Hin|[Hin|[Hin|Hin]]]]; try discriminate.
      * injection Hin as <- <-. eexists. split; [reflexivity |]. now eexists.
      * apply (In_past_checkout _ _ _ _ Hpast) in Hin. now destruct Hin.
    + destruct Hin as [Hin|[Hin|[Hin|[Hin|[Hin|Hin]]]]]; try discriminate.
      * injection Hin as <- <-. eexists. split; [reflexivity |].
        repeat (constructor; [discriminate |]). exact Hother.
      * apply (In_past_checkout _ _ _ _ Hpast) in Hin. now destruct Hin.
Qed.

End Ordering.

(** C8, as the code has it.  In the trace of every run: the call of each
    step other than the checkout comes after the status message of that
    step; the checkout command is run before its message, which follows
    it at once when the command succeeds and is never emitted when it
    fails; and the success message, when there is one, ends the trace,
    after the push has succeeded and, unless [debug] is set, after the
    workspace has been removed. *)
Theorem status_before_step_except_checkout (E : Env) (commandOptions : object) (m : FS) :
  let options := merge_options (AquiferGitConfig E) commandOptions in
  let d := workspace_name E m in
  let T := events (deploy E commandOptions m) in
  announced_before (except_checkout (step_status options d)) T
  /\ (forall a r, In (EAct SCheckout a r) T ->
        exists T0 T2,
          T = T0 ++ EAct SCheckout a r :: T2
          /\ ~ In (status (checking_out_message options)) T0
          /\ match r with
             | None => exists T3, T2 = status (checking_out_message options) :: T3
             | Some _ => ~ In (status (checking_out_message options)) T2
             end)
  /\ (In (ELog success_message "success") T ->
        exists T1,
          T = T1 ++ [ELog success_message "success"]
          /\ ~ In (ELog success_message "success") T1
          /\ In (EAct SPush (AInvoke (push_command E options d)) None) T1
          /\ (truthy (get options "debug") = false ->
              In (EAct SCleanup (ARemove (JStr d)) None) T1)).
Proof.
  intros options d T. subst T. split; [| split].
  - (* every step but the checkout is announced *)
    apply scan_preceded.
    apply (deploy_trace_closed
             (self_contained (wants_status (except_checkout (step_status options d)))));
      fold options; fold d.
    + intros seen. exact I.
    + apply self_contained_app.
    + intros arg seen. split; [intros e' [] | exact I].
    + intros r seen. split; [intros e' [] | exact I].
    + apply handler_self_contained.
    + apply stages_self_contained.
  - (* the checkout *)
    intros a r Hin.
    destruct (deploy_cases E commandOptions m) as [(Hcb & _)|Heq].
    { now apply not_action_of_callbacks in Hin. }
    fold options in Heq. rewrite Heq in *. clear Heq.
    subst d. unfold workspace_name.
    destruct (createDir E template m) as [e|draws] eqn:Hc.
    { destruct (pipeline_no_workspace E options m e Hc) as (Hev & _).
      rewrite Hev in Hin. destruct Hin as [Hin|Hin]; [discriminate |].
      apply (In_past_checkout _ _ _ _ (handler_events_past_checkout _ _ _)) in Hin.
      now destruct Hin. }
    destruct (pipeline_workspace E options m draws Hc) as (T & res & Hshape & _ & _ & Hev).
    set (d := fill template draws) in *.
    assert (Hall : exists H, events (pipeline E options (initial m)) =
                     EAct SCreate (ACreateDir template) None :: T ++ H
                     /\ Forall past_checkout H
                     /\ Forall (other_than_checking_out options) H).
    { destruct res as [e|[]].
      - destruct Hev as [Hev _]. exists (handler_events options (JStr d) e).
        split; [exact Hev |].
        split; [apply handler_events_past_checkout | apply handler_events_other_message].
      - exists []. rewrite app_nil_r. repeat split; [exact Hev | constructor | constructor]. }
    destruct Hall as (H & Hall & Hpast & Hother). rewrite Hall in *. clear Hev Hall.
    destruct Hin as [Hin|Hin]; [discriminate |].
    apply in_app_or in Hin as [Hin|Hin];
      [| apply (In_past_checkout _ _ _ _ Hpast) in Hin; now destruct Hin].
    destruct (checkout_in_stages E options d T res a r Hshape Hin) as (T2 & -> & Hr).
    exists [EAct SCreate (ACreateDir template) None; status (cloning_message d);
            EAct SClone (AInvoke (clone_command options d)) None], (T2 ++ H).
    split; [cbn [app]; now rewrite <- ?app_assoc |].
    split.
    + intros [Hx|[Hx|[Hx|[]]]]; discriminate.
    + destruct r as [e1|].
      * apply (Forall_not_In (other_than_checking_out options)).
        -- apply Forall_app. now split.
        -- intros Hx. now apply Hx.
      * destruct Hr as (T3 & ->). now exists (T3 ++ H).
  - (* the success message *)
    intros Hin.
    assert (Hns : ~ not_success (ELog success_message "success")) by (intros Hx; exact Hx).
    destruct (deploy_cases E commandOptions m) as [(Hcb & _)|Heq].
    { exfalso. rewrite Forall_forall in Hcb. apply list_elem_of_In in Hin.
      destruct (Hcb _ Hin) as [arg Harg]. discriminate. }
    fold options in Heq. rewrite Heq in *. clear Heq.
    subst d. unfold workspace_name.
    destruct (createDir E template m) as [e|draws] eqn:Hc.
    { destruct (pipeline_no_workspace E options m e Hc) as (Hev & _).
      rewrite Hev in Hin. destruct Hin as [Hin|Hin]; [discriminate |].
      exfalso. revert Hin.
      apply (Forall_not_In not_success); [apply handler_events_not_success | exact Hns]. }
    destruct (pipeline_workspace E options m draws Hc) as (T & res & Hshape & _ & _ & Hev).
    set (d := fill template draws) in *.
    pose proof (success_is_last E options d T res Hshape) as Hlast.
    destruct res as [e|[]].
    + exfalso. destruct Hev as [Hev _]. rewrite Hev in Hin.
      destruct Hin as [Hin|Hin]; [discriminate |]. revert Hin.
      apply (Forall_not_In not_success); [| exact Hns].
      apply Forall_app. split; [exact Hlast | apply handler_events_not_success].
    + destruct Hlast as (T1 & -> & Hquiet & Hpush & Hclean). rewrite Hev.
      exists (EAct SCreate (ACreateDir template) None :: T1).
      split; [reflexivity |]. split.
      * intros [Hx|Hx]; [discriminate |]. revert Hx.
        now apply (Forall_not_In not_success).
      * split; [now right |]. intros Hdbg. right. now apply Hclean.
Qed.

(** C8 as stated fails on the checkout: in a run where everything
    succeeds, [git checkout] is run when its status message has not been
    emitted yet. *)
Lemma status_before_step_counterexample :
  let E := Sample.all_ok in
  let options := merge_options (AquiferGitConfig E) Sample.basic in
  let d := workspace_name E Sample.empty_fs in
  let T := events (deploy E Sample.basic Sample.empty_fs) in
  result (deploy E Sample.basic Sample.empty_fs) = inr tt
  /\ ~ announced_before (step_status options d) T.
Proof.
  split; [vm_compute; reflexivity |].
  intros H.
  specialize (H [EAct SCreate (ACreateDir template) None;
                 status "Cloning the repository into aquifer-git-abc1234...";
                 EAct SClone (AInvoke "git clone repo.git aquifer-git-abc1234") None]
                (EAct SCheckout
                   (AInvoke "git -C /p/aquifer-git-abc1234 checkout gh-pages") None)
                (skipn 4 (events (deploy Sample.all_ok Sample.basic Sample.empty_fs)))
                (status "Checking out branch: gh-pages...")).
  assert (Hin : In (status "Checking out branch: gh-pages...")
                  [EAct SCreate (ACreateDir template) None;
                   status "Cloning the repository into aquifer-git-abc1234...";
                   EAct SClone (AInvoke "git clone repo.git aquifer-git-abc1234") None]).
  { apply H; [vm_compute; reflexivity | vm_compute; now left]. }
  destruct Hin as [Hx|[Hx|[Hx|[]]]]; discriminate.
Qed.

(** ** The workspace after the run *)

Lemma ensures_bind {A B} (I : state -> Prop) (m : M A) (k : A -> M B) (Q : state -> Prop) :
  preserves I m -> (forall a, ensures I (k a) Q) -> ensures I (bind m k) Q.
Proof.
  intros Hm Hk s Hs b. unfold bind.
  destruct (result (m s)) as [e|a] eqn:Hr; cbn; [discriminate |].
  apply Hk. now apply Hm.
Qed.

Lemma stage_sat_preserves (I : state -> Prop) (m : M unit) (seg : segment) :
  stage_sat I m seg -> preserves I m.
Proof. intros H s Hs. now destruct (H s Hs). Qed.

Lemma fs_remove_gone (l : location) (m : FS) : fs_remove l m l = None.
Proof. unfold fs_remove. now rewrite below_refl. Qed.

Lemma fs_remove_spared (l ws : location) (m : FS) :
  below l ws = false -> fs_remove l m ws = m ws.
Proof. unfold fs_remove. now intros ->. Qed.

Lemma fs_copy_present (s t ws : location) (m : FS) :
  present m ws -> present (fs_copy s t m) ws.
Proof.
  unfold present, fs_copy. intros H.
  destruct (strip_prefix t ws) as [r|]; [| exact H].
  destruct (m (s ++ r)); [discriminate | exact H].
Qed.

Section Cleanup.

Context (E : Env) (options : object) (d : string).
Hypothesis Hd : plain d = true.

Let ws : location := resolve (cwd E) d.

(** With [debug] off, a chain that succeeds ends with the workspace
    removed. *)
Lemma after_clone_cleans :
  truthy (get options "debug") = false ->
  ensures (at_workspace d) (after_clone E options) (fun s => fs s ws = None).
Proof.
  intros Hdbg. unfold after_clone, mbind, M_bind.
  apply ensures_bind; [exact (stage_sat_preserves _ _ _ (checkout_step_sat E options d)) |].
  intros _.
  apply ensures_bind; [exact (stage_sat_preserves _ _ _ (build_step_sat E options d)) |].
  intros _.
  apply ensures_bind; [exact (stage_sat_preserves _ _ _ (copy_step_sat E options d)) |].
  intros _.
  apply ensures_bind; [exact (stage_sat_preserves _ _ _ (index_step_sat E d)) |].
  intros _.
  apply ensures_bind; [exact (stage_sat_preserves _ _ _ (stage_step_sat E d)) |].
  intros _.
  apply ensures_bind; [exact (stage_sat_preserves _ _ _ (commit_step_sat E options d)) |].
  intros _.
  apply ensures_bind; [exact (stage_sat_preserves _ _ _ (push_step_sat E options d)) |].
  intros _ [m v] Hs a _. unfold at_workspace in Hs. cbn in Hs. subst v.
  rewrite (bind_resolved _ _ _ _ _ _
             (eq_trans (cleanup_step_outcome E options d m Hd)
                       ltac:(rewrite Hdbg; reflexivity))).
  cbn. apply fs_remove_gone.
Qed.

Lemma chain_success_cleans :
  truthy (get options "debug") = false ->
  ensures (fun _ => True)
    (clone_step E options d;; after_clone E options) (fun s => fs s ws = None).
Proof.
  intros Hdbg [m0 v0] _ a. unfold mbind, M_bind, bind.
  rewrite clone_step_outcome. unfold invoked. cbn [result final events].
  destruct (invoke E (clone_command options d) m0) as [[e|] m1]; cbn [fst snd];
    [discriminate |].
  intros Hr. cbn [result final] in *.
  exact (after_clone_cleans Hdbg {| fs := m1; destPath := JStr d |} eq_refl _ Hr).
Qed.

End Cleanup.

Section Kept.

Context (E : Env) (options : object) (d : string).

Let ws : location := resolve (cwd E) d.

Hypothesis Hkeeps : env_keeps E ws.
Hypothesis Hfiles : files_keep E options d ws.
Hypothesis Hdbg : truthy (get options "debug") = true.

(** The workspace is there and [destPath] names it. *)
Let kept (s : state) : Prop := destPath s = JStr d /\ present (fs s) ws.

Ltac enter_kept :=
  let m := fresh "m" in
  let v := fresh "v" in
  let Hp := fresh "Hp" in
  intros [m v] [Hv Hp]; cbn in Hv, Hp; subst v.

Lemma invoked_kept (st : step) (commandLine : string) (pre : list event) (m : FS) :
  present m ws -> kept (final (invoked E d st commandLine pre m)).
Proof.
  intros Hp. unfold invoked. cbn. split; [reflexivity |]. now apply Hkeeps.
Qed.

Lemma checkout_step_kept : preserves kept (checkout_step E options).
Proof.
  enter_kept. rewrite checkout_step_outcome. cbv zeta.
  pose proof (proj1 Hkeeps (checkout_command E options d) m Hp) as Hp1.
  destruct (invoke E (checkout_command E options d) m) as [[e1|] m1]; cbn [fst snd] in *.
  - now apply invoked_kept.
  - now split.
Qed.

Lemma build_step_kept : preserves kept (build_step E options).
Proof.
  enter_kept. rewrite build_step_outcome.
  destruct (build_path E options d) as [e|bp]; cbn; [now split |].
  split; [reflexivity |]. now apply Hkeeps.
Qed.

Lemma copy_link_kept (link : jsval) :
  In link (deployment_links options) ->
  preserves kept (copy_link E link).
Proof.
  intros Hin. enter_kept. rewrite copy_link_outcome.
  destruct (link_strings E d link) as [e|[src dest]] eqn:Hl; [now split |].
  destruct Hfiles as [_ Hlinks]. destruct (Hlinks link src dest Hin Hl) as [Hrm Hcp].
  cbv zeta. pose proof (Hrm m Hp) as Hp1.
  destruct (remove_outcome E dest m) as [[e|] m1]; cbn [fst snd] in *; [now split |].
  split; [reflexivity |]. cbn [final fs]. now apply Hcp.
Qed.

Lemma copy_step_kept : preserves kept (copy_step E options).
Proof.
  intros s Hs. rewrite copy_step_final. revert s Hs.
  pose proof copy_link_kept as Hlink.
  unfold copy_files, deployment_links in *.
  destruct (get options "deploymentFiles") as [| |b|str|links|fields];
    try (intros s Hs; exact Hs).
  apply preserves_forEach. intros link Hin. now apply Hlink.
Qed.

Lemma index_step_kept : preserves kept (index_step E).
Proof.
  enter_kept. rewrite index_step_outcome. cbv zeta. split; [reflexivity |].
  cbn [final fs]. now apply Hfiles.
Qed.

Lemma stage_step_kept : preserves kept (stage_step E).
Proof. enter_kept. rewrite stage_step_outcome. now apply invoked_kept. Qed.

Lemma commit_step_kept : preserves kept (commit_step E options).
Proof. enter_kept. rewrite commit_step_outcome. now apply invoked_kept. Qed.

Lemma push_step_kept : preserves kept (push_step E options).
Proof. enter_kept. rewrite push_step_outcome. now apply invoked_kept. Qed.

Lemma cleanup_step_kept : preserves kept (cleanup_step E options).
Proof. intros s Hs. unfold cleanup_step. rewrite Hdbg. exact Hs. Qed.

Lemma after_clone_kept : preserves kept (after_clone E options).
Proof.
  unfold after_clone, mbind, M_bind.
  repeat (apply preserves_bind;
          [first [ apply checkout_step_kept | apply build_step_kept | apply copy_step_kept
                 | apply index_step_kept | apply stage_step_kept | apply commit_step_kept
                 | apply push_step_kept | apply cleanup_step_kept ] | intros _]).
  intros s Hs. exact Hs.
Qed.

(** From the clone on, in a state where the workspace is there. *)
Lemma from_clone_kept (m : FS) (v : jsval) :
  present m ws ->
  kept (final ((clone_step E options d;; after_clone E options)
                 {| fs := m; destPath := v |})).
Proof.
  intros Hp. unfold mbind, M_bind, bind. rewrite clone_step_outcome.
  pose proof (invoked_kept SClone (clone_command options d)
                [status (cloning_message d)] m Hp) as Hk.
  destruct (result (invoked E d SClone (clone_command options d)
                      [status (cloning_message d)] m)); cbn [final]; [exact Hk |].
  now apply after_clone_kept.
Qed.

Lemma on_error_kept (err : error) : preserves kept (on_error E options err).
Proof. intros s Hs. rewrite on_error_debugging by exact Hdbg. exact Hs. Qed.

End Kept.

Lemma fs_mkdir_present (l : location) (m : FS) : present (fs_mkdir l m) l.
Proof. unfold present, fs_mkdir. now rewrite decide_True. Qed.

Lemma handler_events_debug (options : object) v err :
  truthy (get options "debug") = true ->
  handler_events options v err = [ECallback (Raised err)].
Proof. intros Hdbg. unfold handler_events. now rewrite Hdbg. Qed.



(** ** The copy of the deployment files *)

Lemma apart_source_not_below (S T r : location) :
  apart S T -> below T (S ++ r) = false.
Proof.
  intros [H1 H2]. destruct (below T (S ++ r)) eqn:Hb; [| reflexivity].
  destruct (below_comparable T S (S ++ r) Hb (below_app S r)) as [H|H]; congruence.
Qed.

Lemma fs_remove_elsewhere (T q : location) (m : FS) :
  below T q = false -> fs_remove T m q = m q.
Proof. unfold fs_remove. now intros ->. Qed.

Lemma fs_copy_elsewhere (S T q : location) (m : FS) :
  below T q = false -> fs_copy S T m q = m q.
Proof.
  unfold fs_copy, below. destruct (strip_prefix T q); [discriminate | reflexivity].
Qed.

Lemma fs_copy_remove_below (S T r : location) (m : FS) :
  apart S T ->
  fs_copy S T (fs_remove T m) (T ++ r) = m (S ++ r).
Proof.
  intros Hapart. unfold fs_copy. rewrite strip_prefix_app.
  rewrite (fs_remove_elsewhere T (S ++ r)) by now apply apart_source_not_below.
  destruct (m (S ++ r)); [reflexivity |].
  unfold fs_remove. now rewrite below_app.
Qed.

Lemma below_trans (a b c : location) :
  below a b = true -> below b c = true -> below a c = true.
Proof.
  intros [r ->]%below_true [r' ->]%below_true. rewrite <- app_assoc. apply below_app.
Qed.

Lemma below_antisym (a b : location) :
  below a b = true -> below b a = true -> a = b.
Proof.
  intros [r ->]%below_true [r' H]%below_true.
  rewrite <- app_assoc in H. apply (f_equal length) in H.
  rewrite !length_app in H. destruct r; [now rewrite app_nil_r | cbn in H; lia].
Qed.

Lemma below_take (k : nat) (l : location) : below (take k l) l = true.
Proof. rewrite <- (take_drop k l) at 2. apply below_app. Qed.

Lemma take_proper (k : nat) (l : location) : k < length l -> take k l <> l.
Proof.
  intros Hk H. apply (f_equal length) in H. rewrite length_take in H. lia.
Qed.

Lemma crosses_file_ext (m m' : FS) (l : location) :
  (forall k, m (take k l) = m' (take k l)) -> crosses_file m l = crosses_file m' l.
Proof.
  intros H. unfold crosses_file. generalize (seq 0 (length l)) as ks.
  induction ks as [|k ks IH]; [reflexivity |]. cbn. now rewrite H, IH.
Qed.

Lemma ready_remove (T : location) (m : FS) : ready m T -> ready (fs_remove T m) T.
Proof.
  intros H k Hk. rewrite fs_remove_elsewhere; [now apply H |].
  destruct (below T (take k T)) eqn:Hb; [| reflexivity].
  destruct (take_proper k T Hk). apply below_antisym; [apply below_take | exact Hb].
Qed.

Lemma cleared_remove (T : location) (m : FS) : cleared (fs_remove T m) T.
Proof. intros r. unfold fs_remove. now rewrite below_app. Qed.

Section Copy.

Context (E : Env) (d : string).

Lemma link_locations_strings (link : jsval) (src dest : string) :
  link_strings E d link = inr (src, dest) ->
  link_locations E d link = Some (resolve (cwd E) src, resolve (cwd E) dest).
Proof. unfold link_locations. now intros ->. Qed.

Lemma copy_outcome_missing (src dest : string) (m : FS) :
  m (resolve (cwd E) src) = None ->
  copy_outcome E src dest m =
    (Some (if crosses_file m (resolve (cwd E) src) then ENOTDIR src else ENOENT src), m).
Proof. intros H. unfold copy_outcome. now rewrite H. Qed.

Context (links : list jsval).

Hypothesis Hsep : sources_apart E d links links.
Hypothesis Hnest : unnested E d links.
Hypothesis Hlit : forall l, In l links -> literal E d l.

(** What the loop body does for a link of the list when the
    directories above its destination exist. *)
Lemma link_step (l : jsval) (src dest : string) (m : FS) :
  In l links ->
  link_strings E d l = inr (src, dest) ->
  let S := resolve (cwd E) src in
  let T := resolve (cwd E) dest in
  ready m T ->
  copy_link E l (at_step d m) =
    match m S with
    | None =>
        let err := if crosses_file m S then ENOTDIR src else ENOENT src in
        {| events := [EAct SCopy (ARemove (JStr dest)) None;
                      EAct SCopy (ACopy src dest) (Some err)];
           result := inl err;
           final := at_step d (fs_remove T m) |}
    | Some _ =>
        {| events := [EAct SCopy (ARemove (JStr dest)) None;
                      EAct SCopy (ACopy src dest) None];
           result := inr tt;
           final := at_step d (fs_copy S T (fs_remove T m)) |}
    end.
Proof.
  intros Hin Hl S T Hready.
  pose proof (link_locations_strings l src dest Hl) as Hloc. fold S T in Hloc.
  assert (Hap : apart S T) by (apply (Hsep l l S T S T); assumption).
  destruct (Hlit l Hin src dest Hl) as [Hrm Hcp]. fold S T in Hrm, Hcp.
  unfold at_step. rewrite copy_link_outcome, Hl. cbv zeta.
  rewrite (Hrm m Hready). cbn [fst snd].
  assert (HS : fs_remove T m S = m S) by (apply fs_remove_elsewhere, Hap).
  destruct (m S) as [entry|] eqn:HmS.
  - rewrite Hcp; [reflexivity | now apply ready_remove | apply cleared_remove |].
    rewrite HS. discriminate.
  - rewrite copy_outcome_missing by exact HS. fold S. cbn [fst snd].
    assert (Hcross : crosses_file (fs_remove T m) S = crosses_file m S).
    { apply crosses_file_ext. intros k. apply fs_remove_elsewhere.
      destruct (below T (take k S)) eqn:Hb; [| reflexivity].
      destruct Hap as [_ Hap]. rewrite <- Hap. symmetry.
      apply (below_trans _ _ _ Hb), below_take. }
    rewrite Hcross. reflexivity.
Qed.

(** A location at, below or above a source is not at or below a
    destination. *)
Lemma source_region_untouched (l l' : jsval) (S T S' T' q : location) :
  In l links -> In l' links ->
  link_locations E d l = Some (S, T) ->
  link_locations E d l' = Some (S', T') ->
  below S' q = true \/ below q S' = true ->
  below T q = false.
Proof.
  intros Hin Hin' Hloc Hloc' Hq.
  destruct (Hsep l' l S' T' S T Hin' Hin Hloc' Hloc) as [H1 H2].
  destruct (below T q) eqn:Hb; [| reflexivity]. destruct Hq as [Hq|Hq].
  - destruct (below_comparable S' T q Hq Hb); congruence.
  - pose proof (below_trans _ _ _ Hb Hq). congruence.
Qed.

(** A directory above a destination is not at or below a destination. *)
Lemma ancestors_untouched (l l' : jsval) (S T S' T' : location) (k : nat) :
  In l links -> In l' links ->
  link_locations E d l = Some (S, T) ->
  link_locations E d l' = Some (S', T') ->
  k < length T' ->
  below T (take k T') = false.
Proof.
  intros Hin Hin' Hloc Hloc' Hk.
  destruct (below T (take k T')) eqn:Hb; [| reflexivity].
  pose proof (below_trans _ _ _ Hb (below_take k T')) as HTT.
  pose proof (Hnest l l' S T S' T' Hin Hin' Hloc Hloc' HTT) as ->.
  destruct (take_proper k T' Hk). apply below_antisym; [apply below_take | exact Hb].
Qed.

(** What one link changes lies at or below its destination: the
    sources and the directories above the destinations stay. *)
Lemma same_sources_step (l : jsval) (S T : location) (m m' n n' : FS) :
  In l links ->
  link_locations E d l = Some (S, T) ->
  (forall q, below T q = false -> n q = m q) ->
  (forall q, below T q = false -> n' q = m' q) ->
  same_sources E d links m m' ->
  same_sources E d links n n'.
Proof.
  intros Hin Hloc Hn Hn' Hsame l' S' T' q Hin' Hloc' Hq.
  pose proof (source_region_untouched l l' S T S' T' q Hin Hin' Hloc Hloc' Hq) as Hb.
  rewrite Hn, Hn' by exact Hb. now apply (Hsame l' S' T' q).
Qed.

Lemma ready_step (l : jsval) (S T : location) (m n : FS) :
  In l links ->
  link_locations E d l = Some (S, T) ->
  (forall q, below T q = false -> n q = m q) ->
  destinations_ready E d links m ->
  destinations_ready E d links n.
Proof.
  intros Hin Hloc Hn Hrdy l' S' T' Hin' Hloc' k Hk.
  rewrite Hn by now apply (ancestors_untouched l l' S T S' T').
  now apply (Hrdy l' S' T').
Qed.

Lemma copied_elsewhere (S T q : location) (m : FS) :
  below T q = false -> fs_copy S T (fs_remove T m) q = m q.
Proof.
  intros Hb. rewrite fs_copy_elsewhere by exact Hb. now apply fs_remove_elsewhere.
Qed.

(** Running the loop on two file systems that hold the same sources:
    same trace, same result, and at every location the two final file
    systems agree or are both what they were at the start. *)
Lemma copy_loop_compare (ops : list jsval) :
  (forall l, In l ops -> In l links) ->
  forall m m',
    same_sources E d links m m' ->
    destinations_ready E d links m ->
    destinations_ready E d links m' ->
    let o := forEach (copy_link E) ops (at_step d m) in
    let o' := forEach (copy_link E) ops (at_step d m') in
    events o' = events o
    /\ result o' = result o
    /\ forall q, fs (final o') q = fs (final o) q
                 \/ (fs (final o) q = m q /\ fs (final o') q = m' q).
Proof.
  induction ops as [|l ops IH]; intros Hsub m m' Hsame Hrdy Hrdy'; cbn zeta.
  { cbn. repeat split. intros q. right. now split. }
  assert (Hin : In l links) by (apply Hsub; now left).
  assert (Hsub' : forall l0, In l0 ops -> In l0 links)
    by (intros l0 H0; apply Hsub; now right).
  cbn [forEach]. unfold mbind, M_bind.
  destruct (link_strings E d l) as [e|[src dest]] eqn:Hl.
  { pose proof (copy_link_outcome E d l m) as Ho.
    pose proof (copy_link_outcome E d l m') as Ho'.
    rewrite Hl in Ho, Ho'. fold (at_step d m) in Ho. fold (at_step d m') in Ho'.
    rewrite (bind_rejected _ _ _ _ _ _ Ho), (bind_rejected _ _ _ _ _ _ Ho').
    cbn. repeat split. intros q. right. now split. }
  pose proof (link_locations_strings l src dest Hl) as Hloc.
  pose proof (link_step l src dest m Hin Hl (Hrdy l _ _ Hin Hloc)) as Ho.
  pose proof (link_step l src dest m' Hin Hl (Hrdy' l _ _ Hin Hloc)) as Ho'.
  cbv zeta in Ho, Ho'.
  set (S := resolve (cwd E) src) in *. set (T := resolve (cwd E) dest) in *.
  assert (Hap : apart S T) by (apply (Hsep l l S T S T); assumption).
  assert (HS : m' S = m S).
  { symmetry. apply (Hsame l S T S Hin Hloc). left. apply below_refl. }
  assert (Hcross : crosses_file m' S = crosses_file m S).
  { apply crosses_file_ext. intros k. symmetry.
    apply (Hsame l S T _ Hin Hloc). right. apply below_take. }
  rewrite HS, Hcross in Ho'.
  destruct (m S) as [entry|].
  - (* the source is there: the copy is made and the loop goes on *)
    rewrite (bind_resolved _ _ _ _ _ _ Ho), (bind_resolved _ _ _ _ _ _ Ho').
    cbn [events result final].
    destruct (IH Hsub' (fs_copy S T (fs_remove T m)) (fs_copy S T (fs_remove T m')))
      as (Hev & Hres & Hfs).
    + apply (same_sources_step l S T m m'); try assumption;
        intros q Hq; now apply copied_elsewhere.
    + apply (ready_step l S T m); try assumption.
      intros q Hq; now apply copied_elsewhere.
    + apply (ready_step l S T m'); try assumption.
      intros q Hq; now apply copied_elsewhere.
    + split; [now rewrite Hev |]. split; [exact Hres |].
      intros q. destruct (Hfs q) as [Hq|[Hq Hq']]; [now left |].
      rewrite Hq, Hq'. destruct (below T q) eqn:Hb.
      * left. apply below_true in Hb as [r ->].
        rewrite !fs_copy_remove_below by exact Hap.
        symmetry. apply (Hsame l S T (S ++ r) Hin Hloc). left. apply below_app.
      * right. rewrite !copied_elsewhere by exact Hb. now split.
  - (* the source is missing: the copy throws *)
    rewrite (bind_rejected _ _ _ _ _ _ Ho), (bind_rejected _ _ _ _ _ _ Ho').
    cbn [events result final fs at_step].
    repeat split. intros q. destruct (below T q) eqn:Hb.
    + left. unfold fs_remove. now rewrite Hb.
    + right. rewrite !fs_remove_elsewhere by exact Hb. now split.
Qed.

(** The loop changes neither the sources nor the directories above the
    destinations. *)
Lemma copy_loop_keeps (ops : list jsval) :
  (forall l, In l ops -> In l links) ->
  forall m,
    destinations_ready E d links m ->
    let n := fs (final (forEach (copy_link E) ops (at_step d m))) in
    same_sources E d links m n /\ destinations_ready E d links n.
Proof.
  induction ops as [|l ops IH]; intros Hsub m Hrdy; cbn zeta.
  { split; [intros l S T q _ _ _; reflexivity | exact Hrdy]. }
  assert (Hin : In l links) by (apply Hsub; now left).
  assert (Hsub' : forall l0, In l0 ops -> In l0 links)
    by (intros l0 H0; apply Hsub; now right).
  cbn [forEach]. unfold mbind, M_bind.
  destruct (link_strings E d l) as [e|[src dest]] eqn:Hl.
  { pose proof (copy_link_outcome E d l m) as Ho.
    rewrite Hl in Ho. fold (at_step d m) in Ho.
    rewrite (bind_rejected _ _ _ _ _ _ Ho). cbn.
    split; [intros l0 S T q _ _ _; reflexivity | exact Hrdy]. }
  pose proof (link_locations_strings l src dest Hl) as Hloc.
  pose proof (link_step l src dest m Hin Hl (Hrdy l _ _ Hin Hloc)) as Ho.
  cbv zeta in Ho.
  set (S := resolve (cwd E) src) in *. set (T := resolve (cwd E) dest) in *.
  destruct (m S) as [entry|].
  - rewrite (bind_resolved _ _ _ _ _ _ Ho). cbn [final].
    assert (Hrdy1 : destinations_ready E d links (fs_copy S T (fs_remove T m))).
    { apply (ready_step l S T m); try assumption.
      intros q Hq; now apply copied_elsewhere. }
    destruct (IH Hsub' _ Hrdy1) as [Hsame Hrdy2]. cbv zeta in Hsame, Hrdy2.
    split; [| exact Hrdy2].
    intros l' S' T' q Hin' Hloc' Hq.
    rewrite <- (Hsame l' S' T' q Hin' Hloc' Hq). symmetry. apply copied_elsewhere.
    now apply (source_region_untouched l l' S T S' T').
  - rewrite (bind_rejected _ _ _ _ _ _ Ho). cbn [final fs at_step]. split.
    + intros l' S' T' q Hin' Hloc' Hq. symmetry. apply fs_remove_elsewhere.
      now apply (source_region_untouched l l' S T S' T').
    + apply (ready_step l S T m); try assumption.
      intros q Hq. now apply fs_remove_elsewhere.
Qed.

(** The loop run twice leaves what the loop run once leaves. *)
Lemma copy_loop_idempotent (m : FS) :
  destinations_ready E d links m ->
  let o1 := forEach (copy_link E) links (at_step d m) in
  let o2 := forEach (copy_link E) links (final o1) in
  events o2 = events o1
  /\ result o2 = result o1
  /\ forall q, fs (final o2) q = fs (final o1) q.
Proof.
  intros Hrdy o1 o2. subst o2.
  pose proof (copy_loop_final E d links (at_step d m) eq_refl) as HI.
  fold o1 in HI. unfold at_workspace in HI.
  assert (Hfinal : final o1 = at_step d (fs (final o1))).
  { destruct (final o1) as [m1 v1]. cbn in HI. now subst v1. }
  rewrite Hfinal.
  destruct (copy_loop_keeps links (fun l H => H) m Hrdy) as [Hsame Hrdy1].
  cbv zeta in Hsame, Hrdy1. fold o1 in Hsame, Hrdy1.
  destruct (copy_loop_compare links (fun l H => H) m (fs (final o1)) Hsame Hrdy Hrdy1)
    as (Hev & Hres & Hfs).
  fold o1 in Hev, Hres, Hfs.
  split; [exact Hev |]. split; [exact Hres |].
  intros q. destruct (Hfs q) as [Hq|[_ Hq]]; exact Hq.
Qed.

End Copy.


(** The file operations of [Sample.all_ok] take every path literally. *)
Lemma all_ok_literal (d : string) (link : jsval) : literal Sample.all_ok d link.
Proof.
  intros src dest _. split.
  - intros m _. unfold remove_outcome. destruct (plain dest); reflexivity.
  - intros m _ _ Hsrc. unfold copy_outcome. cbn [cwd Sample.all_ok] in *.
    destruct (m (resolve ["p"] src)); [reflexivity | contradiction].
Qed.



(** ** Instances *)


Lemma status_before_step_except_checkout_witness :
  let E := Sample.all_ok in
  let commandOptions := Sample.basic in
  let m := Sample.empty_fs in
  let options := merge_options (AquiferGitConfig E) commandOptions in
  let d := workspace_name E m in
  let T := events (deploy E commandOptions m) in
  announced_before (except_checkout (step_status options d)) T
  /\ (forall a r, In (EAct SCheckout a r) T ->
        exists T0 T2,
          T = T0 ++ EAct SCheckout a r :: T2
          /\ ~ In (status (checking_out_message options)) T0
          /\ match r with
             | None => exists T3, T2 = status (checking_out_message options) :: T3
             | Some _ => ~ In (status (checking_out_message options)) T2
             end)
  /\ (In (ELog success_message "success") T ->
        exists T1,
          T = T1 ++ [ELog success_message "success"]
          /\ ~ In (ELog success_message "success") T1
          /\ In (EAct SPush (AInvoke (push_command E options d)) None) T1
          /\ (truthy (get options "debug") = false ->
              In (EAct SCleanup (ARemove (JStr d)) None) T1)).
Proof.
  exact (status_before_step_except_checkout Sample.all_ok Sample.basic Sample.empty_fs).
Defined.

(** The commit command of a run with a name and no email. *)
Example commit_command_named :
  commit_command (merge_options ∅ Sample.named) (git Sample.all_ok "aquifer-git-abc1234") =
  "git -C /p/aquifer-git-abc1234 commit -m " +:+ dquote +:+ "deploy" +:+ dquote +:+
  " --author " +:+ dquote +:+ "Ann <>" +:+ dquote.
Proof. vm_compute. reflexivity. Qed.

(** The commit command of a run with a name and an email. *)
Example commit_command_signed :
  commit_command (merge_options ∅ Sample.signed) (git Sample.all_ok "aquifer-git-abc1234") =
  "git -C /p/aquifer-git-abc1234 commit -m " +:+ dquote +:+ "deploy" +:+ dquote +:+
  " --author " +:+ dquote +:+ "Ann <ann@example.org>" +:+ dquote.
Proof. vm_compute. reflexivity. Qed.

(** The commit command of a run without a name. *)
Example commit_command_plain :
  commit_command (merge_options ∅ Sample.basic) (git Sample.all_ok "aquifer-git-abc1234") =
  "git -C /p/aquifer-git-abc1234 commit -m " +:+ dquote +:+ "deploy" +:+ dquote.
Proof. vm_compute. reflexivity. Qed.

(** * Further properties of the code *)

(** ** The command dispatch and the declared defaults *)

(** The pipeline never calls back with a message of its own: what it
    hands to the callback is the reason of a rejection. *)
Lemma pipeline_reports_errors_only (E : Env) (options : object) (m : FS) :
  Forall not_message (events (pipeline E options (initial m))).
Proof.
  assert (Hh : forall v err, Forall not_message (handler_events options v err)).
  { intros v err. unfold handler_events.
    destruct (truthy (get options "debug")); [repeat constructor |].
    destruct v; repeat constructor.
    destruct (String.eqb s EmptyString); repeat constructor. }
  destruct (createDir E template m) as [e|draws] eqn:Hc.
  - destruct (pipeline_no_workspace E options m e Hc) as (Hev & _).
    rewrite Hev. constructor; [exact I | apply Hh].
  - destruct (pipeline_workspace E options m draws Hc) as (T & res & Hshape & _ & _ & Hev).
    assert (HT : Forall not_message T).
    { revert Hshape. apply seq_shape_Forall. unfold stages. segments_Forall. }
    destruct res as [e|[]].
    + destruct Hev as [Hev _]. rewrite Hev. constructor; [exact I |].
      apply Forall_app. split; [exact HT | apply Hh].
    + rewrite Hev. constructor; [exact I | exact HT].
Qed.

(** X1: [run] serves the commands [commands()] declares and no other:
    for a declared command it never calls back with the invalid-command
    message, and for any other command name it calls back once with
    that message and does nothing else, whatever the options and the
    environment. *)
Theorem dispatch_matches_declaration (E : Env) (command : string)
        (commandOptions : object) (m : FS) :
  let o := run E command commandOptions (initial m) in
  (In command declared_commands ->
   ~ In (ECallback (Message "Invalid command.")) (events o))
  /\ (~ In command declared_commands ->
      o = {| events := [ECallback (Message "Invalid command.")];
             result := inr tt;
             final := initial m |}).
Proof.
  cbv zeta. split.
  - intros Hin.
    assert (command = "deploy-git") as -> by (destruct Hin as [<-|[]]; reflexivity).
    clear Hin.
    change (run E "deploy-git" commandOptions (initial m))
      with (deploy E commandOptions m).
    set (options := merge_options (AquiferGitConfig E) commandOptions).
    destruct (missing options) as [|n ns] eqn:Hm.
    + destruct (truthy (get options "email") && negb (truthy (get options "name")))
        eqn:Hsig.
      * apply andb_true_iff in Hsig as [He Hn]. apply negb_true_iff in Hn.
        rewrite (deploy_bad_signature E commandOptions m Hm He Hn).
        intros [H|[]]. discriminate H.
      * rewrite (deploy_valid E commandOptions m Hm Hsig). fold options.
        apply (Forall_not_In not_message).
        -- apply pipeline_reports_errors_only.
        -- intros H. exact H.
    + rewrite (deploy_missing E commandOptions m) by (fold options; congruence).
      fold options. cbn [events]. intros Hin.
      apply in_map_iff in Hin as (name & Hname & _).
      unfold missing_report, missing_message, dquote in Hname. discriminate Hname.
  - intros Hnot. unfold run.
    destruct (String.eqb_spec command "deploy-git") as [->|Hne].
    + exfalso. apply Hnot. now left.
    + reflexivity.
Qed.

Lemma dispatch_matches_declaration_witness :
  run Sample.all_ok "deploy" Sample.basic (initial Sample.empty_fs) =
    {| events := [ECallback (Message "Invalid command.")];
       result := inr tt;
       final := initial Sample.empty_fs |}.
Proof.
  destruct (dispatch_matches_declaration Sample.all_ok "deploy" Sample.basic
              Sample.empty_fs) as [_ Hother].
  apply Hother. intros [H|[]]. discriminate H.
Defined.

(** X2: the declared default of [message] is truthy, so when the command
    line holds that default (the flag was not given) it replaces a
    message set in the static configuration: the merged message is the
    declared default whatever the configuration says, and [message] is
    never reported missing. *)
Theorem default_message_overrides_config (E : Env) (commandOptions : object) (m : FS) :
  get commandOptions "message" = declared_default "deploy-git" "message" ->
  get (merge_options (AquiferGitConfig E) commandOptions) "message" =
    JStr "Deployment from source repository."
  /\ ~ In (missing_report "message") (events (deploy E commandOptions m)).
Proof.
  intros Hcli. set (options := merge_options (AquiferGitConfig E) commandOptions).
  assert (Hmsg : get options "message" = JStr "Deployment from source repository.").
  { unfold options. rewrite get_merge_options, Hcli. reflexivity. }
  split; [exact Hmsg |].
  intros Hin.
  destruct (missing options) as [|n ns] eqn:Hm.
  - destruct (truthy (get options "email") && negb (truthy (get options "name")))
      eqn:Hsig.
    + apply andb_true_iff in Hsig as [He Hn]. apply negb_true_iff in Hn.
      rewrite deploy_bad_signature in Hin by assumption.
      destruct Hin as [Hin|[]]. discriminate Hin.
    + rewrite deploy_valid in Hin by assumption. revert Hin.
      apply (Forall_not_In not_message); [apply pipeline_reports_errors_only |].
      intros Hx. exact Hx.
  - rewrite deploy_missing in Hin by (fold options; congruence).
    fold options in Hin.
    apply in_map_iff in Hin as (name & Heq & Hname).
    unfold missing in Hname. apply filter_In in Hname as [Hreq Hf].
    assert (name = "message") as ->.
    { destruct Hreq as [<-|[<-|[<-|[]]]]; [discriminate | discriminate | reflexivity]. }
    rewrite Hmsg in Hf. discriminate.
Qed.

Lemma default_message_overrides_config_witness :
  get (merge_options (AquiferGitConfig Sample.configured) Sample.flags_defaulted) "message" =
    JStr "Deployment from source repository."
  /\ ~ In (missing_report "message")
         (events (deploy Sample.configured Sample.flags_defaulted Sample.empty_fs)).
Proof.
  apply (default_message_overrides_config Sample.configured Sample.flags_defaulted
           Sample.empty_fs).
  vm_compute. reflexivity.
Defined.

(** X3: the declared defaults of [folder], [name], [email] and [debug]
    are falsy, so when the command line holds the declared default of one
    of them (the flag was not given) the value of the static
    configuration stays: the merged value is that of the configuration
    when it is truthy and [undefined] otherwise.  In particular [debug]
    set in the configuration is not switched off by the command line. *)
Theorem falsy_defaults_keep_config (config commandOptions : object) (name : string) :
  In name ["folder"; "name"; "email"; "debug"] ->
  get commandOptions name = declared_default "deploy-git" name ->
  get (merge_options config commandOptions) name =
    if truthy (get config name) then get config name else JUndef.
Proof.
  intros Hin Hcli. rewrite get_merge_options, Hcli.
  destruct Hin as [<-|[<-|[<-|[<-|[]]]]]; cbn [declared_default];
    (replace (truthy (declared_default _ _)) with false by reflexivity);
    destruct (truthy (get config _)); reflexivity.
Qed.

Lemma falsy_defaults_keep_config_witness :
  get (merge_options (AquiferGitConfig Sample.configured) Sample.flags_defaulted) "debug" =
    JBool true.
Proof.
  rewrite (falsy_defaults_keep_config (AquiferGitConfig Sample.configured)
             Sample.flags_defaulted "debug").
  - vm_compute. reflexivity.
  - simpl. tauto.
  - vm_compute. reflexivity.
Defined.

(** ** The build step *)

Lemma handler_events_Forall (P : event -> Prop) (options : object) v err :
  (forall arg, P (ECallback arg)) ->
  (forall p r, P (EAct SCatch (ARemove p) r)) ->
  Forall P (handler_events options v err).
Proof.
  intros Hcb Hcatch. unfold handler_events.
  destruct (truthy (get options "debug")); [repeat constructor; apply Hcb |].
  destruct v; try (repeat constructor; apply Hcatch).
  destruct (String.eqb s EmptyString); repeat constructor;
    first [apply Hcatch | apply Hcb].
Qed.

Lemma build_path_cases (E : Env) (options : object) (d : string) (bp : jsval) :
  build_path E options d = inr bp ->
  (truthy (get options "folder") = false /\ bp = JStr d)
  \/ (exists f, get options "folder" = JStr f /\ bp = JStr (path_join_strings [d; f])).
Proof.
  unfold build_path. destruct (truthy (get options "folder")) eqn:Hf.
  - destruct (get options "folder") as [| |b|f|xs|fields] eqn:Hfolder;
      try (unfold path_join; cbn;
           destruct (String.eqb d EmptyString); discriminate).
    rewrite path_join_2. intros [= <-]. right. now exists f.
  - intros [= <-]. now left.
Qed.

(** X4: whenever a run calls the builder, it is with symlinking switched
    off and with the merged [delPatterns], [excludeLinks] and [addLinks];
    the build path is the workspace when [folder] is falsy and the
    workspace joined with [folder] when [folder] is a string. *)
Theorem build_call_arguments (E : Env) (commandOptions : object) (m : FS)
        (bp : jsval) (bo : build_options) (r : option error) :
  let options := merge_options (AquiferGitConfig E) commandOptions in
  let d := workspace_name E m in
  In (EAct SBuild (ABuild bp bo) r) (events (deploy E commandOptions m)) ->
  symlink bo = false
  /\ delPatterns bo = get options "delPatterns"
  /\ excludeLinks bo = get options "excludeLinks"
  /\ addLinks bo = get options "addLinks"
  /\ ((truthy (get options "folder") = false /\ bp = JStr d)
      \/ (exists f, get options "folder" = JStr f
                    /\ bp = JStr (path_join_strings [d; f]))).
Proof.
  intros options d Hin.
  assert (Hall : Forall (builds_as E options d) (events (deploy E commandOptions m))).
  { apply deploy_events_Forall; fold options; fold d.
    - intros arg. exact I.
    - intros r0. exact I.
    - intros v err. apply handler_events_Forall; intros; exact I.
    - unfold stages.
      repeat match goal with
             | |- Forall _ (_ :: _) => constructor
             | |- Forall _ [] => constructor
             end;
        intros t r0 H.
      3: { destruct H as [(bp0 & Hbp & ->)|(e & _ & _ & ->)]; repeat constructor.
           now exists bp0. }
      3: { destruct H as (t' & -> & H). constructor; [exact I |].
           revert H. apply copy_actions_Forall. intros; exact I. }
      all: open_segment H; repeat constructor. }
  rewrite Forall_forall in Hall. apply list_elem_of_In in Hin.
  destruct (Hall _ Hin) as (bp0 & Hbp & [= -> ->]).
  repeat (split; [reflexivity |]). now apply (build_path_cases E).
Qed.

Lemma build_call_arguments_witness :
  let E := Sample.all_ok in
  let options := merge_options (AquiferGitConfig E) Sample.in_folder in
  symlink (the_build_options options) = false
  /\ delPatterns (the_build_options options) = get options "delPatterns"
  /\ excludeLinks (the_build_options options) = get options "excludeLinks"
  /\ addLinks (the_build_options options) = get options "addLinks"
  /\ ((truthy (get options "folder") = false
       /\ JStr "aquifer-git-abc1234/docs" = JStr (workspace_name E Sample.empty_fs))
      \/ (exists f, get options "folder" = JStr f
                    /\ JStr "aquifer-git-abc1234/docs" =
                       JStr (path_join_strings [workspace_name E Sample.empty_fs; f]))).
Proof.
  apply (build_call_arguments Sample.all_ok Sample.in_folder Sample.empty_fs
           (JStr "aquifer-git-abc1234/docs")
           (the_build_options (merge_options (AquiferGitConfig Sample.all_ok) Sample.in_folder))
           None).
  vm_compute. tauto.
Defined.

Lemma build_path_not_a_string (E : Env) (options : object) (d : string) :
  truthy (get options "folder") = true ->
  (forall f, get options "folder" <> JStr f) ->
  build_path E options d =
    inl (TypeError (wording E (NotAString (get options "folder")))).
Proof.
  intros Ht Hns. unfold build_path. rewrite Ht.
  now rewrite path_join_not_a_string by exact Hns.
Qed.



(** ** The git commands *)

(** X6: [run.invoke] is called by six steps only, the clone, the
    checkout, the creation of the branch, the staging, the commit and
    the push, and each time with exactly the command line of
    [command_line]: the text of the source with the merged remote,
    branch and message, the name of the workspace and
    [path.join(projectDir, workspace)] inserted as they are. *)
Theorem invoked_command_lines (E : Env) (commandOptions : object) (m : FS) :
  let options := merge_options (AquiferGitConfig E) commandOptions in
  let d := workspace_name E m in
  Forall (invokes_as E options d) (events (deploy E commandOptions m)).
Proof.
  intros options d.
  apply deploy_events_Forall; fold options; fold d.
  - intros arg. exact I.
  - intros r. exact I.
  - intros v err. apply handler_events_Forall; intros; exact I.
  - unfold stages.
    repeat match goal with
           | |- Forall _ (_ :: _) => constructor
           | |- Forall _ [] => constructor
           end;
      intros t r H.
    4: { destruct H as (t' & -> & H). constructor; [exact I |].
         induction H as [|e t (a & r' & -> & link & src & dest & _ & _ & [->| ->]) _ IH];
           constructor; try exact I; exact IH. }
    all: open_segment H;
      repeat match goal with
             | |- Forall _ (_ :: _) => constructor
             | |- Forall _ [] => constructor
             end;
      first [exact I | reflexivity].
Qed.

(** ** Callback and success *)

Lemma handler_callbacks (options : object) (d : string) (err : error) :
  String.eqb d EmptyString = false ->
  callbacks (handler_events options (JStr d) err) = [Raised err].
Proof.
  intros Hd. unfold handler_events. rewrite Hd.
  destruct (truthy (get options "debug")); reflexivity.
Qed.



(** ** The checkout when the branch exists *)

(** X8: when the checkout of the target branch succeeds, the branch is
    not created: [git checkout -b] is never run in that run, and the
    checkout itself is run once. *)
Theorem checkout_success_no_branch (E : Env) (commandOptions : object) (m : FS)
        (c : action) :
  let T := events (deploy E commandOptions m) in
  In (EAct SCheckout c None) T ->
  count_step SBranch T = 0 /\ count_step SCheckout T = 1.
Proof.
  intros T Hin. subst T.
  destruct (deploy_cases E commandOptions m) as [(Hcb & _)|Heq].
  { now apply not_action_of_callbacks in Hin. }
  rewrite Heq in *. clear Heq.
  set (options := merge_options (AquiferGitConfig E) commandOptions) in *.
  destruct (createDir E template m) as [e|draws] eqn:Hc.
  { exfalso. destruct (pipeline_no_workspace E options m e Hc) as (Hev & _).
    rewrite Hev in Hin. destruct Hin as [Hin|Hin]; [discriminate |].
    apply (In_past_checkout _ _ _ _ (handler_events_past_checkout _ _ _)) in Hin.
    now destruct Hin. }
  destruct (pipeline_workspace E options m draws Hc) as (T & res & Hshape & _ & _ & Hev).
  set (d := fill template draws) in *.
  assert (Hall : exists H, events (pipeline E options (initial m)) =
                   EAct SCreate (ACreateDir template) None :: T ++ H
                   /\ Forall past_checkout H).
  { destruct res as [e|[]].
    - destruct Hev as [Hev _]. exists (handler_events options (JStr d) e).
      split; [exact Hev | apply handler_events_past_checkout].
    - exists []. rewrite app_nil_r. split; [exact Hev | constructor]. }
  destruct Hall as (H & Hall & Hpast). rewrite Hall in *. clear Hev Hall.
  destruct (count_past_checkout _ Hpast) as [HnH1 HnH2].
  destruct Hin as [Hin|Hin]; [discriminate |].
  apply in_app_or in Hin as [Hin|Hin];
    [| apply (In_past_checkout _ _ _ _ Hpast) in Hin; now destruct Hin].
  unfold stages in Hshape.
  apply seq_shape_inv in Hshape as [(e & -> & Hclone)|(t0 & T' & -> & Hclone & Hrest)].
  { exfalso. open_segment Hclone. destruct Hin as [Hx|[Hx|[]]]; discriminate. }
  open_segment Hclone.
  apply seq_shape_inv in Hrest as [(e & -> & Hco)|(t & T'' & -> & Hco & Hlater)].
  { exfalso. open_segment Hco; [discriminate |].
    destruct Hin as [Hx|[Hx|[Hx|[Hx|[Hx|[]]]]]]; discriminate. }
  pose proof (later_stages_past_checkout _ _ _ _ _ Hlater) as Hpast'.
  destruct (count_past_checkout _ Hpast') as [Hn1 Hn2].
  open_segment Hco; cbn [app] in *.
  - cbn [count_step step_eqb]. rewrite !count_step_app, Hn1, Hn2, HnH1, HnH2.
    split; reflexivity.
  - exfalso. destruct Hin as [Hx|[Hx|[Hx|[Hx|[Hx|Hx]]]]]; try discriminate.
    apply (In_past_checkout _ _ _ _ Hpast') in Hx. now destruct Hx.
Qed.

Lemma checkout_success_no_branch_witness :
  let T := events (deploy Sample.all_ok Sample.basic Sample.empty_fs) in
  count_step SBranch T = 0 /\ count_step SCheckout T = 1.
Proof.
  apply (checkout_success_no_branch Sample.all_ok Sample.basic Sample.empty_fs
           (AInvoke "git -C /p/aquifer-git-abc1234 checkout gh-pages")).
  vm_compute. tauto.
Defined.

(** ** The loop over the deployment files *)

Lemma link_strings_well_formed (E : Env) (d : string) fields (s t : string) :
  field "src" fields = JStr s ->
  field "dest" fields = JStr t ->
  link_strings E d (JObj fields) =
    inr (path_join_strings [projectDir E; s], path_join_strings [d; t]).
Proof.
  intros Hs Ht. unfold link_strings, prop. rewrite Hs, Ht, !path_join_2. reflexivity.
Qed.

Lemma link_strings_malformed (E : Env) (d : string) (link : jsval) :
  ~ well_formed_link link ->
  exists msg, link_strings E d link = inl (TypeError msg).
Proof.
  intros Hbad. unfold link_strings.
  destruct link as [| |b|f|xs|fields]; try (eexists; reflexivity);
    try (unfold prop; rewrite path_join_not_a_string by discriminate;
         eexists; reflexivity).
  unfold prop.
  destruct (field "src" fields) as [| |b|s|xs|fs'] eqn:Hs;
    try (rewrite path_join_not_a_string by discriminate; eexists; reflexivity).
  rewrite path_join_2.
  destruct (field "dest" fields) as [| |b|t|xs|fs'] eqn:Ht;
    try (rewrite path_join_not_a_string by discriminate; eexists; reflexivity).
  destruct Hbad. now exists fields, s, t.
Qed.

(** X9: a deployment link that is not an object with a string [src] and
    a string [dest] stops the loop with a [TypeError] before any file
    operation for it: the links before it have been processed, the
    trace and the file system are those they left, and the links after
    it are not looked at. *)
Theorem malformed_link_stops_loop (E : Env) (d : string) (m : FS)
        (done rest : list jsval) (link : jsval) :
  let before := forEach (copy_link E) done (at_step d m) in
  let o := forEach (copy_link E) (done ++ link :: rest) (at_step d m) in
  ~ well_formed_link link ->
  result before = inr tt ->
  events o = events before
  /\ final o = final before
  /\ exists msg, result o = inl (TypeError msg).
Proof.
  cbv zeta. intros Hbad. generalize (eq_refl : at_workspace d (at_step d m)).
  generalize (at_step d m) as s.
  induction done as [|l done IH]; intros s Hs Hres.
  - cbn [app forEach]. unfold mbind, M_bind.
    destruct s as [m0 v]. cbv in Hs. subst v.
    destruct (link_strings_malformed E d link Hbad) as [msg Hmsg].
    pose proof (copy_link_outcome E d link m0) as Hout. rewrite Hmsg in Hout.
    rewrite (bind_rejected _ _ _ _ _ _ Hout). cbn. repeat split. now exists msg.
  - cbn [app forEach] in *. unfold mbind, M_bind, bind in *.
    pose proof (copy_link_final E d l s Hs) as HI.
    destruct (result (copy_link E l s)) as [e|[]]; [discriminate |].
    cbn [events result final] in *.
    destruct (IH _ HI Hres) as (Hev & Hfin & Hmsg).
    rewrite Hev, Hfin. repeat split. exact Hmsg.
Qed.

Lemma malformed_link_stops_loop_witness :
  let E := Sample.all_ok in
  let d := "aquifer-git-abc1234" in
  let good := JObj [("src", JStr "a"); ("dest", JStr "a")] in
  let later := JObj [("src", JStr "b"); ("dest", JStr "b")] in
  let before := forEach (copy_link E) [good] (at_step d Sample.two_files) in
  let o := forEach (copy_link E) ([good] ++ JStr "index.html" :: [later])
             (at_step d Sample.two_files) in
  events o = events before
  /\ final o = final before
  /\ exists msg, result o = inl (TypeError msg).
Proof.
  apply (malformed_link_stops_loop Sample.all_ok "aquifer-git-abc1234" Sample.two_files
           [JObj [("src", JStr "a"); ("dest", JStr "a")]]
           [JObj [("src", JStr "b"); ("dest", JStr "b")]]
           (JStr "index.html")).
  - intros (fields & s & t & Hl & _). discriminate.
  - vm_compute. reflexivity.
Defined.

Lemma link_strings_paths (E : Env) (d : string) (link : jsval) (src dest : string) :
  link_strings E d link = inr (src, dest) ->
  exists fields s t,
    link = JObj fields
    /\ field "src" fields = JStr s
    /\ field "dest" fields = JStr t
    /\ src = path_join_strings [projectDir E; s]
    /\ dest = path_join_strings [d; t].
Proof.
  unfold link_strings.
  destruct link as [| |b|f|xs|fields]; try discriminate;
    try (unfold prop; rewrite path_join_not_a_string by discriminate; discriminate).
  unfold prop.
  destruct (field "src" fields) as [| |b|s|xs|fs'] eqn:Hs;
    try (rewrite path_join_not_a_string by discriminate; discriminate).
  rewrite path_join_2.
  destruct (field "dest" fields) as [| |b|t|xs|fs'] eqn:Ht;
    try (rewrite path_join_not_a_string by discriminate; discriminate).
  rewrite path_join_2. intros [= <- <-]. now exists fields, s, t.
Qed.

(** X10: every call of [fs.removeSync] and [fs.copySync] the loop of
    lines 162-167 makes in a run is made for one of the deployment
    files, an object with a string [src] and a string [dest]: it is
    the removal of [path.join(workspace, dest)], or the copy of
    [path.join(projectDir, src)] to that same path.  Sources are taken
    from the project directory and destinations from the workspace,
    whatever the current directory is. *)
Theorem copy_call_arguments (E : Env) (commandOptions : object) (m : FS)
        (a : action) (r : option error) :
  let options := merge_options (AquiferGitConfig E) commandOptions in
  let d := workspace_name E m in
  In (EAct SCopy a r) (events (deploy E commandOptions m)) ->
  exists fields s t,
    In (JObj fields) (deployment_links options)
    /\ field "src" fields = JStr s
    /\ field "dest" fields = JStr t
    /\ (a = ARemove (JStr (path_join_strings [d; t]))
        \/ a = ACopy (path_join_strings [projectDir E; s]) (path_join_strings [d; t])).
Proof.
  intros options d Hin.
  assert (Hall : Forall (copies_as E options d) (events (deploy E commandOptions m))).
  { apply deploy_events_Forall; fold options; fold d.
    - intros arg. exact I.
    - intros r0. exact I.
    - intros v err. apply handler_events_Forall; intros; exact I.
    - unfold stages.
      repeat match goal with
             | |- Forall _ (_ :: _) => constructor
             | |- Forall _ [] => constructor
             end;
        intros t r0 H.
      4: { destruct H as (t' & -> & H). constructor; [exact I |].
           induction H as [|e t (a0 & r' & -> & link & src & dest & Hl & Hs & Ha) _ IH];
             constructor; [| exact IH].
           destruct (link_strings_paths E d link src dest Hs)
             as (fields & s & t0 & -> & Hsrc & Hdest & -> & ->).
           exists fields, s, t0. repeat split; assumption. }
      all: open_segment H; repeat constructor. }
  rewrite Forall_forall in Hall. apply list_elem_of_In in Hin.
  exact (Hall _ Hin).
Qed.

Lemma copy_call_arguments_witness :
  let E := Sample.all_ok in
  let options := merge_options (AquiferGitConfig E) Sample.one_file in
  exists fields s t,
    In (JObj fields) (deployment_links options)
    /\ field "src" fields = JStr s
    /\ field "dest" fields = JStr t
    /\ (ACopy "/p/a" "aquifer-git-abc1234/a" =
          ARemove (JStr (path_join_strings [workspace_name E Sample.two_files; t]))
        \/ ACopy "/p/a" "aquifer-git-abc1234/a" =
             ACopy (path_join_strings [projectDir E; s])
                   (path_join_strings [workspace_name E Sample.two_files; t])).
Proof.
  apply (copy_call_arguments Sample.all_ok Sample.one_file Sample.two_files
           (ACopy "/p/a" "aquifer-git-abc1234/a") None).
  vm_compute. tauto.
Defined.

(** X11: the loop removes the destination before it looks at the
    source.  For a deployment file with a string [src] and a string
    [dest] whose source does not exist once the destination has been
    removed, [fs.copySync] throws [ENOENT] ([ENOTDIR] when the path of
    the source crosses a file): the file system stays as the removal
    left it, nothing is copied, and the links that follow are not
    processed. *)
Theorem missing_source_after_removal (E : Env) (d : string) (m : FS)
        fields (s t : string) (rest : list jsval) :
  let src := path_join_strings [projectDir E; s] in
  let dest := path_join_strings [d; t] in
  let S := resolve (cwd E) src in
  let removal := remove_outcome E dest m in
  let err := if crosses_file (snd removal) S then ENOTDIR src else ENOENT src in
  let o := forEach (copy_link E) (JObj fields :: rest) (at_step d m) in
  field "src" fields = JStr s ->
  field "dest" fields = JStr t ->
  fst removal = None ->
  snd removal S = None ->
  events o = [EAct SCopy (ARemove (JStr dest)) None;
              EAct SCopy (ACopy src dest) (Some err)]
  /\ result o = inl err
  /\ fs (final o) = snd removal.
Proof.
  cbv zeta. intros Hs Ht Hrm Hgone.
  pose proof (copy_link_outcome E d (JObj fields) m) as Hout.
  rewrite (link_strings_well_formed E d fields s t Hs Ht) in Hout.
  cbv zeta in Hout. rewrite Hrm in Hout.
  rewrite (copy_outcome_missing E _ _ _ Hgone) in Hout. cbn [fst snd] in Hout.
  cbn [forEach]. unfold mbind, M_bind, at_step.
  rewrite (bind_rejected _ _ _ _ _ _ Hout). cbn. repeat split.
Qed.

Lemma missing_source_after_removal_witness :
  let E := Sample.all_ok in
  let m : FS := fun q => if decide (q = ["p"; "b"]) then Some (File "old") else None in
  let o := forEach (copy_link E)
             [JObj [("src", JStr "a"); ("dest", JStr "../b")];
              JObj [("src", JStr "c"); ("dest", JStr "e")]] (at_step "w" m) in
  events o = [EAct SCopy (ARemove (JStr "b")) None;
              EAct SCopy (ACopy "/p/a" "b") (Some (ENOENT "/p/a"))]
  /\ result o = inl (ENOENT "/p/a")
  /\ fs (final o) = fs_remove ["p"; "b"] m.
Proof.
  cbv zeta.
  pose proof (missing_source_after_removal Sample.all_ok "w"
                (fun q => if decide (q = ["p"; "b"]) then Some (File "old") else None)
                [("src", JStr "a"); ("dest", JStr "../b")] "a" "../b"
                [JObj [("src", JStr "c"); ("dest", JStr "e")]]
                eq_refl eq_refl eq_refl eq_refl) as H.
  vm_compute in H. vm_compute. exact H.
Defined.

(** ** The run in which nothing fails *)

Lemma emits_bind (d : string) (m k : M unit) (t t' : list event) :
  emits d m t -> emits d k t' -> emits d (m;; k) (t ++ t').
Proof.
  intros Hm Hk m0. destruct (Hm m0) as [m1 H1]. destruct (Hk m1) as [m2 H2].
  exists m2. unfold mbind, M_bind. rewrite (bind_resolved _ _ _ _ _ _ H1), H2.
  reflexivity.
Qed.

Section Cooperative.

Context (E : Env) (options : object) (d : string).
Context (Hd : plain d = true).
Context (Hok : cooperative E).
Context (Hidx : index_removable E d).

Lemma invoked_resolves (st : step) (commandLine : string) (pre : list event) (m0 : FS) :
  exists m1,
    invoked E d st commandLine pre m0 =
      {| events := pre ++ [EAct st (AInvoke commandLine) None];
         result := inr tt; final := at_step d m1 |}.
Proof.
  exists (snd (invoke E commandLine m0)). unfold invoked.
  destruct Hok as [Hinv _]. cbv zeta. now rewrite (Hinv commandLine m0).
Qed.

Lemma checkout_step_emits :
  emits d (checkout_step E options)
    [EAct SCheckout (AInvoke (checkout_command E options d)) None;
     status (checking_out_message options)].
Proof.
  intros m0. unfold at_step. rewrite checkout_step_outcome. cbv zeta.
  destruct Hok as [Hinv _]. rewrite (Hinv (checkout_command E options d) m0).
  eexists. reflexivity.
Qed.

Lemma build_step_emits (bp : jsval) :
  build_path E options d = inr bp ->
  emits d (build_step E options)
    [status "Building the site..."; EAct SBuild (ABuild bp (the_build_options options)) None].
Proof.
  intros Hbp m0. unfold at_step. rewrite build_step_outcome, Hbp. cbv zeta.
  destruct Hok as [_ Hbuild]. rewrite (Hbuild bp (the_build_options options) m0).
  eexists. reflexivity.
Qed.

Lemma copy_step_emits :
  get options "deploymentFiles" = JArr [] ->
  emits d (copy_step E options) [status "Copying deployment files..."].
Proof.
  intros Hfiles m0. exists m0. unfold copy_step, copy_files. rewrite Hfiles.
  reflexivity.
Qed.

Lemma index_step_emits :
  emits d (index_step E)
    [status "Clearing the index..."; EAct SIndex (ARemove (JStr (index_path E d))) None].
Proof.
  intros m0. unfold at_step. rewrite index_step_outcome. cbv zeta.
  rewrite (Hidx m0). eexists. reflexivity.
Qed.

Lemma stage_step_emits :
  emits d (stage_step E)
    ([status "Adding all files to the index..."]
       ++ [EAct SStage (AInvoke (stage_command E d)) None]).
Proof. intros m0. unfold at_step. rewrite stage_step_outcome. apply invoked_resolves. Qed.

Lemma commit_step_emits :
  emits d (commit_step E options)
    ([status "Committing changes..."]
       ++ [EAct SCommit (AInvoke (commit_command options (git E d))) None]).
Proof. intros m0. unfold at_step. rewrite commit_step_outcome. apply invoked_resolves. Qed.

Lemma push_step_emits :
  emits d (push_step E options)
    ([status (pushing_message options)]
       ++ [EAct SPush (AInvoke (push_command E options d)) None]).
Proof. intros m0. unfold at_step. rewrite push_step_outcome. apply invoked_resolves. Qed.

Lemma cleanup_step_emits :
  emits d (cleanup_step E options)
    (if truthy (get options "debug") then []
     else [status (removing_message d); EAct SCleanup (ARemove (JStr d)) None]).
Proof.
  intros m0. unfold at_step. rewrite cleanup_step_outcome by exact Hd.
  destruct (truthy (get options "debug")); eexists; reflexivity.
Qed.

Lemma success_step_emits : emits d success_step [ELog success_message "success"].
Proof. intros m0. exists m0. reflexivity. Qed.

Lemma after_clone_emits (bp : jsval) :
  build_path E options d = inr bp ->
  get options "deploymentFiles" = JArr [] ->
  emits d (after_clone E options)
    ([EAct SCheckout (AInvoke (checkout_command E options d)) None;
      status (checking_out_message options)]
     ++ [status "Building the site...";
         EAct SBuild (ABuild bp (the_build_options options)) None]
     ++ [status "Copying deployment files..."]
     ++ [status "Clearing the index...";
         EAct SIndex (ARemove (JStr (index_path E d))) None]
     ++ ([status "Adding all files to the index..."]
           ++ [EAct SStage (AInvoke (stage_command E d)) None])
     ++ ([status "Committing changes..."]
           ++ [EAct SCommit (AInvoke (commit_command options (git E d))) None])
     ++ ([status (pushing_message options)]
           ++ [EAct SPush (AInvoke (push_command E options d)) None])
     ++ (if truthy (get options "debug") then []
         else [status (removing_message d); EAct SCleanup (ARemove (JStr d)) None])
     ++ [ELog success_message "success"]).
Proof.
  intros Hbp Hfiles. unfold after_clone.
  apply emits_bind; [apply checkout_step_emits |].
  apply emits_bind; [now apply build_step_emits |].
  apply emits_bind; [now apply copy_step_emits |].
  apply emits_bind; [apply index_step_emits |].
  apply emits_bind; [apply stage_step_emits |].
  apply emits_bind; [apply commit_step_emits |].
  apply emits_bind; [apply push_step_emits |].
  apply emits_bind; [apply cleanup_step_emits |].
  apply success_step_emits.
Qed.

End Cooperative.



(** ** Failures end the chain *)

Lemma harmless_log (message level : string) : harmless (ELog message level).
Proof. intros (s & a & e & H). discriminate. Qed.

Lemma harmless_callback (arg : reported) : harmless (ECallback arg).
Proof. intros (s & a & e & H). discriminate. Qed.

Lemma harmless_done (s : step) (a : action) : harmless (EAct s a None).
Proof. intros (s' & a' & e & H). discriminate. Qed.

Lemma harmless_checkout (a : action) (r : option error) : harmless (EAct SCheckout a r).
Proof. intros _. now exists a, r. Qed.

Lemma halts_bind {A B} (m : M A) (k : A -> M B) :
  halts m -> (forall a, halts (k a)) -> halts (bind m k).
Proof.
  intros Hm Hk s. destruct (Hm s) as (T & t & Hev & HT & Hres). unfold bind.
  destruct (result (m s)) as [e|a]; cbn [events result].
  - exists T, t. now repeat split.
  - subst t. rewrite app_nil_r in Hev.
    destruct (Hk a (final (m s))) as (T' & t' & Hev' & HT' & Hres').
    exists (T ++ T'), t'. rewrite Hev, Hev', app_assoc.
    split; [reflexivity |]. split; [| exact Hres'].
    apply Forall_app. now split.
Qed.

Lemma halts_quiet {A} (m : M A) :
  (forall s, Forall harmless (events (m s))) -> halts m.
Proof.
  intros Hm s. exists (events (m s)), []. rewrite app_nil_r.
  split; [reflexivity |]. split; [apply Hm |].
  destruct (result (m s)); [cbn; lia | reflexivity].
Qed.

Lemma halts_catch {A} (m : M A) (h : error -> M A) :
  (forall s, Forall harmless (events (m s))) ->
  (forall e, halts (h e)) ->
  halts (catch m h).
Proof.
  intros Hm Hh s. unfold catch. pose proof (Hm s) as HT.
  destruct (result (m s)) as [e|a] eqn:Hres.
  - cbn [events result].
    destruct (Hh e (final (m s))) as (T' & t' & Hev' & HT' & Hres').
    exists (events (m s) ++ T'), t'. rewrite Hev', app_assoc.
    split; [reflexivity |]. split; [| exact Hres'].
    apply Forall_app. now split.
  - exists (events (m s)), []. rewrite app_nil_r, Hres. now repeat split.
Qed.

Lemma halts_act {A} (m : M A) :
  (forall s, exists st a r,
      events (m s) = [EAct st a r] /\ (forall v, result (m s) = inr v -> r = None)) ->
  halts m.
Proof.
  intros Hm s. destruct (Hm s) as (st & a & r & Hev & Hres). rewrite Hev.
  destruct (result (m s)) as [e|v].
  - exists [], [EAct st a r]. repeat split; [constructor | cbn; lia].
  - rewrite (Hres v eq_refl). exists [EAct st a None], [].
    repeat split. repeat constructor. apply harmless_done.
Qed.

Lemma halts_ret {A} (a : A) : halts (ret a).
Proof. apply halts_quiet. intros s. constructor. Qed.

Lemma halts_eval {A} (r : error + A) : halts (eval r).
Proof. apply halts_quiet. intros s. destruct r; constructor. Qed.

Lemma halts_read : halts read_destPath.
Proof. apply halts_quiet. intros s. constructor. Qed.

Lemma halts_write (v : jsval) : halts (write_destPath v).
Proof. apply halts_quiet. intros s. constructor. Qed.

Lemma halts_log (message level : string) : halts (log message level).
Proof. apply halts_quiet. intros s. repeat constructor. apply harmless_log. Qed.

Lemma halts_callback (arg : reported) : halts (callback arg).
Proof. apply halts_quiet. intros s. repeat constructor. apply harmless_callback. Qed.

Lemma halts_forEach (f : jsval -> M unit) (xs : list jsval) :
  (forall x, halts (f x)) -> halts (forEach f xs).
Proof.
  intros Hf. induction xs as [|x xs IH]; [apply halts_ret |].
  apply halts_bind; [apply Hf | intros _; exact IH].
Qed.

Section Halting.

Context (E : Env).

Lemma halts_createDir (template : string) : halts (mktemp_createDir E template).
Proof.
  apply halts_act. intros s. unfold mktemp_createDir.
  destruct (createDir E template (fs s)); eexists _, _, _;
    (split; [reflexivity | intros v; try discriminate; reflexivity]).
Qed.

Lemma halts_invoke (st : step) (commandLine : string) :
  halts (run_invoke E st commandLine).
Proof.
  apply halts_act. intros s. unfold run_invoke. cbv zeta.
  destruct (invoke E commandLine (fs s)) as [[e|] m']; eexists _, _, _;
    (split; [reflexivity | intros v; try discriminate; reflexivity]).
Qed.

Lemma halts_build (buildPath : jsval) (buildOptions : build_options) :
  halts (build_create_at E buildPath buildOptions).
Proof.
  apply halts_act. intros s. unfold build_create_at. cbv zeta.
  destruct (build_create E buildPath buildOptions (fs s)) as [[e|] m']; eexists _, _, _;
    (split; [reflexivity | intros v; try discriminate; reflexivity]).
Qed.

Lemma halts_removeSync (st : step) (p : jsval) : halts (fs_removeSync E st p).
Proof.
  apply halts_act. intros s. unfold fs_removeSync.
  destruct p as [| |b|path|xs|fields];
    try (eexists _, _, _; split; [reflexivity | intros v; discriminate]).
  destruct (String.eqb path EmptyString);
    [eexists _, _, _; split; [reflexivity | intros v; discriminate] |].
  cbv zeta. destruct (remove_outcome E path (fs s)) as [[e|] m']; eexists _, _, _;
    (split; [reflexivity | intros v; try discriminate; reflexivity]).
Qed.

Lemma halts_copySync (st : step) (src dest : string) : halts (fs_copySync E st src dest).
Proof.
  apply halts_act. intros s. unfold fs_copySync. cbv zeta.
  destruct (copy_outcome E src dest (fs s)) as [[e|] m']; eexists _, _, _;
    (split; [reflexivity | intros v; try discriminate; reflexivity]).
Qed.

Lemma first_checkout_harmless (options : object) (git : string) (s : state) :
  Forall harmless
    (events ((run_invoke E SCheckout
                (git +:+ " checkout " +:+ to_string (get options "branch"));;
              log ("Checking out branch: " +:+ to_string (get options "branch") +:+ "...")
                "status") s)).
Proof.
  unfold mbind, M_bind, bind, run_invoke. cbv zeta. cbn [events result final].
  destruct (invoke E _ (fs s)) as [[e|] m']; cbn; repeat constructor;
    first [apply harmless_checkout | apply harmless_log].
Qed.

Ltac halting :=
  repeat first
    [ apply halts_bind; [| intros ?]
    | apply halts_ret | apply halts_eval | apply halts_read | apply halts_write
    | apply halts_log | apply halts_callback
    | apply halts_createDir | apply halts_invoke | apply halts_build
    | apply halts_removeSync | apply halts_copySync ].

Lemma halts_git_C : halts (git_C E).
Proof. unfold git_C, mbind, M_bind, mret, M_ret. halting. Qed.

Lemma halts_chain (options : object) : halts (chain E options).
Proof.
  unfold chain, mbind, M_bind. apply halts_bind; [apply halts_createDir | intros d].
  apply halts_bind.
  { unfold clone_step, mbind, M_bind. halting. }
  intros _. apply halts_bind.
  { unfold checkout_step, mbind, M_bind.
    apply halts_bind; [apply halts_git_C | intros git].
    apply halts_catch; [apply first_checkout_harmless |].
    intros _. apply halts_bind; [apply halts_log | intros _].
    apply halts_bind; [apply halts_git_C | intros git']. apply halts_invoke. }
  intros _. apply halts_bind.
  { unfold build_step, mbind, M_bind, mret, M_ret. cbv zeta.
    apply halts_bind; [apply halts_log | intros _].
    apply halts_bind; [apply halts_read | intros v].
    apply halts_bind; [| intros bp; apply halts_build].
    destruct (truthy (get options "folder")); halting. }
  intros _. apply halts_bind.
  { unfold copy_step, copy_files, mbind, M_bind.
    apply halts_bind; [apply halts_log | intros _].
    destruct (get options "deploymentFiles");
      try (apply halts_quiet; intros ?; constructor).
    apply halts_forEach. intros link. unfold copy_link, mbind, M_bind. halting. }
  intros _. apply halts_bind.
  { unfold index_step, mbind, M_bind. halting. }
  intros _. apply halts_bind.
  { unfold stage_step, mbind, M_bind.
    apply halts_bind; [apply halts_log | intros _].
    apply halts_bind; [apply halts_git_C | intros git]. apply halts_invoke. }
  intros _. apply halts_bind.
  { unfold commit_step, mbind, M_bind.
    apply halts_bind; [apply halts_log | intros _].
    apply halts_bind; [apply halts_git_C | intros git]. apply halts_invoke. }
  intros _. apply halts_bind.
  { unfold push_step, mbind, M_bind.
    apply halts_bind; [apply halts_log | intros _].
    apply halts_bind; [apply halts_git_C | intros git]. apply halts_invoke. }
  intros _. apply halts_bind.
  { unfold cleanup_step, mbind, M_bind, mret, M_ret.
    destruct (negb (truthy (get options "debug"))); halting. }
  intros _. apply halts_log.
Qed.

End Halting.

Lemma tail_after_harmless (A B T1 T2 : list event) (x : event) :
  T1 ++ x :: T2 = A ++ B ->
  Forall harmless A ->
  ~ harmless x ->
  exists B1, B = B1 ++ x :: T2.
Proof.
  revert T1. induction A as [|a A IH]; intros T1 Heq HA Hx.
  - now exists T1.
  - apply Forall_cons_1 in HA as [Ha HA].
    destruct T1 as [|y T1]; cbn in Heq; injection Heq as -> Heq.
    + contradiction.
    + now apply (IH T1).
Qed.

Lemma handler_events_handler (options : object) (v : jsval) (err : error) :
  Forall handler_event (handler_events options v err).
Proof.
  apply handler_events_Forall.
  - intros arg. left. now exists arg.
  - intros p r. right. now exists p, r.
Qed.

Lemma chain_destPath_plain (E : Env) (options : object) (m : FS) (p : string) :
  destPath (final (chain E options (initial m))) = JStr p -> plain p = true.
Proof.
  destruct (createDir E template m) as [e|draws] eqn:Hc.
  - rewrite (chain_create_failed E options (initial m) e Hc). discriminate.
  - destruct (chain_created E options (initial m) draws Hc) as (T & _ & _ & HI).
    unfold at_workspace in HI. rewrite HI. intros [= <-]. apply fill_template_plain.
Qed.

(** X13: a failed call ends the run, the first checkout of the branch
    apart: after a call of any other step that threw or was rejected,
    nothing runs but the handler of the final [.catch], so the trace
    goes on with at most its removal of the workspace and the callback. *)
Theorem failure_is_terminal (E : Env) (commandOptions : object) (m : FS)
        (T1 T2 : list event) (s : step) (a : action) (e : error) :
  events (deploy E commandOptions m) = T1 ++ EAct s a (Some e) :: T2 ->
  s <> SCheckout ->
  Forall handler_event T2 /\ length T2 <= 2.
Proof.
  intros Hev Hs.
  assert (Hx : ~ harmless (EAct s a (Some e))).
  { intros H. destruct H as (a' & r' & [= -> _ _]); [now exists s, a, e | now apply Hs]. }
  destruct (deploy_cases E commandOptions m) as [(Hcb & _)|Heq].
  { exfalso. apply (not_action_of_callbacks _ s a (Some e) Hcb).
    rewrite Hev. apply in_or_app. right. now left. }
  rewrite Heq in Hev. clear Heq.
  set (options := merge_options (AquiferGitConfig E) commandOptions) in *.
  unfold pipeline, catch in Hev.
  destruct (halts_chain E options (initial m)) as (T & t & Hchain & HT & Hres).
  destruct (result (chain E options (initial m))) as [err|[]].
  - cbn [events] in Hev.
    rewrite on_error_events in Hev by apply chain_destPath_plain.
    rewrite Hchain, <- app_assoc in Hev.
    destruct (tail_after_harmless _ _ _ _ _ (eq_sym Hev) HT Hx) as (B1 & HB).
    pose proof (handler_events_handler options
                  (destPath (final (chain E options (initial m)))) err) as HH.
    assert (Hlen : length (handler_events options
                             (destPath (final (chain E options (initial m)))) err) <= 2).
    { unfold handler_events. destruct (truthy (get options "debug")); [cbn; lia |].
      destruct (destPath _) as [| |b|p|xs|fields]; try (cbn; lia).
      destruct (String.eqb p EmptyString); cbn; lia. }
    destruct t as [|y [|z t]]; [| | cbn in Hres; lia].
    + cbn [app] in HB. rewrite HB in HH, Hlen. apply Forall_app in HH as [_ HH].
      apply Forall_cons_1 in HH as [_ HH]. split; [exact HH |].
      rewrite length_app in Hlen. cbn in Hlen. lia.
    + destruct B1 as [|b B1]; cbn in HB; injection HB as -> HB.
      * now subst T2.
      * rewrite HB in HH, Hlen. apply Forall_app in HH as [_ HH].
        apply Forall_cons_1 in HH as [_ HH]. split; [exact HH |].
        rewrite length_app in Hlen. cbn in Hlen. lia.
  - subst t. rewrite app_nil_r in Hchain. exfalso.
    rewrite Hchain in Hev.
    assert (Hin : In (EAct s a (Some e)) T).
    { rewrite Hev. apply in_or_app. right. now left. }
    apply list_elem_of_In in Hin. rewrite Forall_forall in HT. now apply Hx, HT.
Qed.

Lemma failure_is_terminal_witness :
  Forall handler_event
    [EAct SCatch (ARemove (JStr "aquifer-git-abc1234")) None;
     ECallback (Raised (ExtError "fatal: cannot lock ref"))]
  /\ length [EAct SCatch (ARemove (JStr "aquifer-git-abc1234")) None;
             ECallback (Raised (ExtError "fatal: cannot lock ref"))] <= 2.
Proof.
  apply (failure_is_terminal Sample.no_branch Sample.basic Sample.empty_fs
           (firstn 5 (events (deploy Sample.no_branch Sample.basic Sample.empty_fs)))
           _ SBranch
           (AInvoke "git -C /p/aquifer-git-abc1234 checkout -b gh-pages")
           (ExtError "fatal: cannot lock ref")).
  - vm_compute. reflexivity.
  - discriminate.
Defined.

(** ** The frame of a run *)

Section Frame.

Context (E : Env) (options : object) (d : string) (q : location) (content : option entry).

Hypothesis Hd : plain d = true.
Hypothesis Hleaves : env_leaves E q.
Hypothesis Hfiles : files_leave E options d q.
Hypothesis Hws : below (resolve (cwd E) d) q = false.

(** [destPath] names the workspace and [q] holds what it held. *)
Let untouched (s : state) : Prop := destPath s = JStr d /\ fs s q = content.

Ltac enter_untouched :=
  let m := fresh "m" in
  let v := fresh "v" in
  let Hq := fresh "Hq" in
  intros [m v] [Hv Hq]; cbn in Hv, Hq; subst v.

Lemma invoked_untouched (st : step) (commandLine : string) (pre : list event) (m : FS) :
  m q = content -> untouched (final (invoked E d st commandLine pre m)).
Proof.
  intros Hq. unfold invoked. cbv zeta. split; [reflexivity |].
  cbn [final fs]. destruct Hleaves as [Hinv _]. now rewrite Hinv.
Qed.

Lemma checkout_step_untouched : preserves untouched (checkout_step E options).
Proof.
  enter_untouched. rewrite checkout_step_outcome. cbv zeta.
  pose proof (proj1 Hleaves (checkout_command E options d) m) as H1.
  destruct (invoke E (checkout_command E options d) m) as [[e1|] m1]; cbn [fst snd] in *.
  - apply invoked_untouched. congruence.
  - split; [reflexivity |]. cbn. congruence.
Qed.

Lemma build_step_untouched : preserves untouched (build_step E options).
Proof.
  enter_untouched. rewrite build_step_outcome.
  destruct (build_path E options d) as [e|bp]; [now split |].
  cbv zeta. split; [reflexivity |].
  cbn [final fs]. destruct Hleaves as [_ Hbuild]. now rewrite Hbuild.
Qed.

Lemma copy_link_untouched (link : jsval) :
  In link (deployment_links options) ->
  preserves untouched (copy_link E link).
Proof.
  intros Hin. enter_untouched. rewrite copy_link_outcome.
  destruct (link_strings E d link) as [e|[src dest]] eqn:Hlink; [now split |].
  destruct Hfiles as [_ Hlinks]. destruct (Hlinks link src dest Hin Hlink) as [Hrm Hcp].
  cbv zeta. pose proof (Hrm m) as H1.
  destruct (remove_outcome E dest m) as [[e|] m1]; cbn [fst snd] in *.
  - split; [reflexivity |]. cbn [final fs]. congruence.
  - split; [reflexivity |]. cbn [final fs]. rewrite Hcp. congruence.
Qed.

Lemma copy_step_untouched : preserves untouched (copy_step E options).
Proof.
  intros s Hs. rewrite copy_step_final. revert s Hs.
  pose proof copy_link_untouched as Hlink.
  unfold copy_files, deployment_links in *.
  destruct (get options "deploymentFiles") as [| |b|str|links|fields];
    try (intros s Hs; exact Hs).
  apply preserves_forEach. intros link Hin. now apply Hlink.
Qed.

Lemma index_step_untouched : preserves untouched (index_step E).
Proof.
  enter_untouched. rewrite index_step_outcome. cbv zeta. split; [reflexivity |].
  cbn [final fs]. destruct Hfiles as [Hidx _]. now rewrite Hidx.
Qed.

Lemma stage_step_untouched : preserves untouched (stage_step E).
Proof. enter_untouched. rewrite stage_step_outcome. now apply invoked_untouched. Qed.

Lemma commit_step_untouched : preserves untouched (commit_step E options).
Proof. enter_untouched. rewrite commit_step_outcome. now apply invoked_untouched. Qed.

Lemma push_step_untouched : preserves untouched (push_step E options).
Proof. enter_untouched. rewrite push_step_outcome. now apply invoked_untouched. Qed.

Lemma cleanup_step_untouched : preserves untouched (cleanup_step E options).
Proof.
  enter_untouched. rewrite cleanup_step_outcome by exact Hd.
  destruct (truthy (get options "debug")); (split; [reflexivity |]); [exact Hq |].
  cbn [final fs]. rewrite fs_remove_elsewhere; [exact Hq | exact Hws].
Qed.

Lemma after_clone_untouched : preserves untouched (after_clone E options).
Proof.
  unfold after_clone, mbind, M_bind.
  repeat (apply preserves_bind;
          [first [ apply checkout_step_untouched | apply build_step_untouched
                 | apply copy_step_untouched | apply index_step_untouched
                 | apply stage_step_untouched | apply commit_step_untouched
                 | apply push_step_untouched | apply cleanup_step_untouched ]
          | intros _]).
  intros s Hs. exact Hs.
Qed.

Lemma from_clone_untouched (m : FS) (v : jsval) :
  m q = content ->
  untouched (final ((clone_step E options d;; after_clone E options)
                      {| fs := m; destPath := v |})).
Proof.
  intros Hq. unfold mbind, M_bind, bind. rewrite clone_step_outcome.
  pose proof (invoked_untouched SClone (clone_command options d)
                [status (cloning_message d)] m Hq) as Hk.
  destruct (result (invoked E d SClone (clone_command options d)
                      [status (cloning_message d)] m)); cbn [final]; [exact Hk |].
  now apply after_clone_untouched.
Qed.

Lemma on_error_untouched (err : error) : preserves untouched (on_error E options err).
Proof.
  enter_untouched.
  rewrite on_error_outcome by (intros p [= <-]; exact Hd). cbn [destPath].
  destruct (truthy (get options "debug")); (split; [reflexivity |]); [exact Hq |].
  cbn [final fs]. rewrite fs_remove_elsewhere; [exact Hq | exact Hws].
Qed.

End Frame.

Lemma fs_mkdir_elsewhere (l q : location) (m : FS) :
  below l q = false -> fs_mkdir l m q = m q.
Proof.
  intros Hb. unfold fs_mkdir. destruct (decide (q = l)) as [->|]; [| reflexivity].
  now rewrite below_refl in Hb.
Qed.

(** X14: a run changes the file system only through its collaborators
    and at the workspace.  A location that is neither the workspace nor
    below it, and that git, the builder, the removal of the index file
    and the removal and the copy of each deployment file leave as it
    is, holds after the run what it held before, however the run ends. *)
Theorem run_frame (E : Env) (commandOptions : object) (m : FS) (q : location) :
  let options := merge_options (AquiferGitConfig E) commandOptions in
  let d := workspace_name E m in
  env_leaves E q ->
  files_leave E options d q ->
  below (resolve (cwd E) d) q = false ->
  fs (final (deploy E commandOptions m)) q = m q.
Proof.
  intros options d Hleaves Hfiles Hws.
  destruct (deploy_cases E commandOptions m) as [(_ & -> & _)|Heq]; [reflexivity |].
  rewrite Heq. clear Heq. fold options. subst d. unfold workspace_name in *.
  destruct (createDir E template m) as [e|draws] eqn:Hc.
  { destruct (pipeline_no_workspace E options m e Hc) as (_ & -> & _). reflexivity. }
  set (d := fill template draws) in *.
  pose proof (fill_template_plain draws : plain d = true) as Hd.
  pose proof (chain_resolved E options (initial m) draws Hc) as Hchain.
  cbv zeta in Hchain. fold d in Hchain. cbn [fs destPath initial] in Hchain.
  assert (Hk : destPath (final (chain E options (initial m))) = JStr d
               /\ fs (final (chain E options (initial m))) q = m q).
  { rewrite Hchain. cbn [final].
    apply (from_clone_untouched E options d q (m q) Hd Hleaves Hfiles Hws).
    now apply fs_mkdir_elsewhere. }
  unfold pipeline, catch.
  destruct (result (chain E options (initial m))); cbn [final]; [| apply Hk].
  apply (on_error_untouched E options d q (m q) Hd Hws e _ Hk).
Qed.

Lemma run_frame_witness :
  fs (final (deploy Sample.all_ok Sample.one_file Sample.two_files)) ["p"; "a"]
  = Sample.two_files ["p"; "a"].
Proof.
  apply (run_frame Sample.all_ok Sample.one_file Sample.two_files ["p"; "a"]).
  - split; intros; reflexivity.
  - split.
    + intros m. reflexivity.
    + intros link src dest [<-|[]] Hl. vm_compute in Hl. injection Hl as <- <-.
      split; intros m.
      * reflexivity.
      * unfold copy_outcome.
        change (resolve (cwd Sample.all_ok) "/p/a") with ["p"; "a"].
        destruct (m ["p"; "a"]) as [x|] eqn:Hm; [| exact Hm].
        cbn [copySync Sample.all_ok Sample.literal_copy snd].
        rewrite fs_copy_elsewhere by reflexivity. exact Hm.
  - reflexivity.
Defined.
